(** * Snooker: shot resolution, capture detection and trajectory prediction

    A shallow embedding of the p5.js / Matter.js snooker sketch.

    JavaScript numbers are modelled as real numbers: rounding is abstracted
    away, and the places where IEEE arithmetic yields NaN (a division 0/0)
    are written out where the source can reach them.  The drawing calls
    are modelled where they assign game state ([drawCue]) or can raise
    ([drawBalls]); the rest of the drawing and the Matter.js world list,
    which mirrors the ball registry, are outside the model.  The trails
    and pocket animations that the drawing reads are modelled apart from
    the game state, in [Effects]. *)

From Stdlib Require Import Reals List Bool String Lra Lia.
Import ListNotations.
Open Scope R_scope.

(** ** Numbers and comparisons *)

Record Vec := mkVec { vecX : R; vecY : R }.

Module Num.

Definition ltb (x y : R) : bool := if Rlt_dec x y then true else false.
Definition leb (x y : R) : bool := if Rle_dec x y then true else false.
Definition gtb (x y : R) : bool := ltb y x.
Definition geb (x y : R) : bool := leb y x.

(** p5 [pow(x, 2)], the recurring [sqrt(pow(..) + pow(..))] distance,
    [constrain] and [map]. *)
Definition pow2 (x : R) : R := x * x.
Definition dist (x1 y1 x2 y2 : R) : R := sqrt (pow2 (x1 - x2) + pow2 (y1 - y2)).
Definition constrain (n lo hi : R) : R := Rmax (Rmin n hi) lo.
Definition map (n start1 stop1 start2 stop2 : R) : R :=
  (n - start1) / (stop1 - start1) * (stop2 - start2) + start2.

(** [Math.atan2], the library function behind p5's [atan2] (angles in
    radians), up to the sign of zero. *)
Definition atan2 (y x : R) : R :=
  if Rlt_dec 0 x then atan (y / x)
  else if Rlt_dec x 0 then
         (if Rle_dec 0 y then atan (y / x) + PI else atan (y / x) - PI)
       else if Rlt_dec 0 y then PI / 2
            else if Rlt_dec y 0 then - (PI / 2) else 0.

End Num.

(** ** Table geometry (initTableMeasurements, initPocketPositions) *)

Module Table.

Definition width : R := 1100.
Definition height : R := 700.

Definition tableLength : R := 900.
Definition tableWidth : R := tableLength / 2.
Definition cushionThickness : R := 25.
Definition railWidth : R := 35.

Definition tableX : R := (width - tableLength) / 2.
Definition tableY : R := (height - tableWidth) / 2.

Definition playAreaLength : R := tableLength - cushionThickness * 2.
Definition playAreaWidth : R := tableWidth - cushionThickness * 2.

Definition ballDiameter : R := tableWidth / 36.
Definition ballRadius : R := ballDiameter / 2.
Definition pocketSize : R := ballDiameter * 1.5.

Definition baulkLineY : R :=
  tableY + tableWidth - cushionThickness - playAreaLength * 0.2.
Definition dRadius : R := playAreaWidth * 0.26.
Definition dCenterX : R := tableX + tableLength / 2.

Definition pocketPositions : list Vec :=
  let offset := pocketSize * 0.35 in
  [ mkVec (tableX + offset) (tableY + offset);
    mkVec (tableX + tableLength - offset) (tableY + offset);
    mkVec (tableX + offset) (tableY + tableWidth - offset);
    mkVec (tableX + tableLength - offset) (tableY + tableWidth - offset);
    mkVec (tableX + tableLength / 2) tableY;
    mkVec (tableX + tableLength / 2) (tableY + tableWidth) ].

End Table.

(** ** Segment / circle intersection (lineCircleCollision) *)

Module Intersect.

Record Collision := mkCollision { colX : R; colY : R; colDist : R }.

(** The quadratic's coefficients, as the source computes them. *)
Definition coefA (x1 y1 x2 y2 : R) : R :=
  (x2 - x1) * (x2 - x1) + (y2 - y1) * (y2 - y1).
Definition coefB (x1 y1 x2 y2 cx cy : R) : R :=
  2 * ((x1 - cx) * (x2 - x1) + (y1 - cy) * (y2 - y1)).
Definition coefC (x1 y1 cx cy radius : R) : R :=
  (x1 - cx) * (x1 - cx) + (y1 - cy) * (y1 - cy) - radius * radius.
Definition discriminant (x1 y1 x2 y2 cx cy radius : R) : R :=
  let a := coefA x1 y1 x2 y2 in
  let b := coefB x1 y1 x2 y2 cx cy in
  let c := coefC x1 y1 cx cy radius in
  b * b - 4 * a * c.
Definition root1 (x1 y1 x2 y2 cx cy radius : R) : R :=
  (- coefB x1 y1 x2 y2 cx cy - sqrt (discriminant x1 y1 x2 y2 cx cy radius))
  / (2 * coefA x1 y1 x2 y2).
Definition root2 (x1 y1 x2 y2 cx cy radius : R) : R :=
  (- coefB x1 y1 x2 y2 cx cy + sqrt (discriminant x1 y1 x2 y2 cx cy radius))
  / (2 * coefA x1 y1 x2 y2).

Definition inUnit (t : R) : bool := Num.geb t 0 && Num.leb t 1.

(** A segment of length zero makes [a] and [b] zero, the discriminant zero
    and both roots 0/0 = NaN, which fails every comparison: the source
    falls through to [return null]. *)
Definition lineCircleCollision (x1 y1 x2 y2 cx cy radius : R)
  : option Collision :=
  let dx := x2 - x1 in
  let dy := y2 - y1 in
  let a := coefA x1 y1 x2 y2 in
  if Rlt_dec (discriminant x1 y1 x2 y2 cx cy radius) 0 then None
  else if Req_dec_T a 0 then None
  else
    let t1 := root1 x1 y1 x2 y2 cx cy radius in
    let t2 := root2 x1 y1 x2 y2 cx cy radius in
    if inUnit t1 then
      Some (mkCollision (x1 + t1 * dx) (y1 + t1 * dy) (t1 * sqrt a))
    else if inUnit t2 then
      Some (mkCollision (x1 + t2 * dx) (y1 + t2 * dy) (t2 * sqrt a))
    else None.

(** Squared distance from the circle's centre of the point at parameter
    [t] of the segment. *)
Definition sqDistAt (x1 y1 x2 y2 cx cy t : R) : R :=
  Num.pow2 (x1 + t * (x2 - x1) - cx) + Num.pow2 (y1 + t * (y2 - y1) - cy).

(** The segment meets the circle: some point of it is at distance
    [radius] from the centre. *)
Definition passesThrough (x1 y1 x2 y2 cx cy radius : R) : Prop :=
  exists t, 0 <= t <= 1 /\
            sqrt (sqDistAt x1 y1 x2 y2 cx cy t) = radius.

(** The returned point is the point of the segment at parameter [t]. *)
Definition hitAt (x1 y1 x2 y2 : R) (t : R) (h : Collision) : Prop :=
  colX h = x1 + t * (x2 - x1) /\ colY h = y1 + t * (y2 - y1) /\
  colDist h = t * sqrt (coefA x1 y1 x2 y2).

End Intersect.

(** ** Rigid bodies: the part of Matter.js the sketch drives *)

Module Matter.

Inductive Colour := yellow | green | brown | blue | pink | black.

(** The [label] option handed to [Bodies.circle]. *)
Inductive Label := cueBallLabel | redLabel | colourLabel (c : Colour).

Record Body := mkBody {
  label : Label;
  position : Vec;
  velocity : Vec;
  force : Vec;
  frictionAir : R;
  angularVelocity : R }.

Definition BALL_FRICTION_AIR : R := 0.001.

(** [Bodies.circle(x, y, ballRadius, getBallOptions(label))]: a body at
    rest at [(x, y)]. *)
Definition circle (x y : R) (l : Label) : Body :=
  mkBody l (mkVec x y) (mkVec 0 0) (mkVec 0 0) BALL_FRICTION_AIR 0.

Definition setPosition (b : Body) (p : Vec) : Body :=
  mkBody (label b) p (velocity b) (force b) (frictionAir b) (angularVelocity b).

Definition setVelocity (b : Body) (v : Vec) : Body :=
  mkBody (label b) (position b) v (force b) (frictionAir b) (angularVelocity b).

Definition setFrictionAir (b : Body) (f : R) : Body :=
  mkBody (label b) (position b) (velocity b) (force b) f (angularVelocity b).

Definition setAngularVelocity (b : Body) (w : R) : Body :=
  mkBody (label b) (position b) (velocity b) (force b) (frictionAir b) w.

(** [Body.applyForce(body, body.position, f)]: the force accumulates; the
    offset from the centre is zero, so no torque is added. *)
Definition applyForce (b : Body) (f : Vec) : Body :=
  mkBody (label b) (position b) (velocity b)
         (mkVec (vecX (force b) + vecX f) (vecY (force b) + vecY f))
         (frictionAir b) (angularVelocity b).

(** [Matter.Vector.magnitude]. *)
Definition magnitude (v : Vec) : R := sqrt (vecX v * vecX v + vecY v * vecY v).

End Matter.

(** ** Game state *)

Module Game.
Import Table Matter.

Record Cue := mkCue {
  angle : R;
  pullBack : R;
  isAiming : bool;
  dragStartX : R;
  dragStartY : R }.

(** Fields of [cue], [spinControl], [trajectoryPreview] and [replaySystem]
    that no statement of the sketch assigns after [setup]. *)
Definition maxPullBack : R := 120.
Definition uiX : R := width - 60.
Definition uiY : R := height - 60.
Definition uiRadius : R := 35.
Definition maxBounces : nat := 3.
Definition maxDistance : R := 800.
Definition maxFrames : nat := 180.
Definition playbackSpeed : R := 0.25.

Record SpinControl := mkSpin {
  spinX : R;             (* spinControl.x: side spin *)
  spinY : R;             (* spinControl.y: top (negative) / back (positive) *)
  isDragging : bool }.

Record PathPoint := mkPathPoint { pointX : R; pointY : R; bounce : nat }.

(** [targetBall] is a reference to the struck body. *)
Record GhostBall := mkGhost {
  ghostX : R; ghostY : R; targetBall : Body; targetColor : string }.

Record Ray := mkRay {
  startX : R; startY : R; dirX : R; dirY : R;
  rayColor : string; rayLength : R }.

Record TrajectoryPreview := mkPreview {
  enabled : bool;
  points : list PathPoint;
  ghostBall : option GhostBall;
  collisionBalls : list Ray }.

Record Frame := mkFrame {
  frameCueBall : option Vec;
  frameRedBalls : list Vec;
  frameColouredBalls : list (Colour * Vec) }.

Record ReplaySystem := mkReplay {
  recording : bool;
  frames : list Frame;
  playbackIndex : R;
  showReplay : bool }.

(** [colouredBalls] is an object keyed by colour name; [for ... in] visits
    the keys in the order the literal lists them. *)
Definition Coloured := list (Colour * option Body).

Record State := mkState {
  cueBall : option Body;
  redBalls : list Body;
  colouredBalls : Coloured;
  cue : Cue;
  currentMode : nat;
  cueBallPlaced : bool;
  isShooting : bool;
  canShoot : bool;
  spinControl : SpinControl;
  trajectoryPreview : TrajectoryPreview;
  replaySystem : ReplaySystem }.

Definition set_cueBall (v : option Body) (s : State) : State :=
  mkState v (redBalls s) (colouredBalls s) (cue s) (currentMode s)
          (cueBallPlaced s) (isShooting s) (canShoot s) (spinControl s)
          (trajectoryPreview s) (replaySystem s).
Definition set_redBalls (v : list Body) (s : State) : State :=
  mkState (cueBall s) v (colouredBalls s) (cue s) (currentMode s)
          (cueBallPlaced s) (isShooting s) (canShoot s) (spinControl s)
          (trajectoryPreview s) (replaySystem s).
Definition set_colouredBalls (v : Coloured) (s : State) : State :=
  mkState (cueBall s) (redBalls s) v (cue s) (currentMode s)
          (cueBallPlaced s) (isShooting s) (canShoot s) (spinControl s)
          (trajectoryPreview s) (replaySystem s).
Definition set_cue (v : Cue) (s : State) : State :=
  mkState (cueBall s) (redBalls s) (colouredBalls s) v (currentMode s)
          (cueBallPlaced s) (isShooting s) (canShoot s) (spinControl s)
          (trajectoryPreview s) (replaySystem s).
Definition set_currentMode (v : nat) (s : State) : State :=
  mkState (cueBall s) (redBalls s) (colouredBalls s) (cue s) v
          (cueBallPlaced s) (isShooting s) (canShoot s) (spinControl s)
          (trajectoryPreview s) (replaySystem s).
Definition set_cueBallPlaced (v : bool) (s : State) : State :=
  mkState (cueBall s) (redBalls s) (colouredBalls s) (cue s) (currentMode s)
          v (isShooting s) (canShoot s) (spinControl s)
          (trajectoryPreview s) (replaySystem s).
Definition set_isShooting (v : bool) (s : State) : State :=
  mkState (cueBall s) (redBalls s) (colouredBalls s) (cue s) (currentMode s)
          (cueBallPlaced s) v (canShoot s) (spinControl s)
          (trajectoryPreview s) (replaySystem s).
Definition set_canShoot (v : bool) (s : State) : State :=
  mkState (cueBall s) (redBalls s) (colouredBalls s) (cue s) (currentMode s)
          (cueBallPlaced s) (isShooting s) v (spinControl s)
          (trajectoryPreview s) (replaySystem s).
Definition set_spinControl (v : SpinControl) (s : State) : State :=
  mkState (cueBall s) (redBalls s) (colouredBalls s) (cue s) (currentMode s)
          (cueBallPlaced s) (isShooting s) (canShoot s) v
          (trajectoryPreview s) (replaySystem s).
Definition set_trajectoryPreview (v : TrajectoryPreview) (s : State) : State :=
  mkState (cueBall s) (redBalls s) (colouredBalls s) (cue s) (currentMode s)
          (cueBallPlaced s) (isShooting s) (canShoot s) (spinControl s)
          v (replaySystem s).
Definition set_replaySystem (v : ReplaySystem) (s : State) : State :=
  mkState (cueBall s) (redBalls s) (colouredBalls s) (cue s) (currentMode s)
          (cueBallPlaced s) (isShooting s) (canShoot s) (spinControl s)
          (trajectoryPreview s) v.

(** The balls on the table: the cue ball if any, the reds, and the
    coloured balls that are set. *)
Definition liveColoured (cb : Coloured) : list Body :=
  flat_map (fun e => match snd e with Some b => [b] | None => [] end) cb.

Definition liveBalls (s : State) : list Body :=
  match cueBall s with Some b => [b] | None => [] end
  ++ redBalls s ++ liveColoured (colouredBalls s).

Definition liveCount (s : State) : nat := List.length (liveBalls s).

(** ** Ball colours and spots (BALL_COLORS, initBallSpots) *)

Definition BALL_COLORS_cue : string := "#FFFEF2".
Definition BALL_COLORS_red : string := "#D32F2F".
Definition BALL_COLORS (c : Colour) : string :=
  match c with
  | yellow => "#FDD835" | green => "#388E3C" | brown => "#6D4C41"
  | blue => "#1976D2" | pink => "#F48FB1" | black => "#212121"
  end.

Definition spotPositions (c : Colour) : Vec :=
  let centerX := tableX + tableLength / 2 in
  let playTop := tableY + cushionThickness in
  let playBottom := tableY + tableWidth - cushionThickness in
  let playHeight := playBottom - playTop in
  let baulkY := playBottom - playHeight * 0.2 in
  match c with
  | yellow => mkVec (centerX - dRadius) baulkY
  | green => mkVec (centerX + dRadius) baulkY
  | brown => mkVec centerX baulkY
  | blue => mkVec centerX (playTop + playHeight / 2)
  | pink => mkVec centerX (playTop + playHeight * 0.25)
  | black => mkVec centerX (playTop + playHeight * 0.08)
  end.

(** ** Rack set-up (createColouredBalls, createRedTriangle, setup) *)

Definition createColouredBalls (cb : Coloured) : Coloured :=
  List.map (fun e => let colour := fst e in
                     let pos := spotPositions colour in
                     (colour, Some (circle (vecX pos) (vecY pos) (colourLabel colour))))
           cb.

(** Five rows of 1..5 reds behind the pink spot; the [ballCount >= 15]
    exits fire after the last ball of the last row. *)
Definition createRedTriangle : list Body :=
  let pinkPos := spotPositions pink in
  let startX := vecX pinkPos in
  let startY := vecY pinkPos - ballDiameter * 1.5 in
  firstn 15
    (flat_map
       (fun row =>
          let rowY := startY - INR row * ballDiameter * 0.9 in
          let rowStartX := startX - INR row * ballRadius in
          List.map (fun col => circle (rowStartX + INR col * ballDiameter) rowY redLabel)
                   (seq 0 (row + 1)))
       (seq 0 5)).

(** Modes 2 and 3 scatter the reds with [random]; the layout drawn is
    the argument [rack]. *)
Definition createRedBallsByMode (mode : nat) (rack : list Body) : list Body :=
  match mode with
  | 1%nat => createRedTriangle
  | 2%nat | 3%nat => rack
  | _ => []
  end.

Definition setup : State :=
  mkState None
          (createRedBallsByMode 1 [])
          (createColouredBalls
             [(yellow, None); (green, None); (brown, None);
              (blue, None); (pink, None); (black, None)])
          (mkCue 0 0 false 0 0)
          1%nat false false true
          (mkSpin 0 0 false)
          (mkPreview true [] None [])
          (mkReplay false [] 0 false).

Definition resetAllBalls (rack : list Body) (s : State) : State :=
  let s := set_redBalls [] s in
  let s := match cueBall s with Some _ => set_cueBall None s | None => s end in
  let s := set_cueBallPlaced false s in
  let s := set_cue (mkCue (angle (cue s)) 0 false
                          (dragStartX (cue s)) (dragStartY (cue s))) s in
  let s := set_colouredBalls (createColouredBalls (colouredBalls s)) s in
  set_redBalls (createRedBallsByMode (currentMode s) rack) s.

(** ** Cue-ball placement (isInDZone, isOverlappingBall, createCueBall) *)

Definition isInDZone (x y : R) : bool :=
  let innerLeft := tableX + cushionThickness in
  let innerRight := tableX + tableLength - cushionThickness in
  let innerBottom := tableY + tableWidth - cushionThickness in
  let playHeight := tableWidth - cushionThickness * 2 in
  let baulkY := innerBottom - playHeight * 0.2 in
  let centerX := tableX + tableLength / 2 in
  if Num.ltb y baulkY then false
  else if Num.gtb y innerBottom then false
  else
    let distFromCenter := Num.dist x y centerX baulkY in
    if Num.leb distFromCenter dRadius then
      if Num.geb x innerLeft && Num.leb x innerRight then true else false
    else false.

(** [None] stands for the TypeError of reading [.position] of a coloured
    entry that is [null]. *)
Fixpoint overlapsColoured (x y : R) (cb : Coloured) : option bool :=
  match cb with
  | [] => Some false
  | (_, None) :: _ => None
  | (_, Some ball) :: rest =>
      if Num.ltb (Num.dist x y (vecX (position ball)) (vecY (position ball)))
                 ballDiameter
      then Some true
      else overlapsColoured x y rest
  end.

Definition isOverlappingBall (x y : R) (s : State) : option bool :=
  match overlapsColoured x y (colouredBalls s) with
  | None => None
  | Some true => Some true
  | Some false =>
      Some (existsb
              (fun red => Num.ltb (Num.dist x y (vecX (position red))
                                            (vecY (position red)))
                                  ballDiameter)
              (redBalls s))
  end.

Definition createCueBall (posX posY : R) (s : State) : State :=
  set_cueBallPlaced true (set_cueBall (Some (circle posX posY cueBallLabel)) s).

(** The D as a figure: the half disc of radius [dRadius] on the baulk
    side of the baulk line; [insideD] is its interior, [outsideD] its
    exterior, and [cushionBottom] the edge of the bottom cushion. *)
Definition cushionBottom : R := tableY + tableWidth - cushionThickness.
Definition baulkY : R := cushionBottom - (tableWidth - cushionThickness * 2) * 0.2.

Definition insideD (x y : R) : Prop :=
  baulkY < y /\ Num.dist x y (tableX + tableLength / 2) baulkY < dRadius.

Definition outsideD (x y : R) : Prop :=
  y < baulkY \/ dRadius < Num.dist x y (tableX + tableLength / 2) baulkY.

(** The balls a placement is tested against. *)
Definition objectBalls (s : State) : list Body :=
  liveColoured (colouredBalls s) ++ redBalls s.

Definition distTo (x y : R) (ball : Body) : R :=
  Num.dist x y (vecX (position ball)) (vecY (position ball)).

(** The overlap test of [isOverlappingBall] for one ball. *)
Definition tooClose (x y : R) (ball : Body) : bool :=
  Num.ltb (distTo x y ball) ballDiameter.

(** Every coloured entry holds a ball, as after [createColouredBalls]. *)
Definition colouredOnTable (s : State) : Prop :=
  Forall (fun e => snd e <> None) (colouredBalls s).

(** ** Spin control (isInsideSpinControl, updateSpinFromMouse) *)

Definition isInsideSpinControl (x y : R) : bool :=
  Num.leb (Num.dist x y uiX uiY) uiRadius.

Definition updateSpinFromMouse (mouseX mouseY : R) (s : State) : State :=
  let dx := mouseX - uiX in
  let dy := mouseY - uiY in
  set_spinControl
    (mkSpin (Num.constrain (dx / uiRadius) (-1) 1)
            (Num.constrain (dy / uiRadius) (-1) 1)
            (isDragging (spinControl s)))
    s.

(** ** Replay recorder (startRecording, stopRecording, recordReplayFrame,
       drawReplayFrame, toggleReplay) *)

Definition startRecording (s : State) : State :=
  set_replaySystem
    (mkReplay true [] (playbackIndex (replaySystem s)) (showReplay (replaySystem s))) s.

Definition stopRecording (s : State) : State :=
  set_replaySystem
    (mkReplay false (frames (replaySystem s)) (playbackIndex (replaySystem s))
              (showReplay (replaySystem s))) s.

Definition recordReplayFrame (s : State) : State :=
  let r := replaySystem s in
  let kept := if Nat.leb maxFrames (List.length (frames r))
              then tl (frames r) else frames r in
  let frame :=
    mkFrame (option_map position (cueBall s))
            (List.map position (redBalls s))
            (flat_map (fun e => match snd e with
                                | Some b => [(fst e, position b)]
                                | None => []
                                end) (colouredBalls s)) in
  set_replaySystem
    (mkReplay (recording r) (kept ++ [frame]) (playbackIndex r) (showReplay r)) s.

Definition drawReplayFrame (s : State) : State :=
  let r := replaySystem s in
  match frames r with
  | [] => set_replaySystem (mkReplay (recording r) (frames r) (playbackIndex r) false) s
  | _ :: _ =>
      let idx := playbackIndex r + playbackSpeed in
      if Num.geb idx (INR (List.length (frames r)))
      then set_replaySystem (mkReplay (recording r) (frames r) 0 false) s
      else set_replaySystem (mkReplay (recording r) (frames r) idx (showReplay r)) s
  end.

Definition toggleReplay (s : State) : State :=
  let r := replaySystem s in
  if Nat.ltb 0 (List.length (frames r)) && negb (isShooting s)
  then set_replaySystem (mkReplay (recording r) (frames r) 0 (negb (showReplay r))) s
  else s.

(** ** Mouse and keyboard handlers *)

(** The force vector [shootCueBall] computes from the aim angle, the
    pull-back and the side spin. *)
Definition shotForce (s : State) : Vec :=
  let power := Num.map (pullBack (cue s)) 0 maxPullBack 0 0.5 in
  let forceX := cos (angle (cue s)) * power in
  let forceY := sin (angle (cue s)) * power in
  let sideSpinEffect := spinX (spinControl s) * 0.08 * power in
  let perpX := - sin (angle (cue s)) in
  let perpY := cos (angle (cue s)) in
  let forceX := forceX + perpX * sideSpinEffect in
  let forceY := forceY + perpY * sideSpinEffect in
  mkVec forceX forceY.

(** [None] is the TypeError of dereferencing a [null] ball. *)
Definition shootCueBall (s : State) : option State :=
  match cueBall s with
  | None => None
  | Some ball =>
      let spinFrictionMod := 1 + spinY (spinControl s) * 0.3 in
      let ball := setFrictionAir ball (BALL_FRICTION_AIR * spinFrictionMod) in
      let ball := applyForce ball (shotForce s) in
      let ball := setAngularVelocity ball (spinX (spinControl s) * 0.2) in
      Some (set_canShoot false (set_isShooting true (set_cueBall (Some ball) s)))
  end.

Definition isSome {A} (o : option A) : bool :=
  match o with Some _ => true | None => false end.

Definition mousePressed (mouseX mouseY : R) (s : State) : option State :=
  if isInsideSpinControl mouseX mouseY then
    let s := set_spinControl
               (mkSpin (spinX (spinControl s)) (spinY (spinControl s)) true) s in
    Some (updateSpinFromMouse mouseX mouseY s)
  else if negb (cueBallPlaced s) then
    if isInDZone mouseX mouseY then
      match isOverlappingBall mouseX mouseY s with
      | None => None
      | Some false => Some (createCueBall mouseX mouseY s)
      | Some true => Some s
      end
    else Some s
  else
    match cueBall s with
    | Some ball =>
        if cueBallPlaced s && canShoot s then
          let dx := mouseX - vecX (position ball) in
          let dy := mouseY - vecY (position ball) in
          Some (set_cue (mkCue (Num.atan2 dy dx) 0 true mouseX mouseY) s)
        else Some s
    | None => Some s
    end.

Definition mouseDragged (mouseX mouseY : R) (shiftDown : bool) (s : State)
  : State :=
  if isDragging (spinControl s) then updateSpinFromMouse mouseX mouseY s
  else if isAiming (cue s) && isSome (cueBall s) then
    let dx := mouseX - dragStartX (cue s) in
    let dy := mouseY - dragStartY (cue s) in
    let dragDistance := sqrt (dx * dx + dy * dy) in
    let sensitivity := if shiftDown then 0.25 else 0.8 in
    set_cue (mkCue (angle (cue s)) (Rmin maxPullBack (dragDistance * sensitivity))
                   (isAiming (cue s)) (dragStartX (cue s)) (dragStartY (cue s))) s
  else s.

(** The guard of the shot in [mouseReleased]. *)
Definition shotReady (s : State) : bool :=
  isAiming (cue s) && isSome (cueBall s) && Num.gtb (pullBack (cue s)) 5.

Definition resetAim (s : State) : State :=
  set_cue (mkCue (angle (cue s)) 0 false (dragStartX (cue s)) (dragStartY (cue s))) s.

Definition mouseReleased (s : State) : option State :=
  if isDragging (spinControl s) then
    Some (set_spinControl
            (mkSpin (spinX (spinControl s)) (spinY (spinControl s)) false) s)
  else if shotReady s then
    option_map resetAim (shootCueBall (startRecording s))
  else Some (resetAim s).

(** [keyPressed] is a sequence of independent [if] blocks; each block is
    one function here, applied in the order of the source. *)
Definition keyMode (key : string) (rack : list Body) (s : State) : State :=
  if String.eqb key "1" then resetAllBalls rack (set_currentMode 1 s)
  else if String.eqb key "2" then resetAllBalls rack (set_currentMode 2 s)
  else if String.eqb key "3" then resetAllBalls rack (set_currentMode 3 s)
  else s.

Definition keyReplace (key : string) (s : State) : State :=
  if String.eqb key "r" || String.eqb key "R" then
    if isSome (cueBall s) && negb (isShooting s) then
      resetAim (set_cueBallPlaced false (set_cueBall None s))
    else s
  else s.

Definition keyReplay (key : string) (s : State) : State :=
  if String.eqb key " " then toggleReplay s else s.

Definition keySpin (key : string) (s : State) : State :=
  if String.eqb key "c" || String.eqb key "C" then
    set_spinControl (mkSpin 0 0 (isDragging (spinControl s))) s
  else s.

Definition keyTrajectory (key : string) (s : State) : State :=
  if String.eqb key "t" || String.eqb key "T" then
    let tp := trajectoryPreview s in
    set_trajectoryPreview
      (mkPreview (negb (enabled tp)) (points tp) (ghostBall tp) (collisionBalls tp)) s
  else s.

Definition keyPressed (key : string) (rack : list Body) (s : State) : State :=
  keyTrajectory key (keySpin key (keyReplay key (keyReplace key (keyMode key rack s)))).

(** ** Capture detector (checkPocketCollisions) *)

Definition pocketRadius : R := pocketSize * 0.6.

(** The inner loop over [pocketPositions]: the first pocket whose centre
    is closer than [pocketRadius]. *)
Definition findPocket (ball : Body) : option Vec :=
  find (fun pocket =>
          Num.ltb (Num.dist (vecX (position ball)) (vecY (position ball))
                            (vecX pocket) (vecY pocket))
                  pocketRadius)
       pocketPositions.

Definition potted (ball : Body) : bool := isSome (findPocket ball).

(** [redBalls.splice(i, 1)]. *)
Definition splice1 (l : list Body) (i : nat) : list Body :=
  firstn i l ++ skipn (S i) l.

(** The loop [for (i = redBalls.length - 1; i >= 0; i--)], with [n] the
    number of indices still to visit. *)
Fixpoint pocketReds (n : nat) (reds : list Body) : list Body :=
  match n with
  | O => reds
  | S i =>
      match nth_error reds i with
      | Some ball =>
          if potted ball then pocketReds i (splice1 reds i)
          else pocketReds i reds
      | None => pocketReds i reds
      end
  end.

Definition respot (colour : Colour) (ball : Body) : Body :=
  let spotPos := spotPositions colour in
  setVelocity (setPosition ball (mkVec (vecX spotPos) (vecY spotPos))) (mkVec 0 0).

Definition pocketColoured (cb : Coloured) : Coloured :=
  List.map (fun e =>
              match snd e with
              | None => e
              | Some ball =>
                  if potted ball then (fst e, Some (respot (fst e) ball)) else e
              end) cb.

Definition checkPocketCollisions (s : State) : State :=
  let s := match cueBall s with
           | Some ball =>
               if potted ball
               then set_cueBallPlaced false (set_cueBall None s)
               else s
           | None => s
           end in
  let s := set_redBalls (pocketReds (List.length (redBalls s)) (redBalls s)) s in
  set_colouredBalls (pocketColoured (colouredBalls s)) s.

(** A ball is in capture range when its centre is closer than
    [pocketRadius] to some pocket centre. *)
Definition inCaptureRange (ball : Body) : Prop :=
  exists pocket, In pocket pocketPositions /\
    Num.dist (vecX (position ball)) (vecY (position ball))
             (vecX pocket) (vecY pocket) < pocketRadius.

(** What a capture pass does to one entry of [colouredBalls]. *)
Definition respotted (e e' : Colour * option Body) : Prop :=
  fst e' = fst e /\
  match snd e with
  | None => snd e' = None
  | Some ball =>
      if potted ball then
        exists ball', snd e' = Some ball' /\
          position ball' = spotPositions (fst e) /\
          velocity ball' = mkVec 0 0 /\
          label ball' = label ball /\ force ball' = force ball /\
          frictionAir ball' = frictionAir ball /\
          angularVelocity ball' = angularVelocity ball
      else snd e' = Some ball
  end.

(** ** Motion settling monitor (checkBallsMoving) *)

Definition threshold : R := 0.15.

Definition moving (ball : Body) : bool :=
  Num.gtb (magnitude (velocity ball)) threshold.

(** [None]: the TypeError of reading [.velocity] of a [null] entry. *)
Fixpoint anyColouredMoving (cb : Coloured) : option bool :=
  match cb with
  | [] => Some false
  | (_, None) :: _ => None
  | (_, Some ball) :: rest =>
      if moving ball then Some true else anyColouredMoving rest
  end.

Definition checkBallsMoving (s : State) : option State :=
  let anyMoving := match cueBall s with
                   | Some ball => moving ball
                   | None => false
                   end in
  let anyMoving := anyMoving || existsb moving (redBalls s) in
  let anyMoving := if anyMoving then Some true
                   else anyColouredMoving (colouredBalls s) in
  match anyMoving with
  | None => None
  | Some anyMoving =>
      if isShooting s && negb anyMoving
      then Some (stopRecording (set_canShoot true (set_isShooting false s)))
      else Some s
  end.

(** Every live ball's speed is below the stopping threshold. *)
Definition allSlow (s : State) : Prop :=
  forall ball, In ball (liveBalls s) -> magnitude (velocity ball) < threshold.

(** ** Trajectory predictor *)

Record TargetBall := mkTarget { targetBody : Body; targetBodyColor : string }.

Definition getAllBallsExceptCue (s : State) : list TargetBall :=
  List.map (fun red => mkTarget red BALL_COLORS_red) (redBalls s)
  ++ flat_map (fun e => match snd e with
                        | Some ball => [mkTarget ball (BALL_COLORS (fst e))]
                        | None => []
                        end) (colouredBalls s).

Record HitInfo := mkHit {
  hitBall : Body; hitColor : string; hitX : R; hitY : R; hitDist : R }.

Definition closer (collision : Intersect.Collision) (closest : option HitInfo)
  : bool :=
  match closest with
  | None => true
  | Some c => Num.ltb (Intersect.colDist collision) (hitDist c)
  end.

Definition checkTrajectoryBallCollision (allBalls : list TargetBall)
           (x1 y1 x2 y2 : R) : option HitInfo :=
  let minDist := ballDiameter in
  fold_left
    (fun closest ball =>
       let bx := vecX (position (targetBody ball)) in
       let b_y := vecY (position (targetBody ball)) in
       match Intersect.lineCircleCollision x1 y1 x2 y2 bx b_y minDist with
       | Some collision =>
           if closer collision closest
           then Some (mkHit (targetBody ball) (targetBodyColor ball)
                            (Intersect.colX collision) (Intersect.colY collision)
                            (Intersect.colDist collision))
           else closest
       | None => closest
       end)
    allBalls None.

(** A hit found by the search is a contact with one of the balls given,
    at distance [ballDiameter] from that ball's centre. *)
Definition contactWith (x1 y1 x2 y2 : R) (ball : TargetBall) (hit : HitInfo) : Prop :=
  exists collision,
    Intersect.lineCircleCollision x1 y1 x2 y2
      (vecX (position (targetBody ball))) (vecY (position (targetBody ball)))
      ballDiameter = Some collision /\
    hit = mkHit (targetBody ball) (targetBodyColor ball)
                (Intersect.colX collision) (Intersect.colY collision)
                (Intersect.colDist collision).

(** The unit vector from the contact point to the struck ball's centre.
    Its length is zero only if the contact point is the centre itself,
    which a hit produced by [lineCircleCollision] excludes. *)
Definition toTarget (hitInfo : HitInfo) : Vec :=
  let toTargetX := vecX (position (hitBall hitInfo)) - hitX hitInfo in
  let toTargetY := vecY (position (hitBall hitInfo)) - hitY hitInfo in
  let toTargetLen := sqrt (toTargetX * toTargetX + toTargetY * toTargetY) in
  mkVec (toTargetX / toTargetLen) (toTargetY / toTargetLen).

Definition deflectAngle (spinControl_y : R) (hitInfo : HitInfo) : R :=
  let spinEffect := spinControl_y * 0.3 in
  Num.atan2 (vecY (toTarget hitInfo)) (vecX (toTarget hitInfo)) + PI / 2 + spinEffect.

(** The two rays [calculateDeflectionPaths] pushes onto
    [trajectoryPreview.collisionBalls]. *)
Definition calculateDeflectionPaths (spinControl_y : R) (hitInfo : HitInfo)
  : list Ray :=
  let targetX := vecX (position (hitBall hitInfo)) in
  let targetY := vecY (position (hitBall hitInfo)) in
  [ mkRay targetX targetY (vecX (toTarget hitInfo)) (vecY (toTarget hitInfo))
          (hitColor hitInfo) 80;
    mkRay (hitX hitInfo) (hitY hitInfo)
          (cos (deflectAngle spinControl_y hitInfo))
          (sin (deflectAngle spinControl_y hitInfo))
          BALL_COLORS_cue 50 ].

(** *** The marching loop of calculateTrajectoryPreview *)

Definition stepSize : R := 5.

Definition innerLeft : R := tableX + cushionThickness + ballRadius.
Definition innerRight : R := tableX + tableLength - cushionThickness - ballRadius.
Definition innerTop : R := tableY + cushionThickness + ballRadius.
Definition innerBottom : R := tableY + tableWidth - cushionThickness - ballRadius.

(** The loop's variables. *)
Record March := mkMarch {
  currentX : R; currentY : R;
  currentDirX : R; currentDirY : R;
  bounces : nat;
  totalDist : R;
  curveAmount : R }.

(** What one iteration has computed when it reaches the ball test. *)
Record Advance := mkAdvance {
  nextX : R; nextY : R;
  advDirX : R; advDirY : R;
  advBounces : nat;
  advCurve : R;
  bounced : bool }.

Definition crossesLeft (x : R) : bool := Num.ltb x innerLeft.
Definition crossesRight (x : R) : bool := Num.gtb x innerRight.
Definition crossesTop (y : R) : bool := Num.ltb y innerTop.
Definition crossesBottom (y : R) : bool := Num.gtb y innerBottom.

(** The point one step ahead, before the cushion test. *)
Definition aheadX (m : March) : R :=
  let nextX := currentX m + currentDirX m * stepSize in
  if Num.gtb (Rabs (curveAmount m)) 0.01
  then nextX + (- currentDirY m) * curveAmount m * 0.3
  else nextX.

Definition aheadY (m : March) : R :=
  let nextY := currentY m + currentDirY m * stepSize in
  if Num.gtb (Rabs (curveAmount m)) 0.01
  then nextY + currentDirX m * curveAmount m * 0.3
  else nextY.

Definition advance (m : March) : Advance :=
  let nextX := aheadX m in
  let nextY := aheadY m in
  let curveAmount := if Num.gtb (Rabs (curveAmount m)) 0.01
                     then curveAmount m * 0.995 else curveAmount m in
  let a :=
    if crossesLeft nextX then
      mkAdvance innerLeft nextY (- currentDirX m) (currentDirY m)
                (S (bounces m)) curveAmount true
    else if crossesRight nextX then
      mkAdvance innerRight nextY (- currentDirX m) (currentDirY m)
                (S (bounces m)) curveAmount true
    else
      mkAdvance nextX nextY (currentDirX m) (currentDirY m)
                (bounces m) curveAmount false in
  if crossesTop nextY then
    mkAdvance (Game.nextX a) innerTop (advDirX a) (- advDirY a)
              (S (advBounces a)) curveAmount true
  else if crossesBottom nextY then
    mkAdvance (Game.nextX a) innerBottom (advDirX a) (- advDirY a)
              (S (advBounces a)) curveAmount true
  else a.

(** The end of an iteration.  The direction's length is 1 throughout a
    run (it starts as [(cos, sin)] and only changes sign), so the
    division never meets a zero. *)
Definition commit (a : Advance) (m : March) : March :=
  let dirLen := sqrt (advDirX a * advDirX a + advDirY a * advDirY a) in
  mkMarch (nextX a) (nextY a) (advDirX a / dirLen) (advDirY a / dirLen)
          (advBounces a) (totalDist m + stepSize) (advCurve a).

Definition continues (m : March) : bool :=
  Nat.leb (bounces m) maxBounces && Num.ltb (totalDist m) maxDistance.

Definition pushPoint (m : March) (tp : TrajectoryPreview) : TrajectoryPreview :=
  mkPreview (enabled tp)
            (points tp ++ [mkPathPoint (currentX m) (currentY m) (bounces m)])
            (ghostBall tp) (collisionBalls tp).

(** The ball test of one iteration: [Some hit] when the loop breaks. *)
Definition ballTest (allBalls : list TargetBall) (m : March) (a : Advance)
           (tp : TrajectoryPreview) : option HitInfo :=
  if Nat.eqb (advBounces a) 0 && negb (isSome (ghostBall tp)) then
    checkTrajectoryBallCollision allBalls (currentX m) (currentY m) (nextX a) (nextY a)
  else None.

Definition recordHit (spinControl_y : R) (hitBall : HitInfo)
           (tp : TrajectoryPreview) : TrajectoryPreview :=
  mkPreview (enabled tp) (points tp)
            (Some (mkGhost (hitX hitBall) (hitY hitBall)
                           (Game.hitBall hitBall) (hitColor hitBall)))
            (collisionBalls tp ++ calculateDeflectionPaths spinControl_y hitBall).

(** The [while] loop, with [fuel] bounding the number of iterations;
    [None] when the bound is hit before the loop ends. *)
Fixpoint trace (fuel : nat) (allBalls : list TargetBall) (spinControl_y : R)
         (m : March) (tp : TrajectoryPreview) : option TrajectoryPreview :=
  match fuel with
  | O => None
  | S fuel' =>
      if continues m then
        let tp := pushPoint m tp in
        let a := advance m in
        match ballTest allBalls m a tp with
        | Some hitBall => Some (recordHit spinControl_y hitBall tp)
        | None => trace fuel' allBalls spinControl_y (commit a m) tp
        end
      else Some tp
  end.

(** [totalDist] grows by [stepSize] = 5 up to [maxDistance] = 800: the
    loop body runs at most 160 times. *)
Definition traceFuel : nat := 161.

Definition startMarch (ball : Body) (s : State) : March :=
  mkMarch (vecX (position ball)) (vecY (position ball))
          (cos (angle (cue s))) (sin (angle (cue s)))
          0 0 (spinX (spinControl s) * 0.15).

(** [None] would mean that the bound [traceFuel] was hit; the loop always
    ends before (calculateTrajectoryPreview_total below). *)
Definition calculateTrajectoryPreview (s : State) : option State :=
  let tp := mkPreview (enabled (trajectoryPreview s)) [] None [] in
  match cueBall s with
  | None => Some (set_trajectoryPreview tp s)
  | Some ball =>
      option_map (fun tp => set_trajectoryPreview tp s)
                 (trace traceFuel (getAllBallsExceptCue s)
                        (spinY (spinControl s)) (startMarch ball s) tp)
  end.

(** The loop's variables after [n] iterations that did not break, and
    the path point an iteration records. *)
Definition marchStep (m : March) : March := commit (advance m) m.

Definition marchAfter (n : nat) (m : March) : March := Nat.iter n marchStep m.

Definition pointOf (m : March) : PathPoint :=
  mkPathPoint (currentX m) (currentY m) (bounces m).

(** The first [k] positions of the march from [m]. *)
Definition pathOf (m : March) (k : nat) : list PathPoint :=
  List.map (fun i => pointOf (marchAfter i m)) (seq 0 k).

(** The direction has length 1. *)
Definition unitDir (m : March) : Prop :=
  currentDirX m * currentDirX m + currentDirY m * currentDirY m = 1.

(** Cushion crossings counted by one iteration from [m]. *)
Definition crossingsX (m : March) : nat :=
  if crossesLeft (aheadX m) || crossesRight (aheadX m) then 1 else 0.
Definition crossingsY (m : March) : nat :=
  if crossesTop (aheadY m) || crossesBottom (aheadY m) then 1 else 0.

(** ** The frame loop (draw) *)

Inductive BodyRef := RefCue | RefRed (i : nat) | RefColoured (c : Colour).

Fixpoint mapi {A B} (f : nat -> A -> B) (i : nat) (l : list A) : list B :=
  match l with
  | [] => []
  | a :: rest => f i a :: mapi f (S i) rest
  end.

(** [Engine.update(engine)]: the engine rewrites the bodies; [phys] is
    what it does to each of them this frame. *)
Definition Engine_update (phys : BodyRef -> Body -> Body) (s : State) : State :=
  let s := set_cueBall (option_map (phys RefCue) (cueBall s)) s in
  let s := set_redBalls (mapi (fun i => phys (RefRed i)) 0 (redBalls s)) s in
  set_colouredBalls
    (List.map (fun e => (fst e, option_map (phys (RefColoured (fst e))) (snd e)))
              (colouredBalls s)) s.

(** The one assignment in [drawCue]. *)
Definition drawCue (mouseX mouseY : R) (s : State) : State :=
  match cueBall s with
  | None => s
  | Some ball =>
      if isShooting s then s
      else if negb (isAiming (cue s)) then
        let dx := mouseX - vecX (position ball) in
        let dy := mouseY - vecY (position ball) in
        set_cue (mkCue (Num.atan2 dy dx) (pullBack (cue s)) (isAiming (cue s))
                       (dragStartX (cue s)) (dragStartY (cue s))) s
      else s
  end.

(** [drawBalls] assigns nothing, but its loop over [colouredBalls] reads
    [ball.position] of every entry without a guard: [None] is the
    TypeError on a [null] entry. *)
Definition drawBalls (s : State) : option unit :=
  if forallb (fun e => isSome (snd e)) (colouredBalls s) then Some tt else None.

Definition draw (mouseX mouseY : R) (phys : BodyRef -> Body -> Body) (s : State)
  : option State :=
  if showReplay (replaySystem s) then Some (drawReplayFrame s)
  else
    let s := Engine_update phys s in
    let s := if isShooting s && recording (replaySystem s)
             then recordReplayFrame s else s in
    let s := checkPocketCollisions s in
    match checkBallsMoving s with
    | None => None
    | Some s =>
        match (if cueBallPlaced s && canShoot s && isSome (cueBall s)
               then calculateTrajectoryPreview s else Some s) with
        | None => None
        | Some s =>
            match drawBalls s with
            | None => None
            | Some _ =>
                Some (if cueBallPlaced s && canShoot s then drawCue mouseX mouseY s
                      else s)
            end
        end
    end.

(** The state a frame has reached when it runs the settle check. *)
Definition beforeSettle (phys : BodyRef -> Body -> Body) (s : State) : State :=
  let s0 := Engine_update phys s in
  checkPocketCollisions
    (if isShooting s0 && recording (replaySystem s0) then recordReplayFrame s0 else s0).

(** ** Sessions: the events p5 delivers *)

Inductive Event :=
| MousePressed (mouseX mouseY : R)
| MouseDragged (mouseX mouseY : R) (shiftDown : bool)
| MouseReleased
| KeyPressed (key : string) (rack : list Body)
| Draw (mouseX mouseY : R) (phys : BodyRef -> Body -> Body).

Definition handle (e : Event) (s : State) : option State :=
  match e with
  | MousePressed x y => mousePressed x y s
  | MouseDragged x y shift => Some (mouseDragged x y shift s)
  | MouseReleased => mouseReleased s
  | KeyPressed key rack => Some (keyPressed key rack s)
  | Draw x y phys => draw x y phys s
  end.

Fixpoint run (es : list Event) (s : State) : option State :=
  match es with
  | [] => Some s
  | e :: rest =>
      match handle e s with
      | Some s' => run rest s'
      | None => None
      end
  end.

(** A release that fires a shot. *)
Definition firesShot (e : Event) (s : State) : bool :=
  match e with
  | MouseReleased => negb (isDragging (spinControl s)) && shotReady s
  | _ => false
  end.

(** No event of the sequence, run from [s], fires a shot. *)
Fixpoint noShotFired (es : list Event) (s : State) : Prop :=
  match es with
  | [] => True
  | e :: rest =>
      firesShot e s = false /\
      match handle e s with
      | Some s' => noShotFired rest s'
      | None => True
      end
  end.

(** An event that writes the spin: a press on the spin control, a drag
    while the control is held, or the C key. *)
Definition touchesSpin (e : Event) (s : State) : bool :=
  match e with
  | MousePressed x y => isInsideSpinControl x y
  | MouseDragged _ _ _ => isDragging (spinControl s)
  | KeyPressed key _ => String.eqb key "c" || String.eqb key "C"
  | _ => false
  end.

(** No event of the sequence, run from [s], writes the spin. *)
Fixpoint noSpinInput (es : list Event) (s : State) : Prop :=
  match es with
  | [] => True
  | e :: rest =>
      touchesSpin e s = false /\
      match handle e s with
      | Some s' => noSpinInput rest s'
      | None => True
      end
  end.

(** ** Properties of a session's states *)

(** The two flight flags mirror each other and the recorder runs exactly
    during a flight. *)
Definition flagsAgree (s : State) : Prop :=
  canShoot s = negb (isShooting s) /\ recording (replaySystem s) = isShooting s.

Definition placedAgrees (s : State) : Prop :=
  cueBallPlaced s = isSome (cueBall s).

Definition spinInRange (s : State) : Prop :=
  -1 <= spinX (spinControl s) <= 1 /\ -1 <= spinY (spinControl s) <= 1.

Definition pullBackInRange (s : State) : Prop :=
  0 <= pullBack (cue s) <= maxPullBack /\
  (isAiming (cue s) = false -> pullBack (cue s) = 0).

Definition replayBounded (s : State) : Prop :=
  (List.length (frames (replaySystem s)) <= maxFrames)%nat.

(** The keys of [colouredBalls], in the order of the object literal. *)
Definition colours : list Colour := [yellow; green; brown; blue; pink; black].

Definition colourKeys (s : State) : Prop :=
  List.map fst (colouredBalls s) = colours.

(** All of the above together. *)
Definition sessionInv (s : State) : Prop :=
  flagsAgree s /\ placedAgrees s /\ spinInRange s /\ pullBackInRange s /\
  replayBounded s /\ colourKeys s.

(** A key press that re-racks the balls. *)
Definition isModeKey (e : Event) : bool :=
  match e with
  | KeyPressed key _ => String.eqb key "1" || String.eqb key "2" || String.eqb key "3"
  | _ => false
  end.

(** A frame of the draw loop. *)
Definition isDraw (e : Event) : bool :=
  match e with
  | Draw _ _ _ => true
  | _ => false
  end.

(** ** Example states *)

(** One red left, 15 to the right of a cue ball aimed along the x axis. *)
Definition oneRedAhead : State :=
  set_redBalls [circle 565 500 redLabel] (createCueBall 550 500 setup).

(** The opening rack with the cue ball placed, the aim locked and the
    cue pulled back by 80. *)
Definition aimedShot : State :=
  set_cue (mkCue 0 80 true 600 400) (createCueBall 550 500 setup).

(** The opening rack with the cue ball placed and a shot in flight, every
    ball at rest. *)
Definition inFlightAtRest : State :=
  set_canShoot false (set_isShooting true (createCueBall 550 500 setup)).

(** The same with right-hand side spin and top spin dialled in. *)
Definition spunShot : State :=
  set_spinControl (mkSpin 0.5 (-0.5) false) aimedShot.

(** Two steps of the physics engine: one that has the cue ball rolling at
    (555, 500), one that brings every ball to rest. *)
Definition rollOn (ref : BodyRef) (ball : Body) : Body :=
  match ref with
  | RefCue => setVelocity (setPosition ball (mkVec 555 500)) (mkVec 5 0)
  | _ => ball
  end.

Definition comeToRest (ref : BodyRef) (ball : Body) : Body :=
  setVelocity ball (mkVec 0 0).

End Game.

(** ** Spin indicator (getSpinColor, getSpinTypeLabel) *)

Module Indicator.
Import Game.

(** [color(r, g, b)]. *)
Record Color := mkColor { levelR : R; levelG : R; levelB : R }.

Definition getSpinColor (s : State) : Color :=
  let sc := spinControl s in
  let spinMagnitude := sqrt (spinX sc * spinX sc + spinY sc * spinY sc) in
  if Num.ltb spinMagnitude 0.1 then mkColor 100 100 100
  else
    let c := mkColor 50 50 200 in
    let c := if Num.ltb (spinY sc) (-0.2) then mkColor (levelR c) 200 100
             else if Num.gtb (spinY sc) 0.2 then mkColor 220 80 80
                  else c in
    let c := if Num.gtb (Rabs (spinX sc)) 0.2
             then mkColor (Rmax (levelR c) 150) (levelG c) (Rmax (levelB c) 180)
             else c in
    c.

Definition getSpinTypeLabel (s : State) : string :=
  let sc := spinControl s in
  let labels := [] in
  let labels := if Num.ltb (spinY sc) (-0.3) then labels ++ ["TOP"%string] else labels in
  let labels := if Num.gtb (spinY sc) 0.3 then labels ++ ["BACK"%string] else labels in
  let labels := if Num.ltb (spinX sc) (-0.3) then labels ++ ["LEFT"%string] else labels in
  let labels := if Num.gtb (spinX sc) 0.3 then labels ++ ["RIGHT"%string] else labels in
  match labels with
  | [] => "CENTER"%string
  | _ :: _ => String.concat " + " labels
  end.

End Indicator.

(** ** Animation effects (updateSingleBallTrail, triggerPocketAnimation,
       updatePocketAnimations) *)

Module Effects.
Import Table Matter.

(** The loop [for (i = l.length - 1; i >= 0; i--)] that updates entry [i]
    in place and then removes it with [l.splice(i, 1)] when [drop] holds;
    [n] is the number of indices still to visit. *)
Fixpoint sweep {A} (upd : A -> A) (drop : A -> bool) (n : nat) (l : list A) : list A :=
  match n with
  | O => l
  | S i =>
      match nth_error l i with
      | Some a =>
          let a' := upd a in
          if drop a' then sweep upd drop i (firstn i l ++ skipn (S i) l)
          else sweep upd drop i (firstn i l ++ a' :: skipn (S i) l)
      | None => sweep upd drop i l
      end
  end.

Record TrailPoint := mkTrailPoint {
  trailX : R;
  trailY : R;
  age : R;
  trailColor : string;
  trailSpeed : R }.

Definition TRAIL_LENGTH : nat := 12.
Definition TRAIL_FADE_RATE : R := 0.08.

Definition fade (p : TrailPoint) : TrailPoint :=
  mkTrailPoint (trailX p) (trailY p) (age p + TRAIL_FADE_RATE) (trailColor p)
               (trailSpeed p).

Definition faded (p : TrailPoint) : bool := Num.geb (age p) 1.

(** [while (trail.length > TRAIL_LENGTH) trail.pop()]; every turn of the
    loop shortens the trail, so its length is fuel enough. *)
Fixpoint limitTrail (fuel : nat) (trail : list TrailPoint) : list TrailPoint :=
  match fuel with
  | O => trail
  | S fuel' =>
      if Nat.ltb TRAIL_LENGTH (List.length trail)
      then limitTrail fuel' (removelast trail)
      else trail
  end.

(** [entry] is [ballTrails[ballId]], [None] when the ball has no trail
    yet; the result is the trail stored under [ballId] afterwards. *)
Definition updateSingleBallTrail (entry : option (list TrailPoint))
    (position velocity : Vec) (ballColor : string) : list TrailPoint :=
  let speed := magnitude velocity in
  let trail := match entry with Some trail => trail | None => [] end in
  let trail := if Num.gtb speed 0.5
               then mkTrailPoint (vecX position) (vecY position) 0 ballColor speed :: trail
               else trail in
  let trail := sweep fade faded (List.length trail) trail in
  limitTrail (List.length trail) trail.

Record Particle := mkParticle {
  particleX : R;
  particleY : R;
  vx : R;
  vy : R;
  particleSize : R;
  alpha : R;
  particleColor : string }.

Record PocketAnimation := mkPocketAnimation {
  animX : R;
  animY : R;
  animColor : string;
  time : nat;
  maxTime : nat;
  size : R;
  particles : list Particle }.

(** [random(lo, hi)] of p5 for the sample [u] of [Math.random]. *)
Definition random (u lo hi : R) : R := u * (hi - lo) + lo.

(** The samples are drawn in the order angle, speed, size for each of the
    eight particles: particle [i] takes the samples [3 i], [3 i + 1] and
    [3 i + 2] of [rnd]. *)
Definition createPocketParticles (rnd : nat -> R) (x y : R) (ballColor : string)
  : list Particle :=
  let numParticles := 8%nat in
  List.map (fun i =>
              let angle := 2 * PI / INR numParticles * INR i
                           + random (rnd (3 * i)%nat) (-0.2) 0.2 in
              let speed := random (rnd (3 * i + 1)%nat) 1.5 3 in
              mkParticle x y (cos angle * speed) (sin angle * speed)
                         (random (rnd (3 * i + 2)%nat) 3 6) 255 ballColor)
           (seq 0 numParticles).

Definition triggerPocketAnimation (rnd : nat -> R) (x y : R) (ballColor : string)
    (pocketAnimations : list PocketAnimation) : list PocketAnimation :=
  pocketAnimations
    ++ [mkPocketAnimation x y ballColor 0 30 ballDiameter
                          (createPocketParticles rnd x y ballColor)].

Definition updateParticle (p : Particle) : Particle :=
  mkParticle (particleX p + vx p) (particleY p + vy p) (vx p) (vy p + 0.1)
             (particleSize p * 0.97) (alpha p * 0.92) (particleColor p).

Definition updateAnimation (anim : PocketAnimation) : PocketAnimation :=
  mkPocketAnimation (animX anim) (animY anim) (animColor anim) (S (time anim))
                    (maxTime anim) (size anim * 0.85)
                    (List.map updateParticle (particles anim)).

Definition finished (anim : PocketAnimation) : bool :=
  Nat.leb (maxTime anim) (time anim).

Definition updatePocketAnimations (pocketAnimations : list PocketAnimation)
  : list PocketAnimation :=
  sweep updateAnimation finished (List.length pocketAnimations) pocketAnimations.

End Effects.

(** ** Racks of modes 2 and 3 (createRedClusters, createPracticeReds,
       isTooCloseToSpot) *)

Module Racks.
Import Table Matter Game.

Definition random := Effects.random.

(** The loop over the keys of [spotPositions], which skips [cueBall]. *)
Definition isTooCloseToSpot (x y : R) : bool :=
  let minDistance := ballDiameter * 2 in
  existsb (fun colour =>
             let spot := spotPositions colour in
             Num.ltb (sqrt (Num.pow2 (x - vecX spot) + Num.pow2 (y - vecY spot)))
                     minDistance)
          colours.

(** A ball at a place that [isTooCloseToSpot] accepts. *)
Definition clearOfSpots (ball : Body) : Prop :=
  isTooCloseToSpot (vecX (position ball)) (vecY (position ball)) = false.

(** Cluster [cluster] draws its centre first and then an offset pair for
    each of its five balls: twelve samples, the first at [12 * cluster]. *)
Definition createRedClusters (rnd : nat -> R) : list Body :=
  let innerLeft := tableX + cushionThickness + pocketSize in
  let innerRight := tableX + tableLength - cushionThickness - pocketSize in
  let innerTop := tableY + cushionThickness + pocketSize in
  let innerBottom := tableY + tableWidth - cushionThickness - pocketSize in
  let numClusters := 3%nat in
  let ballsPerCluster := 5%nat in
  flat_map
    (fun cluster =>
       let k := (12 * cluster)%nat in
       let clusterX := random (rnd k) (innerLeft + 50) (innerRight - 50) in
       let clusterY := random (rnd (k + 1)%nat) (innerTop + 30) (innerBottom - 30) in
       List.map
         (fun b =>
            let offsetX := random (rnd (k + 2 + 2 * b)%nat)
                                  (- ballDiameter * 2) (ballDiameter * 2) in
            let offsetY := random (rnd (k + 3 + 2 * b)%nat)
                                  (- ballDiameter * 2) (ballDiameter * 2) in
            let ballX := clusterX + offsetX in
            let ballY := clusterY + offsetY in
            let ballX := Num.constrain ballX innerLeft innerRight in
            let ballY := Num.constrain ballY innerTop innerBottom in
            circle ballX ballY redLabel)
         (seq 0 ballsPerCluster))
    (seq 0 numClusters).

(** The bounds of [createPracticeReds]. *)
Definition practiceLeft : R := tableX + cushionThickness + ballDiameter.
Definition practiceRight : R := tableX + tableLength - cushionThickness - ballDiameter.
Definition practiceTop : R := tableY + cushionThickness + ballDiameter.
Definition practiceBottom : R := tableY + tableWidth - cushionThickness - ballDiameter.

(** One cell of the grid: two samples, at [k] and [k + 1]; once fifteen
    reds are placed the [break]s skip every later cell. *)
Definition practiceCell (rnd : nat -> R) (acc : list Body * nat) (cell : nat * nat)
  : list Body * nat :=
  let '(reds, k) := acc in
  let '(row, col) := cell in
  let cols := 5 in
  let rows := 3 in
  let spacingX := (practiceRight - practiceLeft) / (cols + 1) in
  let spacingY := (practiceBottom - practiceTop) / (rows + 1) in
  if Nat.leb 15 (List.length reds) then acc
  else
    let baseX := practiceLeft + spacingX * (INR col + 1) in
    let baseY := practiceTop + spacingY * (INR row + 1) in
    let offsetX := random (rnd k) (- ballDiameter) ballDiameter in
    let offsetY := random (rnd (k + 1)%nat) (- ballDiameter) ballDiameter in
    let ballX := baseX + offsetX in
    let ballY := baseY + offsetY in
    if negb (isTooCloseToSpot ballX ballY)
    then (reds ++ [circle ballX ballY redLabel], (k + 2)%nat)
    else (reds, (k + 2)%nat).

(** [while (redBalls.length < 15)]: [None] when [fuel] turns of the loop
    do not fill the rack. *)
Fixpoint fillPractice (rnd : nat -> R) (fuel : nat) (acc : list Body * nat)
  : option (list Body) :=
  let '(reds, k) := acc in
  if Nat.ltb (List.length reds) 15 then
    match fuel with
    | O => None
    | S fuel' =>
        let randX := random (rnd k) practiceLeft practiceRight in
        let randY := random (rnd (k + 1)%nat) practiceTop practiceBottom in
        if negb (isTooCloseToSpot randX randY)
        then fillPractice rnd fuel' (reds ++ [circle randX randY redLabel], (k + 2)%nat)
        else fillPractice rnd fuel' (reds, (k + 2)%nat)
    end
  else Some reds.

Definition gridCells : list (nat * nat) :=
  flat_map (fun row => List.map (fun col => (row, col)) (seq 0 5)) (seq 0 3).

Definition createPracticeReds (rnd : nat -> R) (fuel : nat) : option (list Body) :=
  fillPractice rnd fuel (fold_left (practiceCell rnd) gridCells ([], 0%nat)).

End Racks.

(** * Properties *)

Import Table Matter Game Intersect.

(** ** Comparisons *)

Lemma ltb_true x y : Num.ltb x y = true <-> x < y.
Proof. unfold Num.ltb; destruct (Rlt_dec x y); split; intros; auto; discriminate. Qed.

Lemma ltb_false x y : Num.ltb x y = false <-> y <= x.
Proof.
  unfold Num.ltb; destruct (Rlt_dec x y); split; intros; auto; try discriminate; lra.
Qed.

Lemma leb_true x y : Num.leb x y = true <-> x <= y.
Proof. unfold Num.leb; destruct (Rle_dec x y); split; intros; auto; discriminate. Qed.

Lemma leb_false x y : Num.leb x y = false <-> y < x.
Proof.
  unfold Num.leb; destruct (Rle_dec x y); split; intros; auto; try discriminate; lra.
Qed.

Lemma gtb_true x y : Num.gtb x y = true <-> y < x.
Proof. apply ltb_true. Qed.

Lemma gtb_false x y : Num.gtb x y = false <-> x <= y.
Proof. apply ltb_false. Qed.

Lemma geb_true x y : Num.geb x y = true <-> y <= x.
Proof. apply leb_true. Qed.

Lemma geb_false x y : Num.geb x y = false <-> x < y.
Proof. apply leb_false. Qed.


(** ** Table measurements *)

Lemma tableX_val : tableX = 100.
Proof. unfold tableX, width, tableLength; lra. Qed.

Lemma tableY_val : tableY = 125.
Proof. unfold tableY, height, tableWidth, tableLength; lra. Qed.

Lemma ballDiameter_val : ballDiameter = 12.5.
Proof. unfold ballDiameter, tableWidth, tableLength; lra. Qed.

Lemma ballRadius_val : ballRadius = 6.25.
Proof. unfold ballRadius; rewrite ballDiameter_val; lra. Qed.

Lemma pocketSize_val : pocketSize = 18.75.
Proof. unfold pocketSize; rewrite ballDiameter_val; lra. Qed.

Lemma dRadius_val : dRadius = 104.
Proof. unfold dRadius, playAreaWidth, tableWidth, tableLength, cushionThickness; lra. Qed.

Lemma dCenterX_val : dCenterX = 550.
Proof. unfold dCenterX; rewrite tableX_val; unfold tableLength; lra. Qed.


(** ** Segment / circle intersection *)

Lemma coefA_nonneg x1 y1 x2 y2 : 0 <= coefA x1 y1 x2 y2.
Proof.
  unfold coefA.
  pose proof (Rle_0_sqr (x2 - x1)); pose proof (Rle_0_sqr (y2 - y1)).
  unfold Rsqr in *; lra.
Qed.

Lemma coefA_pos x1 y1 x2 y2 : (x1, y1) <> (x2, y2) -> 0 < coefA x1 y1 x2 y2.
Proof.
  intros Hne. unfold coefA.
  pose proof (Rle_0_sqr (x2 - x1)) as Hx; pose proof (Rle_0_sqr (y2 - y1)) as Hy.
  unfold Rsqr in Hx, Hy.
  destruct (Req_dec_T x1 x2) as [Ex|Nx].
  - destruct (Req_dec_T y1 y2) as [Ey|Ny].
    + exfalso; apply Hne; congruence.
    + assert (0 < Rsqr (y2 - y1)) by (apply Rsqr_pos_lt; lra).
      unfold Rsqr in *; lra.
  - assert (0 < Rsqr (x2 - x1)) by (apply Rsqr_pos_lt; lra).
    unfold Rsqr in *; lra.
Qed.

Lemma sqDistAt_quadratic x1 y1 x2 y2 cx cy radius t :
  sqDistAt x1 y1 x2 y2 cx cy t - radius * radius =
  coefA x1 y1 x2 y2 * t * t + coefB x1 y1 x2 y2 cx cy * t + coefC x1 y1 cx cy radius.
Proof. unfold sqDistAt, Num.pow2, coefA, coefB, coefC; ring. Qed.

Section Quadratic.
Variables a b c s : R.
Hypothesis Ha : 0 < a.
Hypothesis Hs : 0 <= s.
Hypothesis Hss : s * s = b * b - 4 * a * c.

Let t1 := (- b - s) / (2 * a).
Let t2 := (- b + s) / (2 * a).

Lemma quad_factor t : a * t * t + b * t + c = a * (t - t1) * (t - t2).
Proof.
  unfold t1, t2. 
  assert (Hc : c = (b * b - s * s) / (4 * a)) by (rewrite Hss; field; lra).
  rewrite Hc. field. lra.
Qed.

Lemma quad_roots_ordered : t1 <= t2.
Proof.
  unfold t1, t2. unfold Rdiv. apply Rmult_le_compat_r.
  - left. apply Rinv_0_lt_compat. lra.
  - lra.
Qed.

Lemma quad_zero_is_root t : a * t * t + b * t + c = 0 -> t = t1 \/ t = t2.
Proof.
  rewrite quad_factor. intros H.
  apply Rmult_integral in H. destruct H as [H|H].
  - apply Rmult_integral in H. destruct H as [H|H]; [lra | left; lra].
  - right; lra.
Qed.
End Quadratic.

Lemma quad_zero_discr a b c t : a * t * t + b * t + c = 0 -> 0 <= b * b - 4 * a * c.
Proof.
  intros H. assert (Hc : c = - (a * t * t + b * t)) by lra. rewrite Hc.
  replace (b * b - 4 * a * - (a * t * t + b * t)) with (Rsqr (2 * a * t + b))
    by (unfold Rsqr; ring).
  apply Rle_0_sqr.
Qed.

Lemma sqrt_eq_sq r v : 0 <= r -> v = r * r -> sqrt v = r.
Proof. intros Hr ->. apply sqrt_square; assumption. Qed.

Lemma sq_of_sqrt_eq r v : 0 <= v -> sqrt v = r -> v = r * r.
Proof. intros Hv <-. symmetry; apply sqrt_def; assumption. Qed.

Lemma sqDistAt_nonneg x1 y1 x2 y2 cx cy t : 0 <= sqDistAt x1 y1 x2 y2 cx cy t.
Proof.
  unfold sqDistAt, Num.pow2.
  pose proof (Rle_0_sqr (x1 + t * (x2 - x1) - cx)); pose proof (Rle_0_sqr (y1 + t * (y2 - y1) - cy)).
  unfold Rsqr in *; lra.
Qed.

Lemma inUnit_true t : inUnit t = true <-> 0 <= t <= 1.
Proof.
  unfold inUnit. rewrite andb_true_iff, geb_true, leb_true. tauto.
Qed.

(** Roots of the quadratic are where the segment's line is at distance radius. *)
Lemma root_on_circle x1 y1 x2 y2 cx cy radius t :
  0 < coefA x1 y1 x2 y2 -> 0 <= radius ->
  0 <= discriminant x1 y1 x2 y2 cx cy radius ->
  t = root1 x1 y1 x2 y2 cx cy radius \/ t = root2 x1 y1 x2 y2 cx cy radius ->
  sqrt (sqDistAt x1 y1 x2 y2 cx cy t) = radius.
Proof.
  intros Ha Hr Hd Ht. apply sqrt_eq_sq; [assumption|].
  pose proof (sqDistAt_quadratic x1 y1 x2 y2 cx cy radius t) as Hq.
  pose proof (sqrt_pos (discriminant x1 y1 x2 y2 cx cy radius)) as Hs.
  pose proof (sqrt_def _ Hd) as Hss. unfold discriminant in Hss at 3.
  rewrite (quad_factor _ _ _ _ Ha Hss) in Hq.
  fold (root1 x1 y1 x2 y2 cx cy radius) in Hq.
  fold (root2 x1 y1 x2 y2 cx cy radius) in Hq.
  destruct Ht as [-> | ->]; rewrite Rminus_diag in Hq; ring_simplify in Hq; lra.
Qed.

Lemma on_circle_root x1 y1 x2 y2 cx cy radius t :
  0 < coefA x1 y1 x2 y2 ->
  sqrt (sqDistAt x1 y1 x2 y2 cx cy t) = radius ->
  0 <= discriminant x1 y1 x2 y2 cx cy radius /\
  (t = root1 x1 y1 x2 y2 cx cy radius \/ t = root2 x1 y1 x2 y2 cx cy radius).
Proof.
  intros Ha Hsq.
  apply sq_of_sqrt_eq in Hsq; [|apply sqDistAt_nonneg].
  pose proof (sqDistAt_quadratic x1 y1 x2 y2 cx cy radius t) as Hq.
  assert (Hz : coefA x1 y1 x2 y2 * t * t + coefB x1 y1 x2 y2 cx cy * t
               + coefC x1 y1 cx cy radius = 0) by lra.
  assert (Hd : 0 <= discriminant x1 y1 x2 y2 cx cy radius)
    by (unfold discriminant; eapply quad_zero_discr; eassumption).
  split; [assumption|].
  pose proof (sqrt_pos (discriminant x1 y1 x2 y2 cx cy radius)) as Hs.
  pose proof (sqrt_def _ Hd) as Hss. unfold discriminant in Hss at 3.
  exact (quad_zero_is_root _ _ _ _ Ha Hss t Hz).
Qed.

Lemma hit_point_sqDist x1 y1 x2 y2 cx cy t h :
  hitAt x1 y1 x2 y2 t h ->
  Num.pow2 (colX h - cx) + Num.pow2 (colY h - cy) = sqDistAt x1 y1 x2 y2 cx cy t.
Proof. intros (Hx & Hy & _). rewrite Hx, Hy. reflexivity. Qed.

Lemma lineCircleCollision_root1 x1 y1 x2 y2 cx cy radius :
  0 < coefA x1 y1 x2 y2 -> 0 <= discriminant x1 y1 x2 y2 cx cy radius ->
  0 <= root1 x1 y1 x2 y2 cx cy radius <= 1 ->
  exists h, lineCircleCollision x1 y1 x2 y2 cx cy radius = Some h /\
            hitAt x1 y1 x2 y2 (root1 x1 y1 x2 y2 cx cy radius) h.
Proof.
  intros Ha Hd Ht. unfold lineCircleCollision.
  destruct (Rlt_dec _ 0) as [Hlt|_]; [lra|].
  destruct (Req_dec_T _ 0) as [Hz|_]; [lra|].
  rewrite (proj2 (inUnit_true _) Ht).
  eexists; split; [reflexivity|]. repeat split.
Qed.

Lemma lineCircleCollision_root2 x1 y1 x2 y2 cx cy radius :
  0 < coefA x1 y1 x2 y2 -> 0 <= discriminant x1 y1 x2 y2 cx cy radius ->
  ~ 0 <= root1 x1 y1 x2 y2 cx cy radius <= 1 ->
  0 <= root2 x1 y1 x2 y2 cx cy radius <= 1 ->
  exists h, lineCircleCollision x1 y1 x2 y2 cx cy radius = Some h /\
            hitAt x1 y1 x2 y2 (root2 x1 y1 x2 y2 cx cy radius) h.
Proof.
  intros Ha Hd Hn Ht. unfold lineCircleCollision.
  destruct (Rlt_dec _ 0) as [Hlt|_]; [lra|].
  destruct (Req_dec_T _ 0) as [Hz|_]; [lra|].
  destruct (inUnit (root1 x1 y1 x2 y2 cx cy radius)) eqn:E1.
  - apply inUnit_true in E1. contradiction.
  - rewrite (proj2 (inUnit_true _) Ht).
    eexists; split; [reflexivity|]. repeat split.
Qed.

Lemma lineCircleCollision_no_root x1 y1 x2 y2 cx cy radius :
  ~ 0 <= root1 x1 y1 x2 y2 cx cy radius <= 1 ->
  ~ 0 <= root2 x1 y1 x2 y2 cx cy radius <= 1 ->
  lineCircleCollision x1 y1 x2 y2 cx cy radius = None.
Proof.
  intros H1 H2. unfold lineCircleCollision.
  destruct (Rlt_dec _ 0); [reflexivity|].
  destruct (Req_dec_T _ 0); [reflexivity|].
  destruct (inUnit (root1 _ _ _ _ _ _ _)) eqn:E1;
    [apply inUnit_true in E1; contradiction|].
  destruct (inUnit (root2 _ _ _ _ _ _ _)) eqn:E2;
    [apply inUnit_true in E2; contradiction|].
  reflexivity.
Qed.

Lemma lineCircleCollision_negative_discriminant x1 y1 x2 y2 cx cy radius :
  discriminant x1 y1 x2 y2 cx cy radius < 0 ->
  lineCircleCollision x1 y1 x2 y2 cx cy radius = None.
Proof.
  intros H. unfold lineCircleCollision.
  destruct (Rlt_dec _ 0); [reflexivity|contradiction].
Qed.

Lemma lineCircleCollision_degenerate x1 y1 cx cy radius :
  lineCircleCollision x1 y1 x1 y1 cx cy radius = None.
Proof.
  unfold lineCircleCollision.
  destruct (Rlt_dec _ 0); [reflexivity|].
  destruct (Req_dec_T _ 0) as [|Hn]; [reflexivity|].
  exfalso; apply Hn; unfold coefA; ring.
Qed.

(** C1.  For a segment with distinct end points and a circle: if the
    segment meets the circle, [lineCircleCollision] returns a point of the
    segment (parameter in [0,1]) at distance [radius] from the centre; when
    both roots are in [0,1] the smaller one is returned; when the
    discriminant is negative, when every point of the segment is farther
    than [radius] from the centre, or when both roots are outside [0,1],
    it returns nothing. *)
Theorem lineCircleCollision_correct x1 y1 x2 y2 cx cy radius :
  (x1, y1) <> (x2, y2) -> 0 <= radius ->
  let D := discriminant x1 y1 x2 y2 cx cy radius in
  let t1 := root1 x1 y1 x2 y2 cx cy radius in
  let t2 := root2 x1 y1 x2 y2 cx cy radius in
  let result := lineCircleCollision x1 y1 x2 y2 cx cy radius in
  (passesThrough x1 y1 x2 y2 cx cy radius ->
   exists h t, result = Some h /\ 0 <= t <= 1 /\ hitAt x1 y1 x2 y2 t h /\
               sqrt (Num.pow2 (colX h - cx) + Num.pow2 (colY h - cy)) = radius) /\
  (0 <= D -> 0 <= t1 <= 1 -> 0 <= t2 <= 1 ->
   t1 <= t2 /\ exists h, result = Some h /\ hitAt x1 y1 x2 y2 t1 h) /\
  (D < 0 -> result = None) /\
  ((forall t, 0 <= t <= 1 -> radius < sqrt (sqDistAt x1 y1 x2 y2 cx cy t)) ->
   result = None) /\
  (~ 0 <= t1 <= 1 -> ~ 0 <= t2 <= 1 -> result = None).
Proof.
  intros Hne Hr D t1 t2 result.
  pose proof (coefA_pos _ _ _ _ Hne) as Ha.
  split; [|split; [|split; [|split]]].
  - intros (t & Ht & Hon).
    destruct (on_circle_root _ _ _ _ _ _ _ _ Ha Hon) as [Hd Hroot].
    assert (Hcase : 0 <= t1 <= 1 \/ (~ 0 <= t1 <= 1 /\ 0 <= t2 <= 1)).
    { destruct Hroot as [E|E]; [left; subst t1; rewrite <- E; exact Ht|].
      destruct (Rle_dec 0 t1); [destruct (Rle_dec t1 1)|];
        [left; split; assumption| |]; right; (split; [lra|]);
        subst t2; rewrite <- E; exact Ht. }
    destruct Hcase as [H1 | [Hn H2]].
    + destruct (lineCircleCollision_root1 _ _ _ _ _ _ _ Ha Hd H1) as (h & E & Hh).
      exists h, t1. split; [exact E|]. split; [exact H1|]. split; [exact Hh|].
      rewrite (hit_point_sqDist _ _ _ _ cx cy _ _ Hh).
      apply root_on_circle; auto.
    + destruct (lineCircleCollision_root2 _ _ _ _ _ _ _ Ha Hd Hn H2) as (h & E & Hh).
      exists h, t2. split; [exact E|]. split; [exact H2|]. split; [exact Hh|].
      rewrite (hit_point_sqDist _ _ _ _ cx cy _ _ Hh).
      apply root_on_circle; auto.
  - intros Hd H1 H2. split.
    + apply quad_roots_ordered; [assumption|apply sqrt_pos].
    + apply lineCircleCollision_root1; assumption.
  - apply lineCircleCollision_negative_discriminant.
  - intros Hfar.
    destruct (Rlt_dec D 0) as [Hlt|Hge];
      [apply lineCircleCollision_negative_discriminant; assumption|].
    assert (Hd : 0 <= D) by lra.
    apply lineCircleCollision_no_root; intros Hin.
    + pose proof (root_on_circle x1 y1 x2 y2 cx cy radius t1 Ha Hr Hd (or_introl eq_refl)).
      specialize (Hfar t1 Hin). lra.
    + pose proof (root_on_circle x1 y1 x2 y2 cx cy radius t2 Ha Hr Hd (or_intror eq_refl)).
      specialize (Hfar t2 Hin). lra.
  - apply lineCircleCollision_no_root.
Qed.

Lemma lineCircleCollision_correct_witness :
  exists h, lineCircleCollision 0 0 10 0 5 0 2 = Some h /\
            sqrt (Num.pow2 (colX h - 5) + Num.pow2 (colY h - 0)) = 2.
Proof.
  assert (Hne : (0, 0) <> (10, 0)) by (intros E; inversion E; lra).
  assert (Hr : 0 <= 2) by lra.
  destruct (lineCircleCollision_correct 0 0 10 0 5 0 2 Hne Hr) as [Hthrough _].
  destruct Hthrough as (h & t & E & _ & _ & Hd).
  - exists 0.3. split; [lra|].
    apply sqrt_eq_sq; [lra|]. unfold sqDistAt, Num.pow2. lra.
  - exists h. split; assumption.
Defined.

(** ** The marching loop *)

Lemma trace_terminates fuel allBalls sy m tp :
  maxDistance - totalDist m <= stepSize * INR fuel ->
  exists tp', trace (S fuel) allBalls sy m tp = Some tp'.
Proof.
  revert m tp. induction fuel as [|fuel IH]; intros m tp Hd.
  - simpl in Hd. cbn [trace]. unfold continues.
    rewrite (proj2 (ltb_false _ _)) by lra. rewrite andb_false_r. eauto.
  - change (trace (S (S fuel)) allBalls sy m tp) with
      (if continues m then
         match ballTest allBalls m (advance m) (pushPoint m tp) with
         | Some hitBall => Some (recordHit sy hitBall (pushPoint m tp))
         | None => trace (S fuel) allBalls sy (commit (advance m) m) (pushPoint m tp)
         end
       else Some tp).
    destruct (continues m); [|eauto].
    destruct (ballTest _ _ _ _); [eauto|].
    apply IH. rewrite S_INR in Hd. unfold commit, stepSize in *; cbn [totalDist]. lra.
Qed.

Lemma calculateTrajectoryPreview_total s :
  exists tp', calculateTrajectoryPreview s = Some (set_trajectoryPreview tp' s).
Proof.
  unfold calculateTrajectoryPreview. destruct (cueBall s) as [ball|]; [|eauto].
  destruct (trace_terminates 160 (getAllBallsExceptCue s) (spinY (spinControl s))
              (startMarch ball s) (mkPreview (enabled (trajectoryPreview s)) [] None []))
    as [tp' E].
  - unfold maxDistance, stepSize, startMarch; cbn [totalDist].
    replace (INR 160) with 160 by (rewrite INR_IZR_INZ; reflexivity).
    lra.
  - exists tp'. unfold traceFuel. rewrite E. reflexivity.
Qed.

Lemma trace_S fuel allBalls sy m tp :
  trace (S fuel) allBalls sy m tp =
  if continues m then
    match ballTest allBalls m (advance m) (pushPoint m tp) with
    | Some hitBall => Some (recordHit sy hitBall (pushPoint m tp))
    | None => trace fuel allBalls sy (marchStep m) (pushPoint m tp)
    end
  else Some tp.
Proof. reflexivity. Qed.

Lemma marchAfter_S n m : marchAfter (S n) m = marchAfter n (marchStep m).
Proof. unfold marchAfter. symmetry. apply Nat.iter_swap. Qed.

Lemma marchAfter_succ n m : marchAfter (S n) m = marchStep (marchAfter n m).
Proof. reflexivity. Qed.

Lemma pathOf_S m k : pathOf m (S k) = pointOf m :: pathOf (marchStep m) k.
Proof.
  unfold pathOf. cbn [seq List.map]. f_equal.
  rewrite <- seq_shift, map_map. apply map_ext. intros i.
  rewrite marchAfter_S. reflexivity.
Qed.

(** The forecast is the list of the loop's successive positions, each
    recorded while the loop condition held. *)
Lemma trace_points fuel allBalls sy m tp tp' :
  trace fuel allBalls sy m tp = Some tp' ->
  exists k, points tp' = points tp ++ pathOf m k /\
            forall i, (i < k)%nat -> continues (marchAfter i m) = true.
Proof.
  revert m tp tp'. induction fuel as [|fuel IH]; intros m tp tp' E; [discriminate|].
  rewrite trace_S in E. destruct (continues m) eqn:Hc.
  - destruct (ballTest _ _ _ _) as [hit|].
    + injection E as <-. exists 1%nat. split.
      * reflexivity.
      * intros i Hi. assert (i = 0)%nat by lia. subst i. exact Hc.
    + destruct (IH _ _ _ E) as (k & Hp & Hk). exists (S k). split.
      * rewrite Hp, pathOf_S. cbn [pushPoint points]. rewrite <- app_assoc. reflexivity.
      * intros [|i] Hi; [exact Hc|]. rewrite marchAfter_S. apply Hk. lia.
  - injection E as <-. exists 0%nat. split.
    + unfold pathOf. cbn. rewrite app_nil_r. reflexivity.
    + intros i Hi. lia.
Qed.

Lemma totalDist_marchAfter n m :
  totalDist (marchAfter n m) = totalDist m + stepSize * INR n.
Proof.
  induction n as [|n IH].
  - cbn. lra.
  - rewrite marchAfter_succ, S_INR. unfold marchStep, commit; cbn [totalDist].
    rewrite IH. lra.
Qed.

Lemma continues_bounces m : continues m = true -> (bounces m <= maxBounces)%nat.
Proof.
  unfold continues. rewrite andb_true_iff. intros [H _]. apply Nat.leb_le in H. exact H.
Qed.

Lemma continues_totalDist m : continues m = true -> totalDist m < maxDistance.
Proof.
  unfold continues. rewrite andb_true_iff. intros [_ H]. apply ltb_true in H. exact H.
Qed.

Lemma pathOf_length m k : List.length (pathOf m k) = k.
Proof. unfold pathOf. rewrite length_map, length_seq. reflexivity. Qed.

Lemma pathOf_bounces m k :
  (forall i, (i < k)%nat -> continues (marchAfter i m) = true) ->
  Forall (fun p => (bounce p <= maxBounces)%nat) (pathOf m k).
Proof.
  intros H. unfold pathOf. apply Forall_forall. intros p Hin.
  apply in_map_iff in Hin. destruct Hin as (i & <- & Hi).
  apply in_seq in Hi. cbn [pointOf bounce]. apply continues_bounces, H. lia.
Qed.

(** A path that starts with [totalDist = 0] has at most 160 points. *)
Lemma pathOf_within m k :
  totalDist m = 0 ->
  (forall i, (i < k)%nat -> continues (marchAfter i m) = true) ->
  INR k * stepSize <= maxDistance.
Proof.
  intros H0 H. destruct k as [|k].
  - cbn. unfold maxDistance. lra.
  - assert (Hk : continues (marchAfter k m) = true) by (apply H; lia).
    apply continues_totalDist in Hk. rewrite totalDist_marchAfter, H0 in Hk.
    unfold stepSize, maxDistance in *.
    assert (Hlt : INR k < INR 160) by (replace (INR 160) with 160 by (rewrite INR_IZR_INZ; reflexivity); lra).
    apply INR_lt in Hlt. assert (Hle : (S k <= 160)%nat) by lia.
    apply le_INR in Hle. replace (INR 160) with 160 in Hle by (rewrite INR_IZR_INZ; reflexivity).
    lra.
Qed.

(** *** One iteration: clamping, reflection and the bounce counter *)

Lemma advance_nextX m :
  nextX (advance m) =
  if crossesLeft (aheadX m) then innerLeft
  else if crossesRight (aheadX m) then innerRight else aheadX m.
Proof.
  unfold advance.
  destruct (crossesLeft (aheadX m)), (crossesRight (aheadX m)),
    (crossesTop (aheadY m)), (crossesBottom (aheadY m)); reflexivity.
Qed.

Lemma advance_nextY m :
  nextY (advance m) =
  if crossesTop (aheadY m) then innerTop
  else if crossesBottom (aheadY m) then innerBottom else aheadY m.
Proof.
  unfold advance.
  destruct (crossesLeft (aheadX m)), (crossesRight (aheadX m)),
    (crossesTop (aheadY m)), (crossesBottom (aheadY m)); reflexivity.
Qed.

Lemma advance_dirX m :
  advDirX (advance m) =
  if crossesLeft (aheadX m) || crossesRight (aheadX m)
  then - currentDirX m else currentDirX m.
Proof.
  unfold advance.
  destruct (crossesLeft (aheadX m)), (crossesRight (aheadX m)),
    (crossesTop (aheadY m)), (crossesBottom (aheadY m)); reflexivity.
Qed.

Lemma advance_dirY m :
  advDirY (advance m) =
  if crossesTop (aheadY m) || crossesBottom (aheadY m)
  then - currentDirY m else currentDirY m.
Proof.
  unfold advance.
  destruct (crossesLeft (aheadX m)), (crossesRight (aheadX m)),
    (crossesTop (aheadY m)), (crossesBottom (aheadY m)); reflexivity.
Qed.

Lemma advance_bounces m :
  advBounces (advance m) = (bounces m + crossingsX m + crossingsY m)%nat.
Proof.
  unfold advance, crossingsX, crossingsY.
  destruct (crossesLeft (aheadX m)), (crossesRight (aheadX m)),
    (crossesTop (aheadY m)), (crossesBottom (aheadY m)); cbn; lia.
Qed.

Lemma advance_curve m :
  advCurve (advance m) =
  if Num.gtb (Rabs (curveAmount m)) 0.01 then curveAmount m * 0.995
  else curveAmount m.
Proof.
  unfold advance.
  destruct (crossesLeft (aheadX m)), (crossesRight (aheadX m)),
    (crossesTop (aheadY m)), (crossesBottom (aheadY m)); reflexivity.
Qed.

Lemma straight_not_curved m :
  curveAmount m = 0 -> Num.gtb (Rabs (curveAmount m)) 0.01 = false.
Proof. intros H. rewrite H, Rabs_R0. apply gtb_false. lra. Qed.

Lemma advance_curve_zero m : curveAmount m = 0 -> advCurve (advance m) = 0.
Proof.
  intros H. rewrite advance_curve, (straight_not_curved m H). exact H.
Qed.

Lemma advance_unit m :
  unitDir m ->
  advDirX (advance m) * advDirX (advance m)
  + advDirY (advance m) * advDirY (advance m) = 1.
Proof.
  unfold unitDir. intros H. rewrite advance_dirX, advance_dirY.
  destruct (_ || _), (_ || _); lra.
Qed.

(** With a direction of length 1 the renormalisation changes nothing. *)
Lemma marchStep_dir m :
  unitDir m ->
  currentDirX (marchStep m) = advDirX (advance m) /\
  currentDirY (marchStep m) = advDirY (advance m) /\
  unitDir (marchStep m).
Proof.
  intros H. pose proof (advance_unit m H) as Hu.
  unfold unitDir, marchStep, commit. cbn [currentDirX currentDirY].
  rewrite Hu, sqrt_1. unfold Rdiv. rewrite Rinv_1, !Rmult_1_r. auto.
Qed.

Lemma startMarch_unit ball s : unitDir (startMarch ball s).
Proof.
  unfold unitDir, startMarch; cbn [currentDirX currentDirY].
  pose proof (sin2_cos2 (angle (cue s))) as H. unfold Rsqr in H. lra.
Qed.

Lemma marchAfter_unit n m : unitDir m -> unitDir (marchAfter n m).
Proof.
  intros H. induction n as [|n IH]; [exact H|].
  rewrite marchAfter_succ. apply marchStep_dir, IH.
Qed.

Lemma marchAfter_curve_zero n m :
  curveAmount m = 0 -> curveAmount (marchAfter n m) = 0.
Proof.
  intros H. induction n as [|n IH]; [exact H|].
  rewrite marchAfter_succ. unfold marchStep, commit; cbn [curveAmount].
  apply advance_curve_zero, IH.
Qed.

Lemma aheadX_straight m :
  curveAmount m = 0 -> aheadX m = currentX m + currentDirX m * stepSize.
Proof.
  intros H. unfold aheadX. rewrite (straight_not_curved m H). reflexivity.
Qed.

Lemma aheadY_straight m :
  curveAmount m = 0 -> aheadY m = currentY m + currentDirY m * stepSize.
Proof.
  intros H. unfold aheadY. rewrite (straight_not_curved m H). reflexivity.
Qed.

Lemma inner_bounds : innerLeft < innerRight /\ innerTop < innerBottom.
Proof.
  unfold innerLeft, innerRight, innerTop, innerBottom.
  rewrite tableX_val, tableY_val, ballRadius_val.
  unfold tableWidth, tableLength, cushionThickness. lra.
Qed.

(** One iteration of a straight march (no side spin), direction of
    length 1: the marched point is clamped to the boundary it crosses,
    the component towards that boundary changes sign, the other one is
    kept unless its own boundary is crossed too, and every crossing adds
    one to the bounce counter. *)
Lemma marchStep_reflects m :
  unitDir m -> curveAmount m = 0 ->
  let x := currentX m + currentDirX m * stepSize in
  let y := currentY m + currentDirY m * stepSize in
  let m' := marchStep m in
  (x < innerLeft -> currentX m' = innerLeft /\ currentDirX m' = - currentDirX m) /\
  (innerRight < x -> currentX m' = innerRight /\ currentDirX m' = - currentDirX m) /\
  (innerLeft <= x <= innerRight -> currentX m' = x /\ currentDirX m' = currentDirX m) /\
  (y < innerTop -> currentY m' = innerTop /\ currentDirY m' = - currentDirY m) /\
  (innerBottom < y -> currentY m' = innerBottom /\ currentDirY m' = - currentDirY m) /\
  (innerTop <= y <= innerBottom -> currentY m' = y /\ currentDirY m' = currentDirY m) /\
  bounces m' =
    (bounces m
     + (if Rlt_dec x innerLeft then 1 else if Rlt_dec innerRight x then 1 else 0)
     + (if Rlt_dec y innerTop then 1 else if Rlt_dec innerBottom y then 1 else 0))%nat.
Proof.
  intros Hu Hc x y m'.
  destruct (marchStep_dir m Hu) as (Hdx & Hdy & _).
  fold m' in Hdx, Hdy. rewrite Hdx, Hdy, advance_dirX, advance_dirY.
  assert (HX : currentX m' = nextX (advance m)) by reflexivity.
  assert (HY : currentY m' = nextY (advance m)) by reflexivity.
  assert (HB : bounces m' = advBounces (advance m)) by reflexivity.
  rewrite HX, HY, HB, advance_nextX, advance_nextY, advance_bounces.
  unfold crossingsX, crossingsY.
  rewrite (aheadX_straight m Hc), (aheadY_straight m Hc). fold x y.
  unfold crossesLeft, crossesRight, crossesTop, crossesBottom, Num.gtb, Num.ltb.
  destruct inner_bounds as [Hlr Htb].
  destruct (Rlt_dec x innerLeft), (Rlt_dec innerRight x),
    (Rlt_dec y innerTop), (Rlt_dec innerBottom y);
    cbn [orb]; repeat split; intros; try lra; try reflexivity; try lia.
Qed.

(** *** The forecast of a whole run *)

Lemma forecast_of_run s ball :
  cueBall s = Some ball ->
  exists tp' k,
    calculateTrajectoryPreview s = Some (set_trajectoryPreview tp' s) /\
    points tp' = pathOf (startMarch ball s) k /\
    forall i, (i < k)%nat -> continues (marchAfter i (startMarch ball s)) = true.
Proof.
  intros Hb. unfold calculateTrajectoryPreview. rewrite Hb.
  destruct (trace_terminates 160 (getAllBallsExceptCue s) (spinY (spinControl s))
              (startMarch ball s) (mkPreview (enabled (trajectoryPreview s)) [] None []))
    as [tp' E].
  - unfold maxDistance, stepSize, startMarch; cbn [totalDist].
    replace (INR 160) with 160 by (rewrite INR_IZR_INZ; reflexivity). lra.
  - destruct (trace_points _ _ _ _ _ _ E) as (k & Hp & Hk).
    exists tp', k. unfold traceFuel. rewrite E. repeat split; assumption.
Qed.

Lemma forecast_limits s :
  exists s', calculateTrajectoryPreview s = Some s' /\
    INR (List.length (points (trajectoryPreview s'))) * stepSize <= maxDistance /\
    Forall (fun p => (bounce p <= maxBounces)%nat) (points (trajectoryPreview s')).
Proof.
  destruct (cueBall s) as [ball|] eqn:Hb.
  - destruct (forecast_of_run s ball Hb) as (tp' & k & E & Hp & Hk).
    exists (set_trajectoryPreview tp' s). split; [exact E|].
    cbn [set_trajectoryPreview trajectoryPreview]. rewrite Hp, pathOf_length. split.
    + apply (pathOf_within (startMarch ball s)); [reflexivity|exact Hk].
    + apply pathOf_bounces, Hk.
  - unfold calculateTrajectoryPreview. rewrite Hb. eexists. split; [reflexivity|].
    cbn. split; [unfold maxDistance; lra|constructor].
Qed.

(** C6.  The predictor always returns, and the state it returns differs
    from the one it was given in [trajectoryPreview] only: the cue ball,
    the reds and the coloured balls, with every field of every body, are
    the same. *)
Theorem predictor_preserves_balls s :
  exists s',
    calculateTrajectoryPreview s = Some s' /\
    cueBall s' = cueBall s /\ redBalls s' = redBalls s /\
    colouredBalls s' = colouredBalls s /\ liveBalls s' = liveBalls s /\
    s' = set_trajectoryPreview (trajectoryPreview s') s.
Proof.
  destruct (calculateTrajectoryPreview_total s) as [tp' E].
  exists (set_trajectoryPreview tp' s). split; [exact E|].
  repeat split.
Qed.

(** ** Deflection rays *)

(** For a unit vector, [1 + (v/u)²] is [1/u²]. *)
Lemma unit_slope u v :
  u * u + v * v = 1 -> u <> 0 -> sqrt (1 + (v / u)²) = / Rabs u.
Proof.
  intros Hu Hn.
  replace (1 + (v / u)²) with (Rsqr (/ u)).
  - rewrite sqrt_Rsqr_abs. apply Rabs_inv.
  - unfold Rsqr. field_simplify; [|exact Hn|exact Hn].
    rewrite <- Hu. field. exact Hn.
Qed.

Lemma atan2_unit u v :
  u * u + v * v = 1 ->
  cos (Num.atan2 v u) = u /\ sin (Num.atan2 v u) = v.
Proof.
  intros Hu. unfold Num.atan2.
  destruct (Rlt_dec 0 u) as [Hpos|Hnpos].
  - rewrite cos_atan, sin_atan, unit_slope by (assumption || lra).
    rewrite Rabs_right by lra. split; field; lra.
  - destruct (Rlt_dec u 0) as [Hneg|Hnneg].
    + assert (Hc : cos (atan (v / u)) = - u /\ sin (atan (v / u)) = - v).
      { rewrite cos_atan, sin_atan, unit_slope by (assumption || lra).
        rewrite Rabs_left by lra. split; field; lra. }
      destruct Hc as [Hc Hs].
      destruct (Rle_dec 0 v).
      * rewrite neg_cos, neg_sin, Hc, Hs. split; lra.
      * unfold Rminus. rewrite cos_plus, sin_plus, cos_neg, sin_neg, cos_PI, sin_PI, Hc, Hs.
        split; lra.
    + assert (Hz : u = 0) by lra. subst u.
      assert (Hv : v * v = 1) by lra.
      destruct (Rlt_dec 0 v) as [Hvp|Hvnp].
      * rewrite cos_PI2, sin_PI2. split; [reflexivity|]. nra.
      * destruct (Rlt_dec v 0) as [Hvn|Hvnn].
        -- rewrite cos_neg, sin_neg, cos_PI2, sin_PI2. split; [reflexivity|]. nra.
        -- exfalso. assert (v = 0) by lra. subst v. lra.
Qed.

(** A quarter turn to the left of a unit vector. *)
Lemma quarter_turn u v :
  u * u + v * v = 1 ->
  cos (Num.atan2 v u + PI / 2) = - v /\ sin (Num.atan2 v u + PI / 2) = u.
Proof.
  intros Hu. destruct (atan2_unit u v Hu) as [Hc Hs].
  rewrite cos_plus, sin_plus, cos_PI2, sin_PI2, Hc, Hs. split; lra.
Qed.

Lemma lineCircleCollision_on_circle x1 y1 x2 y2 cx cy radius h :
  0 <= radius ->
  lineCircleCollision x1 y1 x2 y2 cx cy radius = Some h ->
  sqrt (Num.pow2 (colX h - cx) + Num.pow2 (colY h - cy)) = radius /\
  exists t, 0 <= t <= 1 /\ hitAt x1 y1 x2 y2 t h.
Proof.
  intros Hr E. unfold lineCircleCollision in E.
  destruct (Rlt_dec _ 0) as [|Hd]; [discriminate|].
  destruct (Req_dec_T _ 0) as [|Ha]; [discriminate|].
  assert (Ha' : 0 < coefA x1 y1 x2 y2) by (pose proof (coefA_nonneg x1 y1 x2 y2); lra).
  assert (Hd' : 0 <= discriminant x1 y1 x2 y2 cx cy radius) by lra.
  destruct (inUnit (root1 _ _ _ _ _ _ _)) eqn:E1.
  - injection E as <-. cbn [colX colY]. split.
    + apply (root_on_circle x1 y1 x2 y2 cx cy radius _ Ha' Hr Hd' (or_introl eq_refl)).
    + eexists. split; [apply inUnit_true; exact E1|]. repeat split.
  - destruct (inUnit (root2 _ _ _ _ _ _ _)) eqn:E2; [|discriminate].
    injection E as <-. cbn [colX colY]. split.
    + apply (root_on_circle x1 y1 x2 y2 cx cy radius _ Ha' Hr Hd' (or_intror eq_refl)).
    + eexists. split; [apply inUnit_true; exact E2|]. repeat split.
Qed.

Lemma checkTrajectoryBallCollision_contact allBalls x1 y1 x2 y2 hit :
  checkTrajectoryBallCollision allBalls x1 y1 x2 y2 = Some hit ->
  exists ball, In ball allBalls /\ contactWith x1 y1 x2 y2 ball hit.
Proof.
  unfold checkTrajectoryBallCollision.
  assert (Hgen : forall (l : list TargetBall) (acc : option HitInfo),
             (forall h, acc = Some h ->
                        exists ball, In ball allBalls /\ contactWith x1 y1 x2 y2 ball h) ->
             (forall b, In b l -> In b allBalls) ->
             fold_left
               (fun closest ball =>
                  match lineCircleCollision x1 y1 x2 y2
                          (vecX (position (targetBody ball)))
                          (vecY (position (targetBody ball))) ballDiameter with
                  | Some collision =>
                      if closer collision closest
                      then Some (mkHit (targetBody ball) (targetBodyColor ball)
                                       (colX collision) (colY collision)
                                       (colDist collision))
                      else closest
                  | None => closest
                  end) l acc = Some hit ->
             exists ball, In ball allBalls /\ contactWith x1 y1 x2 y2 ball hit).
  { induction l as [|b l IH]; intros acc Hacc Hin E.
    - apply Hacc. exact E.
    - cbn [fold_left] in E. apply IH in E; [exact E| |intros; apply Hin; right; assumption].
      intros h Hh.
      destruct (lineCircleCollision _ _ _ _ _ _ _) as [col|] eqn:Ec; [|auto].
      destruct (closer col acc); [|auto].
      injection Hh as <-. exists b. split; [apply Hin; left; reflexivity|].
      exists col. split; [exact Ec|reflexivity]. }
  apply Hgen; [discriminate|auto].
Qed.

Lemma contact_distance x1 y1 x2 y2 ball hit :
  contactWith x1 y1 x2 y2 ball hit ->
  let toTargetX := vecX (position (hitBall hit)) - hitX hit in
  let toTargetY := vecY (position (hitBall hit)) - hitY hit in
  sqrt (toTargetX * toTargetX + toTargetY * toTargetY) = ballDiameter.
Proof.
  intros (col & E & ->). cbn [hitBall hitX hitY].
  apply lineCircleCollision_on_circle in E; [|rewrite ballDiameter_val; lra].
  destruct E as [E _]. rewrite <- E. f_equal. unfold Num.pow2. ring.
Qed.

Lemma ballTest_search allBalls m a tp hit :
  ballTest allBalls m a tp = Some hit ->
  checkTrajectoryBallCollision allBalls (currentX m) (currentY m) (nextX a) (nextY a)
  = Some hit.
Proof. unfold ballTest. destruct (_ && _); [auto|discriminate]. Qed.

(** A run either leaves the ghost ball and the rays as they were, or
    records one hit found by the search together with its two rays. *)
Lemma trace_hit fuel allBalls sy m tp tp' :
  trace fuel allBalls sy m tp = Some tp' ->
  (ghostBall tp' = ghostBall tp /\ collisionBalls tp' = collisionBalls tp) \/
  exists hit x1 y1 x2 y2,
    checkTrajectoryBallCollision allBalls x1 y1 x2 y2 = Some hit /\
    ghostBall tp' = Some (mkGhost (hitX hit) (hitY hit) (hitBall hit) (hitColor hit)) /\
    collisionBalls tp' = collisionBalls tp ++ calculateDeflectionPaths sy hit.
Proof.
  revert m tp tp'. induction fuel as [|fuel IH]; intros m tp tp' E; [discriminate|].
  rewrite trace_S in E. destruct (continues m).
  - destruct (ballTest _ _ _ _) as [hit|] eqn:Eb.
    + injection E as <-. right. apply ballTest_search in Eb.
      exists hit, (currentX m), (currentY m), (nextX (advance m)), (nextY (advance m)).
      repeat split. exact Eb.
    + apply IH in E. exact E.
  - injection E as <-. left. split; reflexivity.
Qed.

Lemma forecast_hit s s' g :
  calculateTrajectoryPreview s = Some s' ->
  ghostBall (trajectoryPreview s') = Some g ->
  exists hit x1 y1 x2 y2,
    checkTrajectoryBallCollision (getAllBallsExceptCue s) x1 y1 x2 y2 = Some hit /\
    g = mkGhost (hitX hit) (hitY hit) (hitBall hit) (hitColor hit) /\
    collisionBalls (trajectoryPreview s')
    = calculateDeflectionPaths (spinY (spinControl s)) hit.
Proof.
  unfold calculateTrajectoryPreview. intros E Hg.
  destruct (cueBall s) as [ball|].
  - destruct (trace _ _ _ _ _) as [tp'|] eqn:Et; [|discriminate].
    injection E as <-. cbn [set_trajectoryPreview trajectoryPreview] in *.
    apply trace_hit in Et. cbn [ghostBall collisionBalls] in Et.
    destruct Et as [[Hn _] | (hit & x1 & y1 & x2 & y2 & Hs & Hgh & Hrays)].
    + rewrite Hn in Hg. discriminate.
    + exists hit, x1, y1, x2, y2. split; [exact Hs|]. split; [congruence|].
      rewrite Hrays. reflexivity.
  - injection E as <-. cbn in Hg. discriminate.
Qed.

(** C3.  For every ball contact a prediction run records: the struck
    ball's ray starts at that ball's centre and points along the unit
    vector from the contact point to the centre; the cue ball's ray starts
    at the contact point and points along the line-of-centres angle turned
    by +90 degrees plus the spin term [0.3 * spinControl.y], so that with
    no spin it is the perpendicular, top spin (negative y) makes the angle
    smaller and back spin (positive y) makes it larger. *)
Theorem deflection_rays s s' g :
  calculateTrajectoryPreview s = Some s' ->
  ghostBall (trajectoryPreview s') = Some g ->
  let cx := vecX (position (targetBall g)) in
  let cy := vecY (position (targetBall g)) in
  let spin_y := spinY (spinControl s) in
  exists struck cueRay,
    collisionBalls (trajectoryPreview s') = [struck; cueRay] /\
    startX struck = cx /\ startY struck = cy /\
    sqrt ((cx - ghostX g) * (cx - ghostX g) + (cy - ghostY g) * (cy - ghostY g))
    = ballDiameter /\
    dirX struck = (cx - ghostX g) / ballDiameter /\
    dirY struck = (cy - ghostY g) / ballDiameter /\
    dirX struck * dirX struck + dirY struck * dirY struck = 1 /\
    startX cueRay = ghostX g /\ startY cueRay = ghostY g /\
    let lineAngle := Num.atan2 (dirY struck) (dirX struck) in
    let deflect := lineAngle + PI / 2 + spin_y * 0.3 in
    dirX cueRay = cos deflect /\ dirY cueRay = sin deflect /\
    cos (lineAngle + PI / 2) = - dirY struck /\
    sin (lineAngle + PI / 2) = dirX struck /\
    (spin_y < 0 -> deflect < lineAngle + PI / 2) /\
    (0 < spin_y -> lineAngle + PI / 2 < deflect).
Proof.
  intros E Hg cx cy spin_y.
  destruct (forecast_hit s s' g E Hg) as (hit & x1 & y1 & x2 & y2 & Hs & -> & Hrays).
  apply checkTrajectoryBallCollision_contact in Hs. destruct Hs as (ball & _ & Hc).
  pose proof (contact_distance _ _ _ _ _ _ Hc) as Hlen. cbv zeta in Hlen.
  subst cx cy. cbn [targetBall ghostX ghostY] in *.
  set (tx := vecX (position (hitBall hit)) - hitX hit) in *.
  set (ty := vecY (position (hitBall hit)) - hitY hit) in *.
  assert (Hd : 0 < ballDiameter) by (rewrite ballDiameter_val; lra).
  assert (Htt : tx * tx + ty * ty = ballDiameter * ballDiameter).
  { apply sq_of_sqrt_eq; [|exact Hlen].
    pose proof (Rle_0_sqr tx); pose proof (Rle_0_sqr ty). unfold Rsqr in *; lra. }
  assert (Hto : toTarget hit = mkVec (tx / ballDiameter) (ty / ballDiameter)).
  { unfold toTarget. fold tx ty. rewrite Hlen. reflexivity. }
  assert (Hunit : tx / ballDiameter * (tx / ballDiameter)
                  + ty / ballDiameter * (ty / ballDiameter) = 1).
  { replace (tx / ballDiameter * (tx / ballDiameter)
             + ty / ballDiameter * (ty / ballDiameter))
      with ((tx * tx + ty * ty) / (ballDiameter * ballDiameter)) by (field; lra).
    rewrite Htt. field. lra. }
  destruct (quarter_turn _ _ Hunit) as [Hq1 Hq2].
  eexists _, _. split; [rewrite Hrays; unfold calculateDeflectionPaths; reflexivity|].
  cbn [startX startY dirX dirY]. unfold deflectAngle. rewrite Hto. cbn [vecX vecY].
  repeat (split; [first [reflexivity | assumption]|]).
  split; intros; lra.
Qed.

(** *** A run that hits a ball on its first step *)

Lemma search_keeps_hit allBalls x1 y1 x2 y2 h :
  exists h',
    fold_left
      (fun closest ball =>
         match lineCircleCollision x1 y1 x2 y2
                 (vecX (position (targetBody ball)))
                 (vecY (position (targetBody ball))) ballDiameter with
         | Some collision =>
             if closer collision closest
             then Some (mkHit (targetBody ball) (targetBodyColor ball)
                              (colX collision) (colY collision) (colDist collision))
             else closest
         | None => closest
         end) allBalls (Some h) = Some h'.
Proof.
  revert h. induction allBalls as [|b l IH]; intros h; cbn [fold_left]; [eauto|].
  destruct (lineCircleCollision _ _ _ _ _ _ _) as [col|]; [|apply IH].
  destruct (closer col (Some h)); apply IH.
Qed.

Lemma search_first_hit ball rest x1 y1 x2 y2 collision :
  lineCircleCollision x1 y1 x2 y2
    (vecX (position (targetBody ball))) (vecY (position (targetBody ball)))
    ballDiameter = Some collision ->
  exists hit, checkTrajectoryBallCollision (ball :: rest) x1 y1 x2 y2 = Some hit.
Proof.
  intros E. unfold checkTrajectoryBallCollision. cbn [fold_left]. rewrite E.
  cbn [closer]. apply search_keeps_hit.
Qed.

Lemma oneRedAhead_hits :
  exists s' g, calculateTrajectoryPreview oneRedAhead = Some s' /\
               ghostBall (trajectoryPreview s') = Some g.
Proof.
  set (ball := circle 550 500 cueBallLabel).
  set (m := startMarch ball oneRedAhead).
  assert (Hcurve : curveAmount m = 0) by (cbn; lra).
  assert (Hx : aheadX m = 550 + cos 0 * 5) by (rewrite (aheadX_straight m Hcurve); reflexivity).
  assert (Hy : aheadY m = 500 + sin 0 * 5) by (rewrite (aheadY_straight m Hcurve); reflexivity).
  rewrite cos_0 in Hx. rewrite sin_0 in Hy.
  assert (HcL : crossesLeft (aheadX m) = false).
  { rewrite Hx. apply ltb_false. unfold innerLeft.
    rewrite tableX_val, ballRadius_val. unfold cushionThickness. lra. }
  assert (HcR : crossesRight (aheadX m) = false).
  { rewrite Hx. apply gtb_false. unfold innerRight.
    rewrite tableX_val, ballRadius_val. unfold tableLength, cushionThickness. lra. }
  assert (HcT : crossesTop (aheadY m) = false).
  { rewrite Hy. apply ltb_false. unfold innerTop.
    rewrite tableY_val, ballRadius_val. unfold cushionThickness. lra. }
  assert (HcB : crossesBottom (aheadY m) = false).
  { rewrite Hy. apply gtb_false. unfold innerBottom.
    rewrite tableY_val, ballRadius_val. unfold tableWidth, tableLength, cushionThickness. lra. }
  assert (Hb : advBounces (advance m) = 0%nat).
  { rewrite advance_bounces. unfold crossingsX, crossingsY.
    rewrite HcL, HcR, HcT, HcB. reflexivity. }
  assert (Hnx : nextX (advance m) = 550 + 1 * 5)
    by (rewrite advance_nextX, HcL, HcR; exact Hx).
  assert (Hny : nextY (advance m) = 500 + 0 * 5)
    by (rewrite advance_nextY, HcT, HcB; exact Hy).
  assert (Hsqrt : sqrt (discriminant 550 500 (550 + 1 * 5) (500 + 0 * 5) 565 500 ballDiameter) = 125).
  { apply sqrt_eq_sq; [lra|].
    unfold discriminant, coefA, coefB, coefC. rewrite ballDiameter_val. lra. }
  destruct (lineCircleCollision_root1 550 500 (550 + 1 * 5) (500 + 0 * 5) 565 500 ballDiameter)
    as (col & Ecol & _).
  { unfold coefA. lra. }
  { unfold discriminant, coefA, coefB, coefC. rewrite ballDiameter_val. lra. }
  { unfold root1. rewrite Hsqrt. unfold coefA, coefB. lra. }
  destruct (search_first_hit (mkTarget (circle 565 500 redLabel) BALL_COLORS_red)
              (List.tl (getAllBallsExceptCue oneRedAhead))
              550 500 (550 + 1 * 5) (500 + 0 * 5) col Ecol) as [hit Ehit].
  assert (Et : trace traceFuel (getAllBallsExceptCue oneRedAhead)
                     (spinY (spinControl oneRedAhead)) m
                     (mkPreview (enabled (trajectoryPreview oneRedAhead)) [] None [])
               = Some (recordHit (spinY (spinControl oneRedAhead)) hit
                         (pushPoint m (mkPreview (enabled (trajectoryPreview oneRedAhead)) [] None [])))).
  { unfold traceFuel. rewrite trace_S.
    assert (Hcont : continues m = true).
    { unfold continues. apply andb_true_intro. split; [reflexivity|].
      apply ltb_true. cbn. unfold maxDistance. lra. }
    rewrite Hcont. unfold ballTest. rewrite Hb, Hnx, Hny. cbn [Nat.eqb pushPoint ghostBall isSome negb andb].
    change (currentX m) with 550. change (currentY m) with 500.
    change (getAllBallsExceptCue oneRedAhead)
      with (mkTarget (circle 565 500 redLabel) BALL_COLORS_red
              :: List.tl (getAllBallsExceptCue oneRedAhead)).
    rewrite Ehit. reflexivity. }
  eexists _, _. split.
  - unfold calculateTrajectoryPreview.
    change (cueBall oneRedAhead) with (Some ball). cbv iota beta. fold m.
    rewrite Et. reflexivity.
  - reflexivity.
Qed.

Lemma deflection_rays_witness :
  exists s' struck cueRay,
    calculateTrajectoryPreview oneRedAhead = Some s' /\
    collisionBalls (trajectoryPreview s') = [struck; cueRay] /\
    dirX cueRay = - dirY struck /\ dirY cueRay = dirX struck.
Proof.
  destruct oneRedAhead_hits as (s' & g & E & Hg).
  destruct (deflection_rays oneRedAhead s' g E Hg)
    as (struck & cueRay & Hrays & _ & _ & _ & _ & _ & _ & _ & _ & Hdx & Hdy & Hc & Hs & _).
  exists s', struck, cueRay. split; [exact E|]. split; [exact Hrays|].
  cbv zeta in Hdx, Hdy, Hc, Hs.
  change (spinY (spinControl oneRedAhead)) with 0 in Hdx, Hdy.
  replace (Num.atan2 (dirY struck) (dirX struck) + PI / 2 + 0 * 0.3)
    with (Num.atan2 (dirY struck) (dirX struck) + PI / 2) in Hdx, Hdy by lra.
  rewrite Hdx, Hdy. split; assumption.
Defined.

(** ** Distances against a radius *)

Lemma dist_sq x1 y1 x2 y2 :
  0 <= (x1 - x2) * (x1 - x2) + (y1 - y2) * (y1 - y2).
Proof.
  pose proof (Rle_0_sqr (x1 - x2)); pose proof (Rle_0_sqr (y1 - y2)).
  unfold Rsqr in *; lra.
Qed.

Lemma dist_lt_iff x1 y1 x2 y2 r :
  0 <= r ->
  (Num.dist x1 y1 x2 y2 < r <->
   (x1 - x2) * (x1 - x2) + (y1 - y2) * (y1 - y2) < r * r).
Proof.
  intros Hr. unfold Num.dist, Num.pow2.
  pose proof (dist_sq x1 y1 x2 y2) as Hd.
  rewrite <- (sqrt_square r Hr) at 1. split; intros H.
  - apply sqrt_lt_0 in H; [exact H|exact Hd|]. apply Rmult_le_pos; assumption.
  - apply sqrt_lt_1; [exact Hd| |exact H]. apply Rmult_le_pos; assumption.
Qed.

Lemma dist_ltb_true x1 y1 x2 y2 r :
  0 <= r -> (x1 - x2) * (x1 - x2) + (y1 - y2) * (y1 - y2) < r * r ->
  Num.ltb (Num.dist x1 y1 x2 y2) r = true.
Proof. intros Hr H. apply ltb_true, dist_lt_iff; assumption. Qed.

Lemma dist_ltb_false x1 y1 x2 y2 r :
  0 <= r -> r * r <= (x1 - x2) * (x1 - x2) + (y1 - y2) * (y1 - y2) ->
  Num.ltb (Num.dist x1 y1 x2 y2) r = false.
Proof.
  intros Hr H. apply ltb_false. apply Rnot_lt_le. intros Hlt.
  apply dist_lt_iff in Hlt; [lra|exact Hr].
Qed.

Lemma dist_le_iff x1 y1 x2 y2 r :
  0 <= r ->
  (Num.dist x1 y1 x2 y2 <= r <->
   (x1 - x2) * (x1 - x2) + (y1 - y2) * (y1 - y2) <= r * r).
Proof.
  intros Hr. unfold Num.dist, Num.pow2.
  pose proof (dist_sq x1 y1 x2 y2) as Hd.
  rewrite <- (sqrt_square r Hr) at 1. split; intros H.
  - apply sqrt_le_0 in H; [exact H|exact Hd|]. apply Rmult_le_pos; assumption.
  - apply sqrt_le_1; [exact Hd| |exact H]. apply Rmult_le_pos; assumption.
Qed.

(** ** Capture detection *)

Lemma pocketRadius_val : pocketRadius = 11.25.
Proof. unfold pocketRadius. rewrite pocketSize_val. lra. Qed.

Lemma potted_iff ball : potted ball = true <-> inCaptureRange ball.
Proof.
  unfold potted, findPocket, inCaptureRange. split.
  - destruct (find _ _) as [pocket|] eqn:E; [|discriminate]. intros _.
    apply find_some in E. destruct E as [Hin Hlt]. apply ltb_true in Hlt.
    exists pocket. split; assumption.
  - intros (pocket & Hin & Hlt).
    destruct (find _ _) as [p|] eqn:E; [reflexivity|].
    pose proof (find_none _ _ E pocket Hin) as Hn. cbv beta in Hn.
    apply ltb_false in Hn. lra.
Qed.

Lemma potted_at_pocket ball pocket :
  In pocket pocketPositions -> position ball = pocket -> potted ball = true.
Proof.
  intros Hin Hpos. apply potted_iff. exists pocket. split; [exact Hin|].
  rewrite Hpos. apply dist_lt_iff; rewrite pocketRadius_val; lra.
Qed.

(** The descending loop with [splice] keeps, in order, the reds that are
    not potted. *)
Lemma pocketReds_prefix visited rest :
  pocketReds (List.length visited) (visited ++ rest)
  = filter (fun ball => negb (potted ball)) visited ++ rest.
Proof.
  revert rest. induction visited as [|ball visited IH] using rev_ind; intros rest.
  - reflexivity.
  - rewrite length_app, Nat.add_comm. cbn [List.length Nat.add pocketReds].
    rewrite <- app_assoc. cbn [app].
    rewrite nth_error_app2 by lia. rewrite Nat.sub_diag. cbn [nth_error].
    rewrite filter_app. cbn [filter].
    destruct (potted ball); cbn [negb].
    + unfold splice1. rewrite firstn_app, Nat.sub_diag, firstn_all2 by lia.
      cbn [firstn]. rewrite app_nil_r.
      rewrite skipn_app, skipn_all2 by lia.
      replace (S (List.length visited) - List.length visited)%nat with 1%nat by lia.
      cbn [skipn app]. rewrite IH, app_nil_r. reflexivity.
    + rewrite IH, <- app_assoc. reflexivity.
Qed.

Lemma pocketReds_filter reds :
  pocketReds (List.length reds) reds = filter (fun ball => negb (potted ball)) reds.
Proof.
  pose proof (pocketReds_prefix reds []) as H. rewrite !app_nil_r in H. exact H.
Qed.

Lemma pocketColoured_respots cb :
  Forall2 (respotted) cb (pocketColoured cb).
Proof.
  unfold pocketColoured. induction cb as [|[c [ball|]] cb IH]; cbn [List.map snd fst].
  - constructor.
  - constructor; [|exact IH]. unfold respotted. cbn [fst snd].
    destruct (potted ball).
    + split; [reflexivity|]. eexists. split; [reflexivity|].
      unfold respot. cbn. destruct (spotPositions c). repeat split.
    + split; reflexivity.
  - constructor; [|exact IH]. unfold respotted. cbn [fst snd]. split; reflexivity.
Qed.

Lemma pocketColoured_live cb :
  List.length (liveColoured (pocketColoured cb)) = List.length (liveColoured cb).
Proof.
  unfold liveColoured, pocketColoured.
  induction cb as [|[c [ball|]] cb IH]; cbn [List.map flat_map snd fst].
  - reflexivity.
  - destruct (potted ball); cbn [snd]; rewrite !length_app, IH; reflexivity.
  - cbn [snd]. exact IH.
Qed.

Lemma checkPocketCollisions_cue s :
  cueBall (checkPocketCollisions s)
  = match cueBall s with
    | Some ball => if potted ball then None else Some ball
    | None => None
    end.
Proof.
  unfold checkPocketCollisions. destruct (cueBall s) as [ball|] eqn:E.
  - destruct (potted ball); cbn; [reflexivity|exact E].
  - cbn. exact E.
Qed.

Lemma checkPocketCollisions_reds s :
  redBalls (checkPocketCollisions s)
  = filter (fun ball => negb (potted ball)) (redBalls s).
Proof.
  unfold checkPocketCollisions. cbn [set_colouredBalls redBalls set_redBalls].
  rewrite pocketReds_filter.
  destruct (cueBall s) as [ball|]; [destruct (potted ball)|]; reflexivity.
Qed.

Lemma checkPocketCollisions_coloured s :
  colouredBalls (checkPocketCollisions s) = pocketColoured (colouredBalls s).
Proof.
  unfold checkPocketCollisions. cbn [set_colouredBalls colouredBalls set_redBalls].
  destruct (cueBall s) as [ball|]; [destruct (potted ball)|]; reflexivity.
Qed.

(** C4, amended.  On a capture pass every live ball whose centre is closer
    than the capture radius to some pocket centre is captured, whatever its
    velocity, and a ball centred on a pocket centre is such a ball.  A
    captured cue ball is removed, with the cue-ball reference and the
    placed flag cleared; the captured reds are removed; a captured coloured
    ball stays in the registry at its spot with zero velocity.  The
    live-ball count drops by one per captured red and by one for a captured
    cue ball, and by nothing for coloured balls. *)
Theorem capture_pass s :
  let s' := checkPocketCollisions s in
  let cueCaptured := match cueBall s with
                     | Some ball => potted ball
                     | None => false
                     end in
  (forall ball, potted ball = true <-> inCaptureRange ball) /\
  (forall ball pocket,
      In pocket pocketPositions -> position ball = pocket -> potted ball = true) /\
  cueBall s' = (if cueCaptured then None else cueBall s) /\
  cueBallPlaced s' = (if cueCaptured then false else cueBallPlaced s) /\
  redBalls s' = filter (fun ball => negb (potted ball)) (redBalls s) /\
  Forall2 respotted (colouredBalls s) (colouredBalls s') /\
  List.length (liveColoured (colouredBalls s'))
  = List.length (liveColoured (colouredBalls s)) /\
  (liveCount s' + List.length (filter potted (redBalls s))
   + (if cueCaptured then 1 else 0))%nat = liveCount s.
Proof.
  intros s' cueCaptured.
  split; [exact potted_iff|]. split; [exact potted_at_pocket|].
  assert (Hcue : cueBall s' = if cueCaptured then None else cueBall s).
  { subst s' cueCaptured. rewrite checkPocketCollisions_cue.
    destruct (cueBall s) as [ball|]; [destruct (potted ball)|]; reflexivity. }
  assert (Hreds := checkPocketCollisions_reds s). fold s' in Hreds.
  assert (Hcol := checkPocketCollisions_coloured s). fold s' in Hcol.
  split; [exact Hcue|]. split.
  { subst s' cueCaptured. unfold checkPocketCollisions.
    destruct (cueBall s) as [ball|]; [destruct (potted ball)|]; reflexivity. }
  split; [exact Hreds|]. split; [rewrite Hcol; apply pocketColoured_respots|].
  split; [rewrite Hcol; apply pocketColoured_live|].
  unfold liveCount, liveBalls. rewrite Hcue, Hreds, Hcol, !length_app.
  rewrite pocketColoured_live.
  pose proof (filter_length potted (redBalls s)) as Hf.
  subst cueCaptured. destruct (cueBall s) as [ball|]; [destruct (potted ball)|];
    cbn [List.length]; lia.
Qed.

(** Evaluate [potted] on a ball that is out of every pocket's range. *)
Ltac pocket_far :=
  apply dist_ltb_false;
  [ rewrite pocketRadius_val; lra
  | rewrite ?pocketRadius_val, ?pocketSize_val, ?tableX_val, ?tableY_val;
    unfold tableWidth, tableLength; lra ].

(** C4 as stated fails on the boundary: a red whose centre is at the
    capture radius (11.25) from the top middle pocket stays on the table. *)
Lemma capture_at_radius_not_captured :
  let ball := circle 550 136.25 redLabel in
  let s := set_redBalls [ball] setup in
  (exists pocket, In pocket pocketPositions /\
      Num.dist (vecX (position ball)) (vecY (position ball))
               (vecX pocket) (vecY pocket) <= pocketRadius) /\
  redBalls (checkPocketCollisions s) = [ball] /\
  liveCount (checkPocketCollisions s) = liveCount s.
Proof.
  intros ball s.
  assert (Hp : potted ball = false).
  { unfold potted, findPocket, pocketPositions. cbn [find position vecX vecY ball circle].
    repeat match goal with
           | |- context [Num.ltb (Num.dist ?a ?b ?c ?d) pocketRadius] =>
               replace (Num.ltb (Num.dist a b c d) pocketRadius) with false
                 by (symmetry; pocket_far)
           end.
    reflexivity. }
  assert (Hr : redBalls (checkPocketCollisions s) = [ball]).
  { rewrite checkPocketCollisions_reds. cbn [s set_redBalls redBalls filter].
    rewrite Hp. reflexivity. }
  split; [|split; [exact Hr|]].
  - exists (mkVec (tableX + tableLength / 2) tableY). split.
    + unfold pocketPositions. cbn. auto 10.
    + cbn [ball circle position vecX vecY]. apply dist_le_iff.
      * rewrite pocketRadius_val; lra.
      * rewrite pocketRadius_val, tableX_val, tableY_val. unfold tableLength. lra.
  - unfold liveCount, liveBalls. rewrite Hr, checkPocketCollisions_cue,
      checkPocketCollisions_coloured, !length_app, pocketColoured_live.
    reflexivity.
Qed.

(** ** Cue-ball placement *)

Lemma baulkY_val : baulkY = 470.
Proof.
  unfold baulkY, cushionBottom. rewrite tableY_val.
  unfold tableWidth, tableLength, cushionThickness. lra.
Qed.

Lemma cushionBottom_val : cushionBottom = 550.
Proof.
  unfold cushionBottom. rewrite tableY_val.
  unfold tableWidth, tableLength, cushionThickness. lra.
Qed.

Lemma dist_gt_iff x1 y1 x2 y2 r :
  0 <= r ->
  (r < Num.dist x1 y1 x2 y2 <->
   r * r < (x1 - x2) * (x1 - x2) + (y1 - y2) * (y1 - y2)).
Proof.
  intros Hr. pose proof (dist_le_iff x1 y1 x2 y2 r Hr) as H. split; intros H1.
  - apply Rnot_le_lt. intros Hle. apply H in Hle. lra.
  - apply Rnot_le_lt. intros Hle. apply H in Hle. lra.
Qed.

(** Inside the source's D zone the side-cushion test is implied. *)
Lemma isInDZone_true_iff x y :
  isInDZone x y = true <->
  baulkY <= y <= cushionBottom /\
  Num.dist x y (tableX + tableLength / 2) baulkY <= dRadius.
Proof.
  unfold isInDZone. cbv zeta. fold cushionBottom. fold baulkY.
  destruct (Num.ltb y baulkY) eqn:E1.
  { apply ltb_true in E1. split; [discriminate|]. intros [[H _] _]. lra. }
  apply ltb_false in E1.
  destruct (Num.gtb y cushionBottom) eqn:E2.
  { apply gtb_true in E2. split; [discriminate|]. intros [[_ H] _]. lra. }
  apply gtb_false in E2.
  destruct (Num.leb _ dRadius) eqn:E3.
  - apply leb_true in E3.
    assert (Hx : Num.geb x (tableX + cushionThickness)
                 && Num.leb x (tableX + tableLength - cushionThickness) = true).
    { apply dist_le_iff in E3; [|rewrite dRadius_val; lra].
      rewrite dRadius_val, tableX_val in E3. unfold tableLength in E3.
      pose proof (Rle_0_sqr (y - baulkY)) as Hy. unfold Rsqr in Hy.
      apply andb_true_intro. rewrite tableX_val. unfold tableLength, cushionThickness.
      split; [apply geb_true|apply leb_true]; nra. }
    rewrite Hx. split; [intros _; split; [split|]; assumption|reflexivity].
  - apply leb_false in E3. split; [discriminate|]. intros [_ H]. lra.
Qed.

(** The spin control sits below the table: no point at or above the
    bottom cushion edge is inside it. *)
Lemma spin_control_clear x y :
  y <= cushionBottom -> isInsideSpinControl x y = false.
Proof.
  intros Hy. rewrite cushionBottom_val in Hy.
  unfold isInsideSpinControl. apply leb_false.
  apply dist_gt_iff; unfold uiRadius, uiX, uiY, width, height; [lra|].
  pose proof (Rle_0_sqr (x - (1100 - 60))) as Hx. unfold Rsqr in Hx. nra.
Qed.

Lemma overlapsColoured_present x y cb :
  Forall (fun e => snd e <> None) cb ->
  overlapsColoured x y cb = Some (existsb (tooClose x y) (liveColoured cb)).
Proof.
  unfold liveColoured. induction 1 as [|[c [ball|]] cb Hc _ IH];
    cbn [overlapsColoured flat_map snd app existsb].
  - reflexivity.
  - fold (distTo x y ball). fold (tooClose x y ball).
    destruct (tooClose x y ball); [reflexivity|exact IH].
  - cbn in Hc. contradiction.
Qed.

Lemma isOverlappingBall_present x y s :
  colouredOnTable s ->
  isOverlappingBall x y s = Some (existsb (tooClose x y) (objectBalls s)).
Proof.
  intros Hc. unfold isOverlappingBall, objectBalls.
  rewrite (overlapsColoured_present x y _ Hc), existsb_app.
  destruct (existsb (tooClose x y) (liveColoured (colouredBalls s))); reflexivity.
Qed.

Lemma ballDiameter_pos : 0 < ballDiameter.
Proof. rewrite ballDiameter_val. lra. Qed.

Lemma mousePressed_places s x y :
  cueBallPlaced s = false -> colouredOnTable s ->
  baulkY <= y <= cushionBottom ->
  Num.dist x y (tableX + tableLength / 2) baulkY <= dRadius ->
  (forall ball, In ball (objectBalls s) -> ballDiameter <= distTo x y ball) ->
  mousePressed x y s = Some (createCueBall x y s).
Proof.
  intros Hplaced Hcol Hy Hd Hfar. unfold mousePressed.
  rewrite (spin_control_clear x y (proj2 Hy)), Hplaced. cbn [negb].
  rewrite (proj2 (isInDZone_true_iff x y)) by (split; assumption).
  rewrite (isOverlappingBall_present x y s Hcol).
  replace (existsb (tooClose x y) (objectBalls s)) with false; [reflexivity|].
  symmetry. apply not_true_is_false. intros H.
  apply existsb_exists in H. destruct H as (ball & Hin & Hclose).
  apply ltb_true in Hclose. specialize (Hfar ball Hin). lra.
Qed.

(** C5, amended.  A placement press (no cue ball placed yet) at a point
    strictly inside the D-zone semicircle, not beyond the bottom cushion
    edge, and farther than one ball diameter from every ball's centre
    creates the cue ball at that point, at rest, and changes no other
    ball; a press outside the semicircle, beyond the bottom cushion edge,
    or closer than one ball diameter to some ball's centre creates no cue
    ball and changes no ball. *)
Theorem cue_ball_placement s x y :
  cueBallPlaced s = false -> colouredOnTable s ->
  (insideD x y -> y <= cushionBottom ->
   (forall ball, In ball (objectBalls s) -> ballDiameter < distTo x y ball) ->
   exists s' placed,
     mousePressed x y s = Some s' /\
     cueBall s' = Some placed /\ cueBallPlaced s' = true /\
     position placed = mkVec x y /\ velocity placed = mkVec 0 0 /\
     redBalls s' = redBalls s /\ colouredBalls s' = colouredBalls s) /\
  (outsideD x y \/ cushionBottom < y \/
   (exists ball, In ball (objectBalls s) /\ distTo x y ball < ballDiameter) ->
   exists s',
     mousePressed x y s = Some s' /\
     cueBall s' = cueBall s /\ cueBallPlaced s' = false /\
     redBalls s' = redBalls s /\ colouredBalls s' = colouredBalls s).
Proof.
  intros Hplaced Hcol. split.
  - intros [Hy Hd] Hbottom Hfar.
    rewrite (mousePressed_places s x y Hplaced Hcol) by
      (try split; try lra; intros ball Hin; left; apply Hfar, Hin).
    eexists _, _. split; [reflexivity|]. repeat split.
  - intros Hout. unfold mousePressed.
    destruct (isInsideSpinControl x y).
    { eexists. split; [reflexivity|]. repeat split. exact Hplaced. }
    rewrite Hplaced. cbn [negb].
    destruct (isInDZone x y) eqn:Ez; [|exists s; repeat split; assumption].
    apply isInDZone_true_iff in Ez. destruct Ez as [[Hy1 Hy2] Hd].
    destruct Hout as [[Ho|Ho]|[Ho|(ball & Hin & Hclose)]]; try lra.
    rewrite (isOverlappingBall_present x y s Hcol).
    replace (existsb (tooClose x y) (objectBalls s)) with true.
    + exists s. repeat split; assumption.
    + symmetry. apply existsb_exists. exists ball. split; [exact Hin|].
      apply ltb_true. exact Hclose.
Qed.

(** *** The opening rack *)

Lemma createRedTriangle_length : List.length createRedTriangle = 15%nat.
Proof. reflexivity. Qed.

Lemma setup_colouredOnTable : colouredOnTable setup.
Proof. unfold colouredOnTable, setup. cbn. repeat constructor; discriminate. Qed.

(** In the opening rack every object ball lies on or above the baulk line. *)
Lemma setup_balls_above_baulk ball :
  In ball (objectBalls setup) -> vecY (position ball) <= baulkY.
Proof.
  rewrite baulkY_val.
  unfold objectBalls, setup, liveColoured, createColouredBalls, createRedBallsByMode,
    createRedTriangle.
  cbn [colouredBalls redBalls List.map flat_map fst snd app seq firstn Nat.add In].
  intros H.
  repeat (destruct H as [<-|H];
          [cbn [circle position vecY vecX spotPositions INR];
           rewrite ?tableY_val, ?ballDiameter_val;
           unfold tableWidth, tableLength, cushionThickness; lra|]).
  contradiction.
Qed.

Lemma below_baulk_far x y ball :
  vecY (position ball) <= baulkY -> baulkY + ballDiameter < y ->
  ballDiameter < distTo x y ball.
Proof.
  intros Hb Hy. unfold distTo. apply dist_gt_iff; [left; exact ballDiameter_pos|].
  pose proof ballDiameter_pos as Hd.
  pose proof (Rle_0_sqr (x - vecX (position ball))) as Hx. unfold Rsqr in Hx.
  assert (Hgap : ballDiameter < y - vecY (position ball)) by lra.
  nra.
Qed.

Lemma cue_ball_placement_witness :
  exists s' placed,
    mousePressed 550 500 setup = Some s' /\
    cueBall s' = Some placed /\ position placed = mkVec 550 500.
Proof.
  destruct (cue_ball_placement setup 550 500 eq_refl setup_colouredOnTable)
    as [Hplace _].
  destruct Hplace as (s' & placed & E & Hc & _ & Hp & _).
  - unfold insideD. rewrite baulkY_val. split; [lra|].
    apply dist_lt_iff; rewrite dRadius_val, ?tableX_val; unfold tableLength; lra.
  - rewrite cushionBottom_val. lra.
  - intros ball Hin. apply below_baulk_far.
    + apply setup_balls_above_baulk, Hin.
    + rewrite baulkY_val, ballDiameter_val. lra.
  - exists s', placed. repeat split; assumption.
Defined.

(** C5 as stated fails: (550, 560) is strictly inside the D semicircle and
    far from every ball of the opening rack, yet it lies beyond the bottom
    cushion edge and the press places nothing. *)
Lemma placement_beyond_cushion_rejected :
  insideD 550 560 /\
  (forall ball, In ball (objectBalls setup) -> ballDiameter < distTo 550 560 ball) /\
  cueBallPlaced setup = false /\
  mousePressed 550 560 setup = Some setup /\ cueBall setup = None.
Proof.
  split; [|split; [|split; [reflexivity|split; [|reflexivity]]]].
  - unfold insideD. rewrite baulkY_val. split; [lra|].
    apply dist_lt_iff; rewrite dRadius_val, ?tableX_val; unfold tableLength; lra.
  - intros ball Hin. apply below_baulk_far.
    + apply setup_balls_above_baulk, Hin.
    + rewrite baulkY_val, ballDiameter_val. lra.
  - unfold mousePressed.
    assert (Hs : isInsideSpinControl 550 560 = false).
    { unfold isInsideSpinControl. apply leb_false.
      apply dist_gt_iff; unfold uiRadius, uiX, uiY, width, height; lra. }
    rewrite Hs. cbn [cueBallPlaced setup negb].
    assert (Hz : isInDZone 550 560 = false).
    { apply not_true_is_false. intros Hz. apply isInDZone_true_iff in Hz.
      rewrite cushionBottom_val in Hz. lra. }
    rewrite Hz. reflexivity.
Qed.

(** ** The release gesture *)

Lemma shotReady_iff s :
  shotReady s = true <->
  isAiming (cue s) = true /\ cueBall s <> None /\ 5 < pullBack (cue s).
Proof.
  unfold shotReady. rewrite !andb_true_iff, gtb_true.
  destruct (cueBall s); cbn [isSome]; split.
  - intros [[H1 _] H3]. repeat split; [exact H1|discriminate|exact H3].
  - intros (H1 & _ & H3). auto.
  - intros [[_ H] _]. discriminate.
  - intros (_ & H & _). contradiction.
Qed.

(** The force a shot adds to the cue ball. *)
Lemma shootCueBall_effect s ball :
  cueBall s = Some ball ->
  exists ball',
    shootCueBall s = Some (set_canShoot false (set_isShooting true
                             (set_cueBall (Some ball') s))) /\
    position ball' = position ball /\ velocity ball' = velocity ball /\
    label ball' = label ball /\
    force ball' = mkVec (vecX (force ball) + vecX (shotForce s))
                        (vecY (force ball) + vecY (shotForce s)) /\
    frictionAir ball' = BALL_FRICTION_AIR * (1 + spinY (spinControl s) * 0.3) /\
    angularVelocity ball' = spinX (spinControl s) * 0.2.
Proof.
  intros E. unfold shootCueBall. rewrite E. eexists. split; [reflexivity|].
  repeat split.
Qed.

Lemma shotForce_nonzero s :
  5 < pullBack (cue s) ->
  0 < vecX (shotForce s) * vecX (shotForce s) + vecY (shotForce s) * vecY (shotForce s).
Proof.
  intros Hp. unfold shotForce. cbn [vecX vecY].
  set (a := angle (cue s)). set (k := spinX (spinControl s) * 0.08).
  assert (Hpow : 0 < Num.map (pullBack (cue s)) 0 maxPullBack 0 0.5).
  { unfold Num.map, maxPullBack. lra. }
  set (power := Num.map (pullBack (cue s)) 0 maxPullBack 0 0.5) in *.
  replace ((cos a * power + - sin a * (k * power)) * (cos a * power + - sin a * (k * power))
           + (sin a * power + cos a * (k * power)) * (sin a * power + cos a * (k * power)))
    with (power * power * (1 + k * k) * (Rsqr (sin a) + Rsqr (cos a)))
    by (unfold Rsqr; ring).
  rewrite sin2_cos2.
  pose proof (Rle_0_sqr k) as Hk. unfold Rsqr in Hk.
  assert (0 < power * power) by (apply Rmult_lt_0_compat; assumption).
  assert (0 < 1 + k * k) by lra.
  rewrite Rmult_1_r. apply Rmult_lt_0_compat; assumption.
Qed.

(** C8, amended.  A release that ends a spin-control drag only clears the
    drag flag.  For every other release: the shot fires exactly when the
    player is aiming, a cue ball exists and the pull-back exceeds 5.  A
    shot that fires adds a non-zero force to the cue ball and sets the
    session in flight; otherwise no ball and neither flight flag changes.
    Either way aiming is switched off and the pull-back set to 0. *)
Theorem release_gesture s :
  (isDragging (spinControl s) = true ->
   mouseReleased s
   = Some (set_spinControl
             (mkSpin (spinX (spinControl s)) (spinY (spinControl s)) false) s)) /\
  (isDragging (spinControl s) = false ->
   (shotReady s = true <->
    isAiming (cue s) = true /\ cueBall s <> None /\ 5 < pullBack (cue s)) /\
   exists s',
     mouseReleased s = Some s' /\
     isAiming (cue s') = false /\ pullBack (cue s') = 0 /\
     redBalls s' = redBalls s /\ colouredBalls s' = colouredBalls s /\
     (shotReady s = true ->
      isShooting s' = true /\ canShoot s' = false /\
      exists ball ball',
        cueBall s = Some ball /\ cueBall s' = Some ball' /\
        force ball' = mkVec (vecX (force ball) + vecX (shotForce s))
                            (vecY (force ball) + vecY (shotForce s)) /\
        0 < vecX (shotForce s) * vecX (shotForce s)
            + vecY (shotForce s) * vecY (shotForce s)) /\
     (shotReady s = false ->
      isShooting s' = isShooting s /\ canShoot s' = canShoot s /\
      cueBall s' = cueBall s)).
Proof.
  split.
  - intros Hdrag. unfold mouseReleased. rewrite Hdrag. reflexivity.
  - intros Hdrag. split; [apply shotReady_iff|].
    unfold mouseReleased. rewrite Hdrag.
    destruct (shotReady s) eqn:Hready.
    + pose proof (proj1 (shotReady_iff s) Hready) as (_ & Hcue & Hpull).
      destruct (cueBall s) as [ball|] eqn:Eb; [|contradiction].
      destruct (shootCueBall_effect (startRecording s) ball Eb)
        as (ball' & E & _ & _ & _ & Hf & _).
      rewrite E. eexists. split; [reflexivity|].
      repeat (split; [reflexivity|]). split; [|discriminate].
      intros _. repeat (split; [reflexivity|]).
      exists ball, ball'. repeat split; try reflexivity.
      * exact Hf.
      * apply shotForce_nonzero. exact Hpull.
    + eexists. split; [reflexivity|].
      repeat (split; [reflexivity|]). split; [discriminate|].
      intros _. repeat split.
Qed.

Lemma aimedShot_ready : shotReady aimedShot = true.
Proof.
  apply shotReady_iff. cbn. repeat split; [discriminate|lra].
Qed.

Lemma release_gesture_witness :
  exists s', mouseReleased aimedShot = Some s' /\
             isShooting s' = true /\ canShoot s' = false /\
             isAiming (cue s') = false /\ pullBack (cue s') = 0.
Proof.
  destruct (release_gesture aimedShot) as [_ Hfree].
  destruct (Hfree eq_refl) as (_ & s' & E & Haim & Hpull & _ & _ & Hfire & _).
  destruct (Hfire aimedShot_ready) as (Hs & Hc & _).
  exists s'. repeat split; assumption.
Defined.

(** *** A release that ends a spin-control drag *)

Lemma setup_place :
  mousePressed 550 500 setup = Some (createCueBall 550 500 setup).
Proof.
  apply mousePressed_places.
  - reflexivity.
  - exact setup_colouredOnTable.
  - rewrite baulkY_val, cushionBottom_val. lra.
  - apply dist_le_iff; rewrite dRadius_val, ?tableX_val, ?baulkY_val;
      unfold tableLength; lra.
  - intros ball Hin. left. apply below_baulk_far.
    + apply setup_balls_above_baulk, Hin.
    + rewrite baulkY_val, ballDiameter_val. lra.
Qed.

Lemma press_to_aim :
  mousePressed 600 400 (createCueBall 550 500 setup)
  = Some (set_cue (mkCue (Num.atan2 (400 - 500) (600 - 550)) 0 true 600 400)
                  (createCueBall 550 500 setup)).
Proof.
  unfold mousePressed. rewrite spin_control_clear by (rewrite cushionBottom_val; lra).
  reflexivity.
Qed.

Lemma press_on_spin_control s :
  exists spin,
    mousePressed 1040 640 s = Some (set_spinControl spin s) /\
    isDragging spin = true.
Proof.
  unfold mousePressed.
  assert (H : isInsideSpinControl 1040 640 = true).
  { unfold isInsideSpinControl. apply leb_true.
    apply dist_le_iff; unfold uiRadius, uiX, uiY, width, height; lra. }
  rewrite H. eexists. split; [reflexivity|reflexivity].
Qed.

(** C8 as stated fails: a press that starts aiming, a drag, a second
    press on the spin control and then a release.  At the release the
    player is aiming, a cue ball exists and the pull-back is 80, yet no
    shot is fired and aiming and pull-back are left as they were. *)
Lemma release_ending_spin_drag :
  exists s s',
    run [MousePressed 550 500; MousePressed 600 400;
         MouseDragged 700 400 false; MousePressed 1040 640] setup = Some s /\
    isAiming (cue s) = true /\ cueBall s <> None /\ pullBack (cue s) = 80 /\
    handle MouseReleased s = Some s' /\
    isShooting s' = false /\ cueBall s' = cueBall s /\
    isAiming (cue s') = true /\ pullBack (cue s') = 80.
Proof.
  cbn [run handle]. rewrite setup_place, press_to_aim.
  set (s2 := mouseDragged 700 400 false _).
  destruct (press_on_spin_control s2) as (spin & E & Hdrag). rewrite E.
  assert (Hpull : pullBack (cue s2) = 80).
  { subst s2. unfold mouseDragged. cbn.
    replace ((700 - 600) * (700 - 600) + (400 - 400) * (400 - 400))
      with (100 * 100) by lra.
    rewrite sqrt_square by lra. unfold maxPullBack.
    rewrite Rmin_right by lra. lra. }
  assert (Haim : isAiming (cue s2) = true) by reflexivity.
  assert (Hcue : cueBall s2 <> None) by discriminate.
  eexists _, _. split; [reflexivity|].
  cbn [set_spinControl cue cueBall]. repeat (split; [assumption|]).
  unfold mouseReleased. cbn [set_spinControl spinControl]. rewrite Hdrag.
  split; [reflexivity|]. cbn [set_spinControl cue cueBall isShooting].
  repeat split; assumption.
Qed.

(** ** After the shot *)

Lemma mouseReleased_keeps_spin s s' :
  mouseReleased s = Some s' ->
  spinX (spinControl s') = spinX (spinControl s) /\
  spinY (spinControl s') = spinY (spinControl s) /\
  angle (cue s') = angle (cue s).
Proof.
  unfold mouseReleased. destruct (isDragging (spinControl s)).
  - intros E. injection E as <-. repeat split.
  - destruct (shotReady s).
    + unfold shootCueBall. cbn [startRecording set_replaySystem cueBall].
      destruct (cueBall s); [|discriminate]. cbn [option_map].
      intros E. injection E as <-. repeat split.
    + intros E. injection E as <-. repeat split.
Qed.

(** ** Settling *)

Lemma moving_false ball :
  magnitude (velocity ball) < threshold -> moving ball = false.
Proof. intros H. unfold moving. apply gtb_false. lra. Qed.

Lemma anyColouredMoving_slow cb :
  Forall (fun e => snd e <> None) cb ->
  (forall ball, In ball (liveColoured cb) -> magnitude (velocity ball) < threshold) ->
  anyColouredMoving cb = Some false.
Proof.
  unfold liveColoured.
  induction 1 as [|[c [ball|]] cb Hc _ IH]; intros Hslow;
    cbn [anyColouredMoving flat_map snd app] in *.
  - reflexivity.
  - rewrite moving_false by (apply Hslow; left; reflexivity).
    apply IH. intros b Hb. apply Hslow. right. exact Hb.
  - contradiction.
Qed.

(** One settling evaluation that finds every live ball slow ends the
    flight. *)
Lemma checkBallsMoving_settles s :
  isShooting s = true -> colouredOnTable s -> allSlow s ->
  checkBallsMoving s = Some (stopRecording (set_canShoot true (set_isShooting false s))).
Proof.
  intros Hshoot Hcol Hslow. unfold checkBallsMoving, allSlow, liveBalls in *.
  assert (Hcue : match cueBall s with Some ball => moving ball | None => false end = false).
  { destruct (cueBall s) as [ball|]; [|reflexivity].
    apply moving_false, Hslow. left. reflexivity. }
  assert (Hreds : existsb moving (redBalls s) = false).
  { apply not_true_is_false. intros H. apply existsb_exists in H.
    destruct H as (ball & Hin & Hm).
    rewrite moving_false in Hm; [discriminate|].
    apply Hslow. apply in_or_app. right. apply in_or_app. left. exact Hin. }
  rewrite Hcue, Hreds. cbn [orb].
  rewrite (anyColouredMoving_slow _ Hcol).
  - rewrite Hshoot. reflexivity.
  - intros ball Hin. apply Hslow. apply in_or_app. right. apply in_or_app. right. exact Hin.
Qed.

(** *** Only a fired shot sets [isShooting] *)

Lemma updateSpinFromMouse_isShooting x y s :
  isShooting (updateSpinFromMouse x y s) = isShooting s.
Proof. reflexivity. Qed.

Lemma mousePressed_isShooting x y s s' :
  mousePressed x y s = Some s' -> isShooting s' = isShooting s.
Proof.
  unfold mousePressed. destruct (isInsideSpinControl x y).
  { intros E; injection E as <-; reflexivity. }
  destruct (negb (cueBallPlaced s)).
  - destruct (isInDZone x y); [|intros E; injection E as <-; reflexivity].
    destruct (isOverlappingBall x y s) as [[|]|]; intros E;
      [injection E as <-; reflexivity|injection E as <-; reflexivity|discriminate].
  - destruct (cueBall s); [destruct (_ && _)|]; intros E; injection E as <-; reflexivity.
Qed.

Lemma mouseDragged_isShooting x y shift s :
  isShooting (mouseDragged x y shift s) = isShooting s.
Proof.
  unfold mouseDragged. destruct (isDragging _); [reflexivity|].
  destruct (_ && _); reflexivity.
Qed.

Lemma mouseReleased_isShooting s s' :
  negb (isDragging (spinControl s)) && shotReady s = false ->
  mouseReleased s = Some s' -> isShooting s' = isShooting s.
Proof.
  unfold mouseReleased. destruct (isDragging (spinControl s)); cbn [negb andb].
  - intros _ E. injection E as <-. reflexivity.
  - intros -> E. injection E as <-. reflexivity.
Qed.

Lemma resetAllBalls_isShooting rack s :
  isShooting (resetAllBalls rack s) = isShooting s.
Proof. unfold resetAllBalls. cbn. destruct (cueBall s); reflexivity. Qed.

Lemma toggleReplay_isShooting s : isShooting (toggleReplay s) = isShooting s.
Proof. unfold toggleReplay. destruct (_ && _); reflexivity. Qed.

Lemma keyPressed_isShooting key rack s :
  isShooting (keyPressed key rack s) = isShooting s.
Proof.
  unfold keyPressed.
  assert (H1 : forall s0, isShooting (keyTrajectory key s0) = isShooting s0)
    by (intros s0; unfold keyTrajectory; destruct (_ || _); reflexivity).
  assert (H2 : forall s0, isShooting (keySpin key s0) = isShooting s0)
    by (intros s0; unfold keySpin; destruct (_ || _); reflexivity).
  assert (H3 : forall s0, isShooting (keyReplay key s0) = isShooting s0)
    by (intros s0; unfold keyReplay; destruct (String.eqb _ _);
        [apply toggleReplay_isShooting|reflexivity]).
  assert (H4 : forall s0, isShooting (keyReplace key s0) = isShooting s0)
    by (intros s0; unfold keyReplace; destruct (_ || _); [destruct (_ && _)|];
        reflexivity).
  assert (H5 : isShooting (keyMode key rack s) = isShooting s)
    by (unfold keyMode;
        destruct (String.eqb key "1"); [rewrite resetAllBalls_isShooting; reflexivity|];
        destruct (String.eqb key "2"); [rewrite resetAllBalls_isShooting; reflexivity|];
        destruct (String.eqb key "3"); [rewrite resetAllBalls_isShooting; reflexivity|];
        reflexivity).
  rewrite H1, H2, H3, H4, H5. reflexivity.
Qed.

Lemma checkPocketCollisions_isShooting s :
  isShooting (checkPocketCollisions s) = isShooting s.
Proof.
  unfold checkPocketCollisions. cbn.
  destruct (cueBall s) as [ball|]; [destruct (potted ball)|]; reflexivity.
Qed.

Lemma checkBallsMoving_not_shooting s s' :
  isShooting s = false -> checkBallsMoving s = Some s' -> s' = s.
Proof.
  intros Hs. unfold checkBallsMoving. rewrite Hs. cbn [andb].
  match goal with
  | |- match ?moving with _ => _ end = _ -> _ => destruct moving
  end; [|discriminate].
  intros E. injection E as <-. reflexivity.
Qed.

Lemma calculateTrajectoryPreview_isShooting s s' :
  calculateTrajectoryPreview s = Some s' -> isShooting s' = isShooting s.
Proof.
  unfold calculateTrajectoryPreview. destruct (cueBall s).
  - destruct (trace _ _ _ _ _); [|discriminate]. intros E. injection E as <-. reflexivity.
  - intros E. injection E as <-. reflexivity.
Qed.

Lemma drawCue_isShooting x y s : isShooting (drawCue x y s) = isShooting s.
Proof.
  unfold drawCue. destruct (cueBall s); [|reflexivity].
  destruct (isShooting s) eqn:E; [exact E|].
  destruct (negb _); cbn [isShooting set_cue]; exact E.
Qed.

Lemma drawReplayFrame_isShooting s : isShooting (drawReplayFrame s) = isShooting s.
Proof.
  unfold drawReplayFrame. destruct (frames _); [reflexivity|].
  destruct (Num.geb _ _); reflexivity.
Qed.

Lemma draw_not_shooting x y phys s s' :
  isShooting s = false -> draw x y phys s = Some s' -> isShooting s' = false.
Proof.
  intros Hs. unfold draw.
  destruct (showReplay (replaySystem s)).
  { intros E. injection E as <-. rewrite drawReplayFrame_isShooting. exact Hs. }
  cbn [Engine_update isShooting set_colouredBalls set_redBalls set_cueBall].
  rewrite Hs. cbn [andb].
  set (s1 := checkPocketCollisions _).
  assert (H1 : isShooting s1 = false)
    by (subst s1; rewrite checkPocketCollisions_isShooting; exact Hs).
  destruct (checkBallsMoving s1) as [s2|] eqn:E2; [|discriminate].
  apply (checkBallsMoving_not_shooting s1 s2 H1) in E2. subst s2.
  destruct (cueBallPlaced s1 && canShoot s1 && isSome (cueBall s1)).
  - destruct (calculateTrajectoryPreview s1) as [s3|] eqn:E3; [|discriminate].
    apply calculateTrajectoryPreview_isShooting in E3.
    destruct (drawBalls s3); [|discriminate].
    intros E. injection E as <-.
    destruct (_ && _); rewrite ?drawCue_isShooting; congruence.
  - destruct (drawBalls s1); [|discriminate].
    intros E. injection E as <-.
    destruct (_ && _); rewrite ?drawCue_isShooting; congruence.
Qed.

Lemma handle_not_shooting e s s' :
  isShooting s = false -> firesShot e s = false ->
  handle e s = Some s' -> isShooting s' = false.
Proof.
  intros Hs Hf. destruct e as [x y|x y shift| |key rack|x y phys]; cbn [handle].
  - intros E. apply mousePressed_isShooting in E. congruence.
  - intros E. injection E as <-. rewrite mouseDragged_isShooting. exact Hs.
  - intros E. apply (mouseReleased_isShooting s s' Hf) in E. congruence.
  - intros E. injection E as <-. rewrite keyPressed_isShooting. exact Hs.
  - apply draw_not_shooting. exact Hs.
Qed.

Lemma run_not_shooting es s s' :
  isShooting s = false -> noShotFired es s -> run es s = Some s' ->
  isShooting s' = false.
Proof.
  revert s. induction es as [|e es IH]; intros s Hs Hno E; cbn [run noShotFired] in *.
  - injection E as <-. exact Hs.
  - destruct Hno as [Hf Hrest]. destruct (handle e s) as [s1|] eqn:E1; [|discriminate].
    apply (IH s1); [|exact Hrest|exact E].
    apply (handle_not_shooting e s s1 Hs Hf E1).
Qed.

(** A fired shot is what sets the flight flag. *)
Lemma handle_fires e s s' :
  firesShot e s = true -> handle e s = Some s' -> isShooting s' = true.
Proof.
  destruct e; cbn [firesShot handle]; try discriminate.
  rewrite andb_true_iff, negb_true_iff. intros [Hd Hr].
  unfold mouseReleased. rewrite Hd, Hr. unfold shootCueBall.
  cbn [startRecording set_replaySystem cueBall].
  destruct (cueBall s); [|discriminate]. cbn [option_map].
  intros E. injection E as <-. reflexivity.
Qed.

(** C7.  When a settling evaluation made while a shot is in flight finds
    every live ball's speed below the stopping threshold, it clears
    [isShooting] and sets [canShoot]; from then on, whatever events follow,
    [isShooting] stays clear as long as no release fires a new shot. *)
Theorem settling_ends_flight s :
  isShooting s = true -> colouredOnTable s -> allSlow s ->
  exists s1,
    checkBallsMoving s = Some s1 /\
    isShooting s1 = false /\ canShoot s1 = true /\
    forall es s2,
      noShotFired es s1 -> run es s1 = Some s2 -> isShooting s2 = false.
Proof.
  intros Hshoot Hcol Hslow.
  rewrite (checkBallsMoving_settles s Hshoot Hcol Hslow).
  eexists. split; [reflexivity|]. split; [reflexivity|]. split; [reflexivity|].
  intros es s2. apply run_not_shooting. reflexivity.
Qed.

Lemma inFlightAtRest_slow : allSlow inFlightAtRest.
Proof.
  assert (Hz : sqrt (0 * 0 + 0 * 0) < threshold).
  { replace (0 * 0 + 0 * 0) with 0 by lra. rewrite sqrt_0. unfold threshold. lra. }
  unfold allSlow, inFlightAtRest, liveBalls, liveColoured, setup, createColouredBalls,
    createRedBallsByMode, createRedTriangle, createCueBall.
  cbn [cueBall redBalls colouredBalls set_isShooting set_cueBallPlaced set_cueBall
         List.map flat_map fst snd app seq firstn Nat.add In].
  intros ball H.
  repeat (destruct H as [<-|H]; [exact Hz|]).
  contradiction.
Qed.

Lemma settling_ends_flight_witness :
  exists s1, checkBallsMoving inFlightAtRest = Some s1 /\
             isShooting s1 = false /\ canShoot s1 = true.
Proof.
  assert (Hcol : colouredOnTable inFlightAtRest)
    by (unfold colouredOnTable; cbn; repeat constructor; discriminate).
  destruct (settling_ends_flight inFlightAtRest eq_refl Hcol inFlightAtRest_slow)
    as (s1 & E & Hs & Hc & _).
  exists s1. repeat split; assumption.
Defined.

(** ** The coloured balls never leave the registry *)

Lemma createColouredBalls_present cb :
  Forall (fun e => snd e <> None) (createColouredBalls cb).
Proof.
  unfold createColouredBalls. apply Forall_forall. intros e Hin.
  apply in_map_iff in Hin. destruct Hin as (e0 & <- & _). discriminate.
Qed.

Lemma pocketColoured_present cb :
  Forall (fun e => snd e <> None) cb ->
  Forall (fun e => snd e <> None) (pocketColoured cb).
Proof.
  unfold pocketColoured. induction 1 as [|[c [ball|]] cb Hc _ IH]; cbn [List.map snd fst].
  - constructor.
  - constructor; [|exact IH]. destruct (potted ball); discriminate.
  - contradiction.
Qed.

Lemma Engine_update_present phys s :
  colouredOnTable s -> colouredOnTable (Engine_update phys s).
Proof.
  unfold colouredOnTable, Engine_update.
  cbn [colouredBalls set_colouredBalls set_redBalls set_cueBall].
  induction 1 as [|[c [ball|]] cb Hc _ IH]; cbn [List.map snd fst option_map].
  - constructor.
  - constructor; [discriminate|exact IH].
  - contradiction.
Qed.

Lemma mousePressed_coloured x y s s' :
  mousePressed x y s = Some s' -> colouredBalls s' = colouredBalls s.
Proof.
  unfold mousePressed. destruct (isInsideSpinControl x y).
  { intros E; injection E as <-; reflexivity. }
  destruct (negb (cueBallPlaced s)).
  - destruct (isInDZone x y); [|intros E; injection E as <-; reflexivity].
    destruct (isOverlappingBall x y s) as [[|]|]; intros E;
      [injection E as <-; reflexivity|injection E as <-; reflexivity|discriminate].
  - destruct (cueBall s); [destruct (_ && _)|]; intros E; injection E as <-; reflexivity.
Qed.

Lemma mouseDragged_coloured x y shift s :
  colouredBalls (mouseDragged x y shift s) = colouredBalls s.
Proof.
  unfold mouseDragged. destruct (isDragging _); [reflexivity|].
  destruct (_ && _); reflexivity.
Qed.

Lemma mouseReleased_coloured s s' :
  mouseReleased s = Some s' -> colouredBalls s' = colouredBalls s.
Proof.
  unfold mouseReleased. destruct (isDragging (spinControl s)).
  - intros E. injection E as <-. reflexivity.
  - destruct (shotReady s).
    + unfold shootCueBall. cbn [startRecording set_replaySystem cueBall].
      destruct (cueBall s); [|discriminate]. cbn [option_map].
      intros E. injection E as <-. reflexivity.
    + intros E. injection E as <-. reflexivity.
Qed.

Lemma keyPressed_present key rack s :
  colouredOnTable s -> colouredOnTable (keyPressed key rack s).
Proof.
  intros H. unfold keyPressed.
  assert (H5 : colouredOnTable (keyMode key rack s)).
  { unfold keyMode, resetAllBalls.
    destruct (String.eqb key "1"); [apply createColouredBalls_present|].
    destruct (String.eqb key "2"); [apply createColouredBalls_present|].
    destruct (String.eqb key "3"); [apply createColouredBalls_present|].
    exact H. }
  assert (H4 : forall s0, colouredBalls (keyReplace key s0) = colouredBalls s0)
    by (intros s0; unfold keyReplace; destruct (_ || _); [destruct (_ && _)|];
        reflexivity).
  assert (H3 : forall s0, colouredBalls (keyReplay key s0) = colouredBalls s0)
    by (intros s0; unfold keyReplay, toggleReplay; destruct (String.eqb _ _);
        [destruct (_ && _)|]; reflexivity).
  assert (H2 : forall s0, colouredBalls (keySpin key s0) = colouredBalls s0)
    by (intros s0; unfold keySpin; destruct (_ || _); reflexivity).
  assert (H1 : forall s0, colouredBalls (keyTrajectory key s0) = colouredBalls s0)
    by (intros s0; unfold keyTrajectory; destruct (_ || _); reflexivity).
  unfold colouredOnTable in *. rewrite H1, H2, H3, H4. exact H5.
Qed.

Lemma checkBallsMoving_coloured s s' :
  checkBallsMoving s = Some s' -> colouredBalls s' = colouredBalls s.
Proof.
  unfold checkBallsMoving.
  match goal with
  | |- match ?moving with _ => _ end = _ -> _ => destruct moving
  end; [|discriminate].
  destruct (_ && _); intros E; injection E as <-; reflexivity.
Qed.

Lemma calculateTrajectoryPreview_coloured s s' :
  calculateTrajectoryPreview s = Some s' -> colouredBalls s' = colouredBalls s.
Proof.
  unfold calculateTrajectoryPreview. destruct (cueBall s).
  - destruct (trace _ _ _ _ _); [|discriminate]. intros E. injection E as <-. reflexivity.
  - intros E. injection E as <-. reflexivity.
Qed.

Lemma drawCue_coloured x y s : colouredBalls (drawCue x y s) = colouredBalls s.
Proof.
  unfold drawCue. destruct (cueBall s); [|reflexivity].
  destruct (isShooting s); [reflexivity|]. destruct (negb _); reflexivity.
Qed.

Lemma draw_present x y phys s s' :
  colouredOnTable s -> draw x y phys s = Some s' -> colouredOnTable s'.
Proof.
  intros H. unfold draw.
  destruct (showReplay (replaySystem s)).
  { intros E. injection E as <-. unfold drawReplayFrame.
    destruct (frames _); [exact H|]. destruct (Num.geb _ _); exact H. }
  set (s0 := Engine_update phys s).
  assert (H0 : colouredOnTable s0) by (apply Engine_update_present; exact H).
  set (s0' := if isShooting s0 && recording (replaySystem s0)
              then recordReplayFrame s0 else s0).
  assert (H0' : colouredOnTable s0') by (subst s0'; destruct (_ && _); exact H0).
  set (s1 := checkPocketCollisions s0').
  assert (H1 : colouredOnTable s1).
  { subst s1. unfold colouredOnTable. rewrite checkPocketCollisions_coloured.
    apply pocketColoured_present. exact H0'. }
  destruct (checkBallsMoving s1) as [s2|] eqn:E2; [|discriminate].
  apply checkBallsMoving_coloured in E2.
  assert (H2 : colouredOnTable s2) by (unfold colouredOnTable; rewrite E2; exact H1).
  destruct (cueBallPlaced s2 && canShoot s2 && isSome (cueBall s2)).
  - destruct (calculateTrajectoryPreview s2) as [s3|] eqn:E3; [|discriminate].
    apply calculateTrajectoryPreview_coloured in E3.
    destruct (drawBalls s3); [|discriminate].
    intros E. injection E as <-. unfold colouredOnTable in *.
    assert (H3 : Forall (fun e => snd e <> None) (colouredBalls s3))
      by (rewrite E3; exact H2).
    destruct (cueBallPlaced s3 && canShoot s3); rewrite ?drawCue_coloured; exact H3.
  - destruct (drawBalls s2); [|discriminate].
    intros E. injection E as <-. unfold colouredOnTable in *.
    destruct (cueBallPlaced s2 && canShoot s2); rewrite ?drawCue_coloured; exact H2.
Qed.

Lemma handle_present e s s' :
  colouredOnTable s -> handle e s = Some s' -> colouredOnTable s'.
Proof.
  intros H. unfold colouredOnTable in *.
  destruct e as [x y|x y shift| |key rack|x y phys]; cbn [handle]; intros E.
  - rewrite (mousePressed_coloured x y s s' E). exact H.
  - injection E as <-. rewrite mouseDragged_coloured. exact H.
  - rewrite (mouseReleased_coloured s s' E). exact H.
  - injection E as <-. apply keyPressed_present. exact H.
  - exact (draw_present x y phys s s' H E).
Qed.

(** Every state a session reaches from [setup] has all six coloured
    balls in place. *)
Lemma run_present es s s' :
  colouredOnTable s -> run es s = Some s' -> colouredOnTable s'.
Proof.
  revert s. induction es as [|e es IH]; intros s H E; cbn [run] in E.
  - injection E as <-. exact H.
  - destruct (handle e s) as [s1|] eqn:E1; [|discriminate].
    apply (IH s1); [exact (handle_present e s s1 H E1)|exact E].
Qed.

(** *** The segments tested are never degenerate *)

Lemma ballTest_segment allBalls m tp hit :
  unitDir m -> ballTest allBalls m (advance m) tp = Some hit ->
  (currentX m, currentY m) <> (nextX (advance m), nextY (advance m)).
Proof.
  intros Hu E Heq. unfold ballTest in E.
  destruct (Nat.eqb (advBounces (advance m)) 0) eqn:Eb; [|discriminate].
  apply Nat.eqb_eq in Eb. rewrite advance_bounces in Eb.
  unfold crossingsX, crossingsY in Eb.
  destruct (crossesLeft (aheadX m)) eqn:EL; [cbn in Eb; lia|].
  destruct (crossesRight (aheadX m)) eqn:ER; [cbn in Eb; lia|].
  destruct (crossesTop (aheadY m)) eqn:ET; [cbn in Eb; lia|].
  destruct (crossesBottom (aheadY m)) eqn:EB; [cbn in Eb; lia|].
  injection Heq as Hx Hy.
  rewrite advance_nextX, EL, ER in Hx. rewrite advance_nextY, ET, EB in Hy.
  unfold aheadX in Hx. unfold aheadY in Hy. unfold unitDir, stepSize in *.
  set (dx := currentDirX m) in *. set (dy := currentDirY m) in *.
  set (c := curveAmount m) in *.
  destruct (Num.gtb (Rabs c) 0.01).
  - assert (H1 : dx * 5 - dy * c * 0.3 = 0) by lra.
    assert (H2 : dy * 5 + dx * c * 0.3 = 0) by lra.
    assert (H3 : (dx * 5 - dy * c * 0.3) * (dx * 5 - dy * c * 0.3)
                 + (dy * 5 + dx * c * 0.3) * (dy * 5 + dx * c * 0.3)
                 = (25 + 0.09 * (c * c)) * (dx * dx + dy * dy)) by lra.
    rewrite H1, H2, Hu in H3.
    pose proof (Rle_0_sqr c) as Hc. unfold Rsqr in Hc. lra.
  - assert (H1 : dx = 0) by lra. assert (H2 : dy = 0) by lra.
    rewrite H1, H2 in Hu. lra.
Qed.

(** * Further properties *)

(** ** The collision search returns the nearest contact *)

(** One step of the search loop. *)
Lemma search_step allBalls x1 y1 x2 y2 ball :
  checkTrajectoryBallCollision (allBalls ++ [ball]) x1 y1 x2 y2
  = match lineCircleCollision x1 y1 x2 y2
            (vecX (position (targetBody ball))) (vecY (position (targetBody ball)))
            ballDiameter with
    | Some collision =>
        if closer collision (checkTrajectoryBallCollision allBalls x1 y1 x2 y2)
        then Some (mkHit (targetBody ball) (targetBodyColor ball)
                         (colX collision) (colY collision) (colDist collision))
        else checkTrajectoryBallCollision allBalls x1 y1 x2 y2
    | None => checkTrajectoryBallCollision allBalls x1 y1 x2 y2
    end.
Proof. unfold checkTrajectoryBallCollision. rewrite fold_left_app. reflexivity. Qed.

Lemma search_none allBalls x1 y1 x2 y2 :
  checkTrajectoryBallCollision allBalls x1 y1 x2 y2 = None <->
  forall ball, In ball allBalls ->
    lineCircleCollision x1 y1 x2 y2
      (vecX (position (targetBody ball))) (vecY (position (targetBody ball)))
      ballDiameter = None.
Proof.
  induction allBalls as [|ball allBalls IH] using rev_ind.
  - split; [intros _ b []|reflexivity].
  - rewrite search_step. split.
    + intros E b Hin. apply in_app_or in Hin.
      destruct (lineCircleCollision _ _ _ _ (vecX (position (targetBody ball))) _ _)
        as [col|] eqn:Ec.
      * destruct (closer col _) eqn:Ecl; [discriminate|].
        rewrite E in Ecl. discriminate.
      * destruct Hin as [Hin|[<-|[]]]; [apply IH; assumption|exact Ec].
    + intros H. rewrite (H ball) by (apply in_or_app; right; left; reflexivity).
      apply IH. intros b Hin. apply H. apply in_or_app. left. exact Hin.
Qed.

Lemma search_nearest allBalls x1 y1 x2 y2 hit :
  checkTrajectoryBallCollision allBalls x1 y1 x2 y2 = Some hit ->
  forall ball collision,
    In ball allBalls ->
    lineCircleCollision x1 y1 x2 y2
      (vecX (position (targetBody ball))) (vecY (position (targetBody ball)))
      ballDiameter = Some collision ->
    hitDist hit <= colDist collision.
Proof.
  revert hit. induction allBalls as [|ball allBalls IH] using rev_ind; intros hit E.
  - discriminate.
  - rewrite search_step in E. intros b col Hin Hcol. apply in_app_or in Hin.
    destruct (lineCircleCollision _ _ _ _ (vecX (position (targetBody ball))) _ _)
      as [c|] eqn:Ec.
    + destruct (checkTrajectoryBallCollision allBalls x1 y1 x2 y2) as [h0|] eqn:E0.
      * cbn [closer] in E. destruct (Num.ltb (colDist c) (hitDist h0)) eqn:El.
        -- apply ltb_true in El. injection E as <-. cbn [hitDist].
           destruct Hin as [Hin|[<-|[]]].
           ++ pose proof (IH h0 eq_refl b col Hin Hcol). lra.
           ++ rewrite Ec in Hcol. injection Hcol as <-. lra.
        -- apply ltb_false in El. injection E as <-.
           destruct Hin as [Hin|[<-|[]]].
           ++ exact (IH h0 eq_refl b col Hin Hcol).
           ++ rewrite Ec in Hcol. injection Hcol as <-. exact El.
      * cbn [closer] in E. injection E as <-. cbn [hitDist].
        destruct Hin as [Hin|[<-|[]]].
        -- pose proof (proj1 (search_none allBalls x1 y1 x2 y2) E0 b Hin) as Hn.
           rewrite Hn in Hcol. discriminate.
        -- rewrite Ec in Hcol. injection Hcol as <-. lra.
    + destruct Hin as [Hin|[<-|[]]].
      * exact (IH hit E b col Hin Hcol).
      * rewrite Ec in Hcol. discriminate.
Qed.

(** X1.  The search over the balls reports no hit exactly when no ball's
    circle is met by the segment; a hit it reports is a contact with one of
    the balls and no ball is met nearer to the segment's start. *)
Theorem search_returns_nearest allBalls x1 y1 x2 y2 :
  (checkTrajectoryBallCollision allBalls x1 y1 x2 y2 = None <->
   forall ball, In ball allBalls ->
     lineCircleCollision x1 y1 x2 y2
       (vecX (position (targetBody ball))) (vecY (position (targetBody ball)))
       ballDiameter = None) /\
  (forall hit,
      checkTrajectoryBallCollision allBalls x1 y1 x2 y2 = Some hit ->
      (exists ball, In ball allBalls /\ contactWith x1 y1 x2 y2 ball hit) /\
      forall ball collision,
        In ball allBalls ->
        lineCircleCollision x1 y1 x2 y2
          (vecX (position (targetBody ball))) (vecY (position (targetBody ball)))
          ballDiameter = Some collision ->
        hitDist hit <= colDist collision).
Proof.
  split; [apply search_none|]. intros hit E. split.
  - apply checkTrajectoryBallCollision_contact. exact E.
  - apply search_nearest. exact E.
Qed.

(** ** The distance a collision reports *)

Lemma sqrt_coefA_scaled x1 y1 x2 y2 t :
  0 <= t ->
  sqrt ((t * (x2 - x1)) * (t * (x2 - x1)) + (t * (y2 - y1)) * (t * (y2 - y1)))
  = t * sqrt (coefA x1 y1 x2 y2).
Proof.
  intros Ht. apply sqrt_eq_sq.
  - apply Rmult_le_pos; [exact Ht|apply sqrt_pos].
  - pose proof (sqrt_def _ (coefA_nonneg x1 y1 x2 y2)) as Hs.
    transitivity (t * t * (sqrt (coefA x1 y1 x2 y2) * sqrt (coefA x1 y1 x2 y2)));
      [|ring].
    rewrite Hs. unfold coefA. ring.
Qed.

(** X2.  The [dist] a collision carries is the Euclidean distance from
    the segment's start to the point returned, and lies between 0 and the
    segment's length. *)
Theorem collision_dist_is_distance x1 y1 x2 y2 cx cy radius h :
  lineCircleCollision x1 y1 x2 y2 cx cy radius = Some h ->
  colDist h = Num.dist (colX h) (colY h) x1 y1 /\
  0 <= colDist h <= Num.dist x2 y2 x1 y1.
Proof.
  intros E. unfold lineCircleCollision in E.
  destruct (Rlt_dec _ 0); [discriminate|].
  destruct (Req_dec_T _ 0); [discriminate|].
  assert (Hgen : forall t, 0 <= t <= 1 ->
             h = mkCollision (x1 + t * (x2 - x1)) (y1 + t * (y2 - y1))
                             (t * sqrt (coefA x1 y1 x2 y2)) ->
             colDist h = Num.dist (colX h) (colY h) x1 y1 /\
             0 <= colDist h <= Num.dist x2 y2 x1 y1).
  { intros t [Ht0 Ht1] ->. cbn [colX colY colDist].
    assert (Hlen : Num.dist x2 y2 x1 y1 = sqrt (coefA x1 y1 x2 y2)) by reflexivity.
    pose proof (sqrt_pos (coefA x1 y1 x2 y2)) as Hs.
    rewrite Hlen. split.
    - unfold Num.dist, Num.pow2. rewrite <- (sqrt_coefA_scaled x1 y1 x2 y2 t Ht0).
      f_equal. ring.
    - split; [apply Rmult_le_pos; assumption|].
      rewrite <- (Rmult_1_l (sqrt (coefA x1 y1 x2 y2))) at 2.
      apply Rmult_le_compat_r; assumption. }
  destruct (inUnit (root1 _ _ _ _ _ _ _)) eqn:E1.
  - apply inUnit_true in E1. apply (Hgen _ E1). injection E as <-. reflexivity.
  - destruct (inUnit (root2 _ _ _ _ _ _ _)) eqn:E2; [|discriminate].
    apply inUnit_true in E2. apply (Hgen _ E2). injection E as <-. reflexivity.
Qed.

Lemma dist_le_iff_ge x1 y1 x2 y2 r :
  0 <= r ->
  (r <= Num.dist x1 y1 x2 y2 <->
   r * r <= (x1 - x2) * (x1 - x2) + (y1 - y2) * (y1 - y2)).
Proof.
  intros Hr. pose proof (dist_lt_iff x1 y1 x2 y2 r Hr) as H. split; intros H1.
  - apply Rnot_lt_le. intros Hlt. apply H in Hlt. lra.
  - apply Rnot_lt_le. intros Hlt. apply H in Hlt. lra.
Qed.

(** ** A segment that starts inside the circle *)

Lemma example_collision : exists h, lineCircleCollision 0 0 10 0 5 0 2 = Some h.
Proof.
  assert (Hs : sqrt (discriminant 0 0 10 0 5 0 2) = 40).
  { apply sqrt_eq_sq; [lra|]. unfold discriminant, coefA, coefB, coefC. lra. }
  destruct (lineCircleCollision_root1 0 0 10 0 5 0 2) as (h & E & _).
  - unfold coefA. lra.
  - unfold discriminant, coefA, coefB, coefC. lra.
  - unfold root1. rewrite Hs. unfold coefA, coefB. lra.
  - exists h. exact E.
Qed.

Lemma collision_dist_is_distance_witness :
  exists h, lineCircleCollision 0 0 10 0 5 0 2 = Some h /\
            colDist h = Num.dist (colX h) (colY h) 0 0.
Proof.
  destruct example_collision as [h E]. exists h. split; [exact E|].
  apply (collision_dist_is_distance 0 0 10 0 5 0 2 h E).
Defined.

Lemma start_inside_roots x1 y1 x2 y2 cx cy radius :
  0 < coefA x1 y1 x2 y2 -> coefC x1 y1 cx cy radius < 0 ->
  0 < discriminant x1 y1 x2 y2 cx cy radius /\
  root1 x1 y1 x2 y2 cx cy radius < 0 /\ 0 < root2 x1 y1 x2 y2 cx cy radius.
Proof.
  intros Ha Hc.
  set (a := coefA x1 y1 x2 y2) in *. set (b := coefB x1 y1 x2 y2 cx cy).
  set (c := coefC x1 y1 cx cy radius) in *.
  assert (Hac : 0 < - (4 * a * c)).
  { replace (- (4 * a * c)) with (4 * a * (- c)) by ring.
    apply Rmult_lt_0_compat; lra. }
  pose proof (Rle_0_sqr b) as Hb. unfold Rsqr in Hb.
  assert (HD : 0 < discriminant x1 y1 x2 y2 cx cy radius)
    by (unfold discriminant; fold a b c; lra).
  split; [exact HD|].
  set (s := sqrt (discriminant x1 y1 x2 y2 cx cy radius)).
  assert (Hs : 0 <= s) by apply sqrt_pos.
  assert (Hss : s * s = b * b - 4 * a * c)
    by (unfold s; rewrite sqrt_def by lra; reflexivity).
  assert (Hsb : b < s /\ - b < s).
  { split; apply Rnot_le_lt; intros Hle.
    - assert (s * s <= b * b) by (apply Rmult_le_compat; lra). lra.
    - assert (s * s <= (- b) * (- b)) by (apply Rmult_le_compat; lra). lra. }
  destruct Hsb as [Hsb1 Hsb2].
  assert (Hinv : 0 < / (2 * a)) by (apply Rinv_0_lt_compat; lra).
  unfold root1, root2. fold a b s. unfold Rdiv. split.
  - replace (- b - s) with (- (s + b)) by ring.
    rewrite Ropp_mult_distr_l_reverse. apply Ropp_lt_gt_0_contravar.
    apply Rmult_gt_0_compat; lra.
  - apply Rmult_lt_0_compat; lra.
Qed.

Lemma coefC_start x1 y1 cx cy radius :
  0 <= radius ->
  (coefC x1 y1 cx cy radius < 0 <-> Num.dist x1 y1 cx cy < radius).
Proof.
  intros Hr. rewrite (dist_lt_iff x1 y1 cx cy radius Hr). unfold coefC. lra.
Qed.

(** The quadratic at the segment's end. *)
Lemma quad_at_end x1 y1 x2 y2 cx cy radius :
  0 < coefA x1 y1 x2 y2 -> 0 <= discriminant x1 y1 x2 y2 cx cy radius ->
  (x2 - cx) * (x2 - cx) + (y2 - cy) * (y2 - cy) - radius * radius
  = coefA x1 y1 x2 y2 * (1 - root1 x1 y1 x2 y2 cx cy radius)
    * (1 - root2 x1 y1 x2 y2 cx cy radius).
Proof.
  intros Ha Hd.
  pose proof (sqDistAt_quadratic x1 y1 x2 y2 cx cy radius 1) as Hq.
  pose proof (sqrt_def _ Hd) as Hss. unfold discriminant in Hss at 3.
  rewrite (quad_factor _ _ _ _ Ha Hss) in Hq.
  fold (root1 x1 y1 x2 y2 cx cy radius) in Hq.
  fold (root2 x1 y1 x2 y2 cx cy radius) in Hq.
  rewrite <- Hq. unfold sqDistAt, Num.pow2. ring.
Qed.

(** X3.  When the segment starts strictly inside the circle, the first
    root is negative: the routine returns nothing if the end point is
    strictly inside too, and otherwise returns the point where the segment
    leaves the circle (the larger root). *)
Theorem collision_from_inside x1 y1 x2 y2 cx cy radius :
  (x1, y1) <> (x2, y2) -> 0 <= radius ->
  Num.dist x1 y1 cx cy < radius ->
  root1 x1 y1 x2 y2 cx cy radius < 0 /\
  (Num.dist x2 y2 cx cy < radius ->
   lineCircleCollision x1 y1 x2 y2 cx cy radius = None) /\
  (radius <= Num.dist x2 y2 cx cy ->
   exists h, lineCircleCollision x1 y1 x2 y2 cx cy radius = Some h /\
             hitAt x1 y1 x2 y2 (root2 x1 y1 x2 y2 cx cy radius) h /\
             Num.dist (colX h) (colY h) cx cy = radius).
Proof.
  intros Hne Hr Hin.
  pose proof (coefA_pos _ _ _ _ Hne) as Ha.
  apply (coefC_start x1 y1 cx cy radius Hr) in Hin.
  destruct (start_inside_roots x1 y1 x2 y2 cx cy radius Ha Hin) as (HD & H1 & H2).
  assert (Hd : 0 <= discriminant x1 y1 x2 y2 cx cy radius) by lra.
  pose proof (quad_at_end x1 y1 x2 y2 cx cy radius Ha Hd) as Hend.
  set (t1 := root1 x1 y1 x2 y2 cx cy radius) in *.
  set (t2 := root2 x1 y1 x2 y2 cx cy radius) in *.
  assert (Hpos : 0 < coefA x1 y1 x2 y2 * (1 - t1))
    by (apply Rmult_lt_0_compat; lra).
  split; [exact H1|]. split.
  - intros Hend_in. apply (dist_lt_iff x2 y2 cx cy radius Hr) in Hend_in.
    apply lineCircleCollision_no_root; fold t1 t2; [lra|].
    intros [_ Hle].
    assert (0 <= coefA x1 y1 x2 y2 * (1 - t1) * (1 - t2))
      by (apply Rmult_le_pos; lra).
    lra.
  - intros Hend_out. apply (dist_le_iff_ge x2 y2 cx cy radius Hr) in Hend_out.
    assert (Ht2 : t2 <= 1).
    { apply Rnot_lt_le. intros Hgt.
      assert (coefA x1 y1 x2 y2 * (1 - t1) * (1 - t2) < 0).
      { replace (coefA x1 y1 x2 y2 * (1 - t1) * (1 - t2))
          with (- (coefA x1 y1 x2 y2 * (1 - t1) * (t2 - 1))) by ring.
        apply Ropp_lt_gt_0_contravar. apply Rmult_gt_0_compat; lra. }
      lra. }
    destruct (lineCircleCollision_root2 x1 y1 x2 y2 cx cy radius Ha Hd)
      as (h & E & Hh); fold t1 t2; [lra|lra|].
    exists h. split; [exact E|]. split; [exact Hh|].
    unfold Num.dist. rewrite (hit_point_sqDist _ _ _ _ cx cy _ _ Hh).
    apply root_on_circle; auto.
Qed.

Lemma collision_from_inside_witness :
  exists h, lineCircleCollision 4 0 10 0 5 0 2 = Some h /\
            Num.dist (colX h) (colY h) 5 0 = 2.
Proof.
  assert (Hne : (4, 0) <> (10, 0)) by (intros E; inversion E; lra).
  assert (Hr : 0 <= 2) by lra.
  assert (Hin : Num.dist 4 0 5 0 < 2) by (apply dist_lt_iff; lra).
  destruct (collision_from_inside 4 0 10 0 5 0 2 Hne Hr Hin) as (_ & _ & Hout).
  destruct Hout as (h & E & _ & Hd).
  - apply dist_le_iff_ge; lra.
  - exists h. split; assumption.
Defined.

(** ** Shape of the forecast *)

Lemma pathOf_nth m k i :
  (i < k)%nat -> nth_error (pathOf m k) i = Some (pointOf (marchAfter i m)).
Proof.
  intros Hi. unfold pathOf.
  rewrite nth_error_map, nth_error_seq.
  destruct (Nat.ltb_spec i k); [reflexivity|lia].
Qed.

Lemma pathOf_nth_inv m k i p :
  nth_error (pathOf m k) i = Some p -> (i < k)%nat /\ p = pointOf (marchAfter i m).
Proof.
  intros E. assert (Hi : (i < k)%nat).
  { rewrite <- (pathOf_length m k). apply nth_error_Some. rewrite E. discriminate. }
  split; [exact Hi|]. rewrite (pathOf_nth m k i Hi) in E. congruence.
Qed.

Lemma marchStep_bounces m : (bounces m <= bounces (marchStep m))%nat.
Proof.
  unfold marchStep, commit. cbn [bounces]. rewrite advance_bounces. lia.
Qed.

Lemma marchAfter_bounces_mono m i j :
  (i <= j)%nat -> (bounces (marchAfter i m) <= bounces (marchAfter j m))%nat.
Proof.
  induction 1 as [|j _ IH]; [lia|].
  rewrite marchAfter_succ. pose proof (marchStep_bounces (marchAfter j m)). lia.
Qed.

(** A marched point is inside the rectangle the cushions leave to a
    ball's centre. *)
Lemma marchStep_inside m :
  innerLeft <= currentX (marchStep m) <= innerRight /\
  innerTop <= currentY (marchStep m) <= innerBottom.
Proof.
  unfold marchStep, commit. cbn [currentX currentY].
  rewrite advance_nextX, advance_nextY.
  destruct inner_bounds as [Hlr Htb].
  unfold crossesLeft, crossesRight, crossesTop, crossesBottom.
  destruct (Num.ltb (aheadX m) innerLeft) eqn:E1;
    [|destruct (Num.gtb (aheadX m) innerRight) eqn:E2];
    (destruct (Num.ltb (aheadY m) innerTop) eqn:E3;
     [|destruct (Num.gtb (aheadY m) innerBottom) eqn:E4]);
    rewrite ?ltb_false, ?gtb_false in *; lra.
Qed.

Lemma trace_first fuel allBalls sy m tp tp' :
  continues m = true -> trace fuel allBalls sy m tp = Some tp' ->
  exists k, points tp' = points tp ++ pathOf m (S k) /\
            forall i, (i <= k)%nat -> continues (marchAfter i m) = true.
Proof.
  intros Hc E. destruct (trace_points _ _ _ _ _ _ E) as (k & Hp & Hk).
  destruct k as [|k].
  - exfalso. destruct fuel as [|fuel]; [discriminate|].
    rewrite trace_S, Hc in E.
    destruct (ballTest _ _ _ _).
    + injection E as <-. cbn [recordHit pushPoint points] in Hp.
      unfold pathOf in Hp. cbn in Hp. rewrite app_nil_r in Hp.
      apply (f_equal (@List.length _)) in Hp. rewrite length_app in Hp. cbn in Hp. lia.
    + apply trace_points in E. destruct E as (k' & Hp' & _).
      rewrite Hp' in Hp. cbn [pushPoint points] in Hp.
      unfold pathOf at 2 in Hp. cbn in Hp. rewrite app_nil_r in Hp.
      apply (f_equal (@List.length _)) in Hp. rewrite !length_app in Hp.
      cbn in Hp. lia.
  - exists k. split; [exact Hp|]. intros i Hi. apply Hk. lia.
Qed.

Lemma startMarch_continues ball s : continues (startMarch ball s) = true.
Proof.
  unfold continues, startMarch. cbn [bounces totalDist].
  apply andb_true_intro. split; [reflexivity|].
  apply ltb_true. unfold maxDistance. lra.
Qed.

Lemma forecast_of_run_nonempty s ball :
  cueBall s = Some ball ->
  exists tp' k,
    calculateTrajectoryPreview s = Some (set_trajectoryPreview tp' s) /\
    points tp' = pathOf (startMarch ball s) (S k).
Proof.
  intros Hb. unfold calculateTrajectoryPreview. rewrite Hb.
  destruct (trace_terminates 160 (getAllBallsExceptCue s) (spinY (spinControl s))
              (startMarch ball s) (mkPreview (enabled (trajectoryPreview s)) [] None []))
    as [tp' Et].
  - unfold maxDistance, stepSize, startMarch; cbn [totalDist].
    replace (INR 160) with 160 by (rewrite INR_IZR_INZ; reflexivity). lra.
  - destruct (trace_first _ _ _ _ _ _ (startMarch_continues ball s) Et) as (k & Hp & _).
    exists tp', k. unfold traceFuel. rewrite Et. split; [reflexivity|exact Hp].
Qed.

(** X4.  With a cue ball on the table the forecast is never empty: its
    first point is the cue ball's position with bounce count 0, and bounce
    counts never decrease along the path. *)
Theorem forecast_starts_at_cue_ball s ball :
  cueBall s = Some ball ->
  exists s' rest,
    calculateTrajectoryPreview s = Some s' /\
    points (trajectoryPreview s')
    = mkPathPoint (vecX (position ball)) (vecY (position ball)) 0 :: rest /\
    forall i j p q,
      (i <= j)%nat ->
      nth_error (points (trajectoryPreview s')) i = Some p ->
      nth_error (points (trajectoryPreview s')) j = Some q ->
      (bounce p <= bounce q)%nat.
Proof.
  intros Hb. destruct (forecast_of_run_nonempty s ball Hb) as (tp' & k & E & Hp).
  exists (set_trajectoryPreview tp' s), (pathOf (marchStep (startMarch ball s)) k).
  cbn [set_trajectoryPreview trajectoryPreview].
  split; [exact E|]. split; [rewrite Hp, pathOf_S; reflexivity|].
  intros i j p q Hij Ei Ej. rewrite Hp in Ei, Ej.
  apply pathOf_nth_inv in Ei. apply pathOf_nth_inv in Ej.
  destruct Ei as [_ ->]. destruct Ej as [_ ->]. cbn [pointOf bounce].
  apply marchAfter_bounces_mono. exact Hij.
Qed.

Lemma forecast_starts_at_cue_ball_witness :
  exists s' rest,
    calculateTrajectoryPreview aimedShot = Some s' /\
    points (trajectoryPreview s') = mkPathPoint 550 500 0 :: rest.
Proof.
  destruct (forecast_starts_at_cue_ball aimedShot (circle 550 500 cueBallLabel) eq_refl)
    as (s' & rest & E & Hp & _).
  exists s', rest. split; assumption.
Defined.

(** X5.  Whatever the aim and the spin, every forecast point after the
    first lies in the rectangle inset from the cushions by one ball
    radius. *)
Theorem forecast_stays_on_table s s' i p :
  calculateTrajectoryPreview s = Some s' ->
  nth_error (points (trajectoryPreview s')) (S i) = Some p ->
  innerLeft <= pointX p <= innerRight /\ innerTop <= pointY p <= innerBottom.
Proof.
  intros E Hn. destruct (cueBall s) as [ball|] eqn:Hb.
  - destruct (forecast_of_run s ball Hb) as (tp' & k & E' & Hp & _).
    rewrite E' in E. injection E as <-.
    cbn [set_trajectoryPreview trajectoryPreview] in Hn. rewrite Hp in Hn.
    apply pathOf_nth_inv in Hn. destruct Hn as [_ ->].
    rewrite marchAfter_succ. cbn [pointOf pointX pointY]. apply marchStep_inside.
  - unfold calculateTrajectoryPreview in E. rewrite Hb in E. injection E as <-.
    cbn in Hn. discriminate.
Qed.

(** *** A run that does not hit on its first step *)

(** A horizontal first step from below the baulk line misses every ball
    on or above it. *)
Lemma horizontal_step_misses x y cx cy :
  cy <= baulkY -> baulkY + ballDiameter < y ->
  lineCircleCollision x y (x + 1 * 5) (y + 0 * 5) cx cy ballDiameter = None.
Proof.
  intros Hc Hy. apply lineCircleCollision_negative_discriminant.
  pose proof ballDiameter_pos as Hd.
  unfold discriminant, coefA, coefB, coefC.
  assert (Hgap : ballDiameter < y - cy) by lra.
  assert (Hsq : ballDiameter * ballDiameter < (y - cy) * (y - cy))
    by (apply Rmult_le_0_lt_compat; lra).
  replace (2 * ((x - cx) * (x + 1 * 5 - x) + (y - cy) * (y + 0 * 5 - y))
           * (2 * ((x - cx) * (x + 1 * 5 - x) + (y - cy) * (y + 0 * 5 - y)))
           - 4 * ((x + 1 * 5 - x) * (x + 1 * 5 - x) + (y + 0 * 5 - y) * (y + 0 * 5 - y))
             * ((x - cx) * (x - cx) + (y - cy) * (y - cy) - ballDiameter * ballDiameter))
    with (100 * (ballDiameter * ballDiameter - (y - cy) * (y - cy))) by ring.
  lra.
Qed.

(** The first step of a straight run along the x axis from (550, 500). *)
Lemma level_first_step s ball :
  position ball = mkVec 550 500 -> angle (cue s) = 0 -> spinX (spinControl s) = 0 ->
  let m := startMarch ball s in
  currentX m = 550 /\ currentY m = 500 /\
  nextX (advance m) = 550 + 1 * 5 /\ nextY (advance m) = 500 + 0 * 5 /\
  advBounces (advance m) = 0%nat.
Proof.
  intros Hpos Hang Hspin m.
  assert (Hcx : currentX m = 550) by (unfold m, startMarch; cbn; rewrite Hpos; reflexivity).
  assert (Hcy : currentY m = 500) by (unfold m, startMarch; cbn; rewrite Hpos; reflexivity).
  assert (Hdx : currentDirX m = 1) by (unfold m, startMarch; cbn; rewrite Hang; apply cos_0).
  assert (Hdy : currentDirY m = 0) by (unfold m, startMarch; cbn; rewrite Hang; apply sin_0).
  assert (Hcurve : curveAmount m = 0)
    by (unfold m, startMarch; cbn; rewrite Hspin; lra).
  assert (Hx : aheadX m = 550 + 1 * 5)
    by (rewrite (aheadX_straight m Hcurve), Hcx, Hdx; reflexivity).
  assert (Hy : aheadY m = 500 + 0 * 5)
    by (rewrite (aheadY_straight m Hcurve), Hcy, Hdy; reflexivity).
  assert (HcL : crossesLeft (aheadX m) = false).
  { rewrite Hx. apply ltb_false. unfold innerLeft.
    rewrite tableX_val, ballRadius_val. unfold cushionThickness. lra. }
  assert (HcR : crossesRight (aheadX m) = false).
  { rewrite Hx. apply gtb_false. unfold innerRight.
    rewrite tableX_val, ballRadius_val. unfold tableLength, cushionThickness. lra. }
  assert (HcT : crossesTop (aheadY m) = false).
  { rewrite Hy. apply ltb_false. unfold innerTop.
    rewrite tableY_val, ballRadius_val. unfold cushionThickness. lra. }
  assert (HcB : crossesBottom (aheadY m) = false).
  { rewrite Hy. apply gtb_false. unfold innerBottom.
    rewrite tableY_val, ballRadius_val. unfold tableWidth, tableLength, cushionThickness. lra. }
  repeat split; try assumption.
  - rewrite advance_nextX, HcL, HcR. exact Hx.
  - rewrite advance_nextY, HcT, HcB. exact Hy.
  - rewrite advance_bounces. unfold crossingsX, crossingsY.
    rewrite HcL, HcR, HcT, HcB. unfold m, startMarch. reflexivity.
Qed.

Lemma targets_are_object_balls s target :
  In target (getAllBallsExceptCue s) ->
  In (targetBody target) (redBalls s ++ liveColoured (colouredBalls s)).
Proof.
  unfold getAllBallsExceptCue, liveColoured. intros H. apply in_app_or in H.
  apply in_or_app. destruct H as [H|H].
  - left. apply in_map_iff in H. destruct H as (red & <- & Hin). exact Hin.
  - right. apply in_flat_map in H. destruct H as (e & He & Hin).
    apply in_flat_map. exists e. split; [exact He|].
    destruct (snd e); [|contradiction]. destruct Hin as [<-|[]]. left. reflexivity.
Qed.

Lemma aimedShot_first_step_misses :
  ballTest (getAllBallsExceptCue aimedShot)
           (startMarch (circle 550 500 cueBallLabel) aimedShot)
           (advance (startMarch (circle 550 500 cueBallLabel) aimedShot))
           (pushPoint (startMarch (circle 550 500 cueBallLabel) aimedShot)
                      (mkPreview (enabled (trajectoryPreview aimedShot)) [] None []))
  = None.
Proof.
  destruct (level_first_step aimedShot (circle 550 500 cueBallLabel)
              eq_refl eq_refl eq_refl) as (Hcx & Hcy & Hnx & Hny & Hb).
  unfold ballTest. rewrite Hb, Hcx, Hcy, Hnx, Hny.
  cbn [Nat.eqb pushPoint ghostBall isSome negb andb].
  apply search_none. intros target Hin. apply horizontal_step_misses.
  - apply targets_are_object_balls in Hin.
    apply setup_balls_above_baulk. unfold objectBalls.
    apply in_app_or in Hin. apply in_or_app. tauto.
  - rewrite baulkY_val, ballDiameter_val. lra.
Qed.

Lemma aimedShot_second_point :
  exists s' p,
    calculateTrajectoryPreview aimedShot = Some s' /\
    nth_error (points (trajectoryPreview s')) 1 = Some p.
Proof.
  set (ball := circle 550 500 cueBallLabel).
  set (m := startMarch ball aimedShot).
  set (tp0 := mkPreview (enabled (trajectoryPreview aimedShot)) [] None []).
  destruct (trace_terminates 160 (getAllBallsExceptCue aimedShot)
              (spinY (spinControl aimedShot)) m tp0) as [tp' Et].
  { unfold maxDistance, stepSize, m, startMarch; cbn [totalDist].
    replace (INR 160) with 160 by (rewrite INR_IZR_INZ; reflexivity). lra. }
  assert (E : calculateTrajectoryPreview aimedShot
              = Some (set_trajectoryPreview tp' aimedShot)).
  { unfold calculateTrajectoryPreview. change (cueBall aimedShot) with (Some ball).
    cbv iota beta. fold m tp0. unfold traceFuel. rewrite Et. reflexivity. }
  assert (Hc0 : continues m = true) by apply startMarch_continues.
  assert (Hmiss : ballTest (getAllBallsExceptCue aimedShot) m (advance m)
                           (pushPoint m tp0) = None)
    by apply aimedShot_first_step_misses.
  rewrite trace_S, Hc0, Hmiss in Et.
  assert (Hc : continues (marchStep m) = true).
  { unfold continues. apply andb_true_intro. split.
    - apply Nat.leb_le. unfold marchStep, commit. cbn [bounces].
      destruct (level_first_step aimedShot ball eq_refl eq_refl eq_refl)
        as (_ & _ & _ & _ & Hb).
      fold m in Hb. rewrite Hb. unfold maxBounces. lia.
    - apply ltb_true. unfold marchStep, commit, m, startMarch. cbn [totalDist].
      unfold stepSize, maxDistance. lra. }
  destruct (trace_first _ _ _ _ _ _ Hc Et) as (k & Hp & _).
  exists (set_trajectoryPreview tp' aimedShot), (pointOf (marchStep m)).
  split; [exact E|]. cbn [set_trajectoryPreview trajectoryPreview].
  rewrite Hp, pathOf_S. reflexivity.
Qed.

Lemma forecast_stays_on_table_witness :
  exists s' p,
    calculateTrajectoryPreview aimedShot = Some s' /\
    nth_error (points (trajectoryPreview s')) 1 = Some p /\
    innerLeft <= pointX p <= innerRight /\ innerTop <= pointY p <= innerBottom.
Proof.
  destruct aimedShot_second_point as (s' & p & E & Hn).
  exists s', p. split; [exact E|]. split; [exact Hn|].
  exact (forecast_stays_on_table aimedShot s' 0%nat p E Hn).
Defined.

(** ** The predicted contact *)

Lemma ballTest_bounces allBalls m a tp hit :
  ballTest allBalls m a tp = Some hit -> advBounces a = 0%nat.
Proof.
  unfold ballTest. destruct (Nat.eqb (advBounces a) 0) eqn:E; [|discriminate].
  intros _. apply Nat.eqb_eq. exact E.
Qed.

(** The iteration at which a run records its hit. *)
Lemma trace_ghost fuel allBalls sy m tp tp' g :
  trace fuel allBalls sy m tp = Some tp' ->
  ghostBall tp = None -> ghostBall tp' = Some g ->
  exists k hit,
    points tp' = points tp ++ pathOf m (S k) /\
    advBounces (advance (marchAfter k m)) = 0%nat /\
    checkTrajectoryBallCollision allBalls
      (currentX (marchAfter k m)) (currentY (marchAfter k m))
      (nextX (advance (marchAfter k m))) (nextY (advance (marchAfter k m)))
    = Some hit /\
    g = mkGhost (hitX hit) (hitY hit) (hitBall hit) (hitColor hit).
Proof.
  revert m tp tp'. induction fuel as [|fuel IH]; intros m tp tp' E Hn Hg;
    [discriminate|].
  rewrite trace_S in E. destruct (continues m).
  - destruct (ballTest _ _ _ _) as [hit|] eqn:Eb.
    + injection E as <-. cbn [recordHit ghostBall] in Hg. injection Hg as <-.
      exists 0%nat, hit. split; [reflexivity|]. split.
      * exact (ballTest_bounces _ _ _ _ _ Eb).
      * split; [exact (ballTest_search _ _ _ _ _ Eb)|reflexivity].
    + destruct (IH _ _ _ E Hn Hg) as (k & hit & Hp & Hb & Hs & Hgh).
      exists (S k), hit. rewrite marchAfter_S. split.
      * rewrite Hp, (pathOf_S m (S k)). cbn [pushPoint points].
        rewrite <- app_assoc. reflexivity.
      * repeat split; assumption.
  - injection E as <-. rewrite Hn in Hg. discriminate.
Qed.

Lemma advance_bounces_ge m : (bounces m <= advBounces (advance m))%nat.
Proof. rewrite advance_bounces. lia. Qed.

Lemma forecast_ghost s s' g :
  calculateTrajectoryPreview s = Some s' ->
  ghostBall (trajectoryPreview s') = Some g ->
  exists ball k hit,
    cueBall s = Some ball /\
    points (trajectoryPreview s') = pathOf (startMarch ball s) (S k) /\
    advBounces (advance (marchAfter k (startMarch ball s))) = 0%nat /\
    checkTrajectoryBallCollision (getAllBallsExceptCue s)
      (currentX (marchAfter k (startMarch ball s)))
      (currentY (marchAfter k (startMarch ball s)))
      (nextX (advance (marchAfter k (startMarch ball s))))
      (nextY (advance (marchAfter k (startMarch ball s))))
    = Some hit /\
    g = mkGhost (hitX hit) (hitY hit) (hitBall hit) (hitColor hit).
Proof.
  unfold calculateTrajectoryPreview. intros E Hg.
  destruct (cueBall s) as [ball|].
  - destruct (trace _ _ _ _ _) as [tp'|] eqn:Et; [|discriminate].
    injection E as <-. cbn [set_trajectoryPreview trajectoryPreview] in *.
    destruct (trace_ghost _ _ _ _ _ _ _ Et eq_refl Hg) as (k & hit & Hp & Hb & Hs & Hgh).
    exists ball, k, hit. repeat split; assumption.
  - injection E as <-. cbn in Hg. discriminate.
Qed.

(** X6.  A forecast records a ball contact only before the first cushion
    bounce: when it has a ghost ball, every path point has bounce count 0,
    and the ball struck is a red or a coloured ball of the registry. *)
Theorem contact_before_first_bounce s s' g :
  calculateTrajectoryPreview s = Some s' ->
  ghostBall (trajectoryPreview s') = Some g ->
  Forall (fun p => bounce p = 0%nat) (points (trajectoryPreview s')) /\
  In (targetBall g) (redBalls s ++ liveColoured (colouredBalls s)).
Proof.
  intros E Hg.
  destruct (forecast_ghost s s' g E Hg) as (ball & k & hit & _ & Hp & Hb & Hs & ->).
  split.
  - rewrite Hp. apply Forall_forall. intros p Hin.
    apply In_nth_error in Hin. destruct Hin as [i Hi].
    apply pathOf_nth_inv in Hi. destruct Hi as [Hik ->]. cbn [pointOf bounce].
    pose proof (marchAfter_bounces_mono (startMarch ball s) i k ltac:(lia)) as Hm.
    pose proof (advance_bounces_ge (marchAfter k (startMarch ball s))) as Ha.
    lia.
  - cbn [targetBall]. apply checkTrajectoryBallCollision_contact in Hs.
    destruct Hs as (target & Hin & col & _ & ->). cbn [hitBall].
    apply targets_are_object_balls. exact Hin.
Qed.

Lemma contact_before_first_bounce_witness :
  exists s' g,
    calculateTrajectoryPreview oneRedAhead = Some s' /\
    ghostBall (trajectoryPreview s') = Some g /\
    Forall (fun p => bounce p = 0%nat) (points (trajectoryPreview s')).
Proof.
  destruct oneRedAhead_hits as (s' & g & E & Hg).
  exists s', g. split; [exact E|]. split; [exact Hg|].
  apply (contact_before_first_bounce oneRedAhead s' g E Hg).
Defined.

(** *** Without side spin the contact lies on the aim line *)

Lemma straight_step m :
  unitDir m -> curveAmount m = 0 -> advBounces (advance m) = bounces m ->
  currentX (marchStep m) = currentX m + currentDirX m * stepSize /\
  currentY (marchStep m) = currentY m + currentDirY m * stepSize /\
  currentDirX (marchStep m) = currentDirX m /\
  currentDirY (marchStep m) = currentDirY m /\
  nextX (advance m) = currentX m + currentDirX m * stepSize /\
  nextY (advance m) = currentY m + currentDirY m * stepSize.
Proof.
  intros Hu Hc Hb. rewrite advance_bounces in Hb.
  unfold crossingsX, crossingsY in Hb.
  destruct (crossesLeft (aheadX m)) eqn:EL; [cbn in Hb; lia|].
  destruct (crossesRight (aheadX m)) eqn:ER; [cbn in Hb; lia|].
  destruct (crossesTop (aheadY m)) eqn:ET; [cbn in Hb; lia|].
  destruct (crossesBottom (aheadY m)) eqn:EB; [cbn in Hb; lia|].
  destruct (marchStep_dir m Hu) as (Hdx & Hdy & _).
  rewrite Hdx, Hdy, advance_dirX, advance_dirY, EL, ER, ET, EB. cbn [orb].
  assert (HX : currentX (marchStep m) = nextX (advance m)) by reflexivity.
  assert (HY : currentY (marchStep m) = nextY (advance m)) by reflexivity.
  rewrite HX, HY, advance_nextX, advance_nextY, EL, ER, ET, EB.
  rewrite (aheadX_straight m Hc), (aheadY_straight m Hc). repeat split.
Qed.

(** While no bounce has happened a straight march is on the ray from its
    start along its direction. *)
Lemma straight_march m k :
  unitDir m -> curveAmount m = 0 -> bounces (marchAfter k m) = bounces m ->
  currentX (marchAfter k m) = currentX m + INR k * stepSize * currentDirX m /\
  currentY (marchAfter k m) = currentY m + INR k * stepSize * currentDirY m /\
  currentDirX (marchAfter k m) = currentDirX m /\
  currentDirY (marchAfter k m) = currentDirY m.
Proof.
  intros Hu Hc. induction k as [|k IH]; intros Hb.
  - cbn. repeat split; lra.
  - pose proof (marchAfter_bounces_mono m 0 k ltac:(lia)) as H0.
    pose proof (marchAfter_bounces_mono m k (S k) ltac:(lia)) as H1.
    change (marchAfter 0 m) with m in H0.
    assert (Hbk : bounces (marchAfter k m) = bounces m) by lia.
    destruct (IH Hbk) as (Hx & Hy & Hdx & Hdy).
    rewrite marchAfter_succ in *.
    assert (Hadv : advBounces (advance (marchAfter k m)) = bounces (marchAfter k m)).
    { change (bounces (marchStep (marchAfter k m)))
        with (advBounces (advance (marchAfter k m))) in Hb. lia. }
    destruct (straight_step (marchAfter k m)
                (marchAfter_unit k m Hu) (marchAfter_curve_zero k m Hc) Hadv)
      as (Sx & Sy & Sdx & Sdy & _).
    rewrite Sx, Sy, Sdx, Sdy, Hx, Hy, Hdx, Hdy, S_INR. repeat split; ring.
Qed.

(** X7.  With no side spin the predicted contact point lies on the aim
    line: it is the cue ball's position moved by some distance [d >= 0]
    along [(cos angle, sin angle)]. *)
Theorem contact_on_aim_line s s' g ball :
  calculateTrajectoryPreview s = Some s' ->
  ghostBall (trajectoryPreview s') = Some g ->
  cueBall s = Some ball -> spinX (spinControl s) = 0 ->
  exists d, 0 <= d /\
    ghostX g = vecX (position ball) + d * cos (angle (cue s)) /\
    ghostY g = vecY (position ball) + d * sin (angle (cue s)).
Proof.
  intros E Hg Hball Hspin.
  destruct (forecast_ghost s s' g E Hg) as (ball' & k & hit & Hb' & _ & Hb & Hs & ->).
  rewrite Hball in Hb'. injection Hb' as <-.
  set (m := startMarch ball s) in *.
  assert (Hu : unitDir m) by apply startMarch_unit.
  assert (Hc : curveAmount m = 0)
    by (unfold m, startMarch; cbn [curveAmount]; rewrite Hspin; lra).
  pose proof (advance_bounces_ge (marchAfter k m)) as Hge.
  assert (Hbk : bounces (marchAfter k m) = bounces m)
    by (unfold m at 2, startMarch; cbn [bounces]; lia).
  destruct (straight_march m k Hu Hc Hbk) as (Hx & Hy & Hdx & Hdy).
  assert (Hadv : advBounces (advance (marchAfter k m)) = bounces (marchAfter k m))
    by (rewrite Hbk; unfold m, startMarch; cbn [bounces]; exact Hb).
  destruct (straight_step (marchAfter k m)
              (marchAfter_unit k m Hu) (marchAfter_curve_zero k m Hc) Hadv)
    as (_ & _ & _ & _ & Nx & Ny).
  apply checkTrajectoryBallCollision_contact in Hs.
  destruct Hs as (target & _ & col & Ecol & ->). cbn [ghostX ghostY hitX hitY].
  apply lineCircleCollision_on_circle in Ecol; [|left; exact ballDiameter_pos].
  destruct Ecol as (_ & t & [Ht0 Ht1] & Hcx & Hcy & _).
  rewrite Hcx, Hcy, Nx, Ny, Hx, Hy, Hdx, Hdy.
  change (currentX m) with (vecX (position ball)).
  change (currentY m) with (vecY (position ball)).
  change (currentDirX m) with (cos (angle (cue s))).
  change (currentDirY m) with (sin (angle (cue s))).
  exists (INR k * stepSize + t * stepSize). split.
  - pose proof (pos_INR k). unfold stepSize.
    apply Rplus_le_le_0_compat; apply Rmult_le_pos; lra.
  - split; ring.
Qed.

Lemma contact_on_aim_line_witness :
  exists s' g d,
    calculateTrajectoryPreview oneRedAhead = Some s' /\
    ghostBall (trajectoryPreview s') = Some g /\
    0 <= d /\ ghostX g = 550 + d * cos 0.
Proof.
  destruct oneRedAhead_hits as (s' & g & E & Hg).
  destruct (contact_on_aim_line oneRedAhead s' g (circle 550 500 cueBallLabel)
              E Hg eq_refl eq_refl) as (d & Hd & Hx & _).
  exists s', g, d. repeat split; assumption.
Defined.

(** ** What each handler can do to a state *)

Lemma run_invariant (P : State -> Prop) :
  (forall e s s', P s -> handle e s = Some s' -> P s') ->
  forall es s s', P s -> run es s = Some s' -> P s'.
Proof.
  intros Hstep es. induction es as [|e es IH]; intros s s' HP E; cbn [run] in E.
  - injection E as <-. exact HP.
  - destruct (handle e s) as [s1|] eqn:E1; [|discriminate].
    exact (IH s1 s' (Hstep e s s1 HP E1) E).
Qed.

Lemma mousePressed_cases x y s s' :
  mousePressed x y s = Some s' ->
  s' = updateSpinFromMouse x y
         (set_spinControl (mkSpin (spinX (spinControl s)) (spinY (spinControl s)) true) s)
  \/ s' = s
  \/ (cueBallPlaced s = false /\ s' = createCueBall x y s)
  \/ (exists ball, cueBall s = Some ball /\ cueBallPlaced s = true /\ canShoot s = true /\
        s' = set_cue (mkCue (Num.atan2 (y - vecY (position ball))
                                       (x - vecX (position ball))) 0 true x y) s).
Proof.
  unfold mousePressed. destruct (isInsideSpinControl x y).
  { intros E; injection E as <-. left. reflexivity. }
  destruct (cueBallPlaced s) eqn:Hp; cbn [negb].
  - destruct (cueBall s) as [ball|]; [|intros E; injection E as <-; auto].
    cbn [andb]. destruct (canShoot s) eqn:Hc; intros E; injection E as <-; [|auto].
    right. right. right. exists ball. repeat split.
  - destruct (isInDZone x y); [|intros E; injection E as <-; auto].
    destruct (isOverlappingBall x y s) as [[|]|]; intros E;
      [injection E as <-; auto|injection E as <-|discriminate].
    right. right. left. split; reflexivity.
Qed.

Lemma mouseDragged_cases x y shift s :
  mouseDragged x y shift s = updateSpinFromMouse x y s
  \/ mouseDragged x y shift s = s
  \/ (isAiming (cue s) = true /\
      exists p, 0 <= p <= maxPullBack /\
        mouseDragged x y shift s
        = set_cue (mkCue (angle (cue s)) p (isAiming (cue s))
                         (dragStartX (cue s)) (dragStartY (cue s))) s).
Proof.
  unfold mouseDragged. destruct (isDragging _); [auto|].
  destruct (isAiming (cue s)) eqn:Ha; [|auto].
  destruct (isSome (cueBall s)); [|auto]. cbn [andb].
  right. right. split; [reflexivity|]. eexists. split; [|reflexivity].
  pose proof (sqrt_pos ((x - dragStartX (cue s)) * (x - dragStartX (cue s))
                        + (y - dragStartY (cue s)) * (y - dragStartY (cue s)))) as Hs.
  unfold maxPullBack. split.
  - apply Rmin_glb; [lra|]. destruct shift; apply Rmult_le_pos; lra.
  - apply Rmin_l.
Qed.

Lemma mouseReleased_cases s s' :
  mouseReleased s = Some s' ->
  (isDragging (spinControl s) = true /\
   s' = set_spinControl (mkSpin (spinX (spinControl s)) (spinY (spinControl s)) false) s)
  \/ (isDragging (spinControl s) = false /\ shotReady s = false /\ s' = resetAim s)
  \/ (isDragging (spinControl s) = false /\ shotReady s = true /\
      exists ball,
        s' = resetAim (set_canShoot false (set_isShooting true
               (set_cueBall (Some ball) (startRecording s))))).
Proof.
  unfold mouseReleased. destruct (isDragging (spinControl s)).
  - intros E. injection E as <-. left. split; reflexivity.
  - destruct (shotReady s).
    + unfold shootCueBall. cbn [startRecording set_replaySystem cueBall].
      destruct (cueBall s); [|discriminate]. cbn [option_map].
      intros E. injection E as <-. right. right. repeat split. eexists. reflexivity.
    + intros E. injection E as <-. right. left. repeat split.
Qed.

Lemma checkBallsMoving_cases s s' :
  checkBallsMoving s = Some s' ->
  s' = s \/
  (isShooting s = true /\
   s' = stopRecording (set_canShoot true (set_isShooting false s))).
Proof.
  unfold checkBallsMoving.
  match goal with
  | |- match ?moving with _ => _ end = _ -> _ => destruct moving as [b|]
  end; [|discriminate].
  destruct (isShooting s); cbn [andb]; [|intros E; injection E as <-; auto].
  destruct (negb b); intros E; injection E as <-; auto.
Qed.

Lemma state_eta s :
  s = set_cue (cue s) (set_trajectoryPreview (trajectoryPreview s) s).
Proof. destruct s. reflexivity. Qed.

Lemma drawCue_cases x y s :
  exists c, drawCue x y s = set_cue c s /\
            pullBack c = pullBack (cue s) /\ isAiming c = isAiming (cue s).
Proof.
  unfold drawCue.
  assert (Hid : exists c, s = set_cue c s /\
                  pullBack c = pullBack (cue s) /\ isAiming c = isAiming (cue s)).
  { exists (cue s). split; [destruct s; reflexivity|split; reflexivity]. }
  destruct (cueBall s); [|exact Hid].
  destruct (isShooting s); [exact Hid|].
  destruct (negb _); [|exact Hid].
  eexists. split; [reflexivity|split; reflexivity].
Qed.

Lemma draw_cases x y phys s s' :
  draw x y phys s = Some s' ->
  (showReplay (replaySystem s) = true /\ s' = drawReplayFrame s) \/
  (showReplay (replaySystem s) = false /\
   exists s2 tp c,
     checkBallsMoving (beforeSettle phys s) = Some s2 /\
     s' = set_cue c (set_trajectoryPreview tp s2) /\
     pullBack c = pullBack (cue s2) /\ isAiming c = isAiming (cue s2)).
Proof.
  unfold draw. destruct (showReplay (replaySystem s)).
  { intros E. injection E as <-. left. split; reflexivity. }
  fold (beforeSettle phys s). intros E. right. split; [reflexivity|].
  destruct (checkBallsMoving (beforeSettle phys s)) as [s2|]; [|discriminate].
  exists s2.
  assert (Hgen : forall s3, (exists tp, s3 = set_trajectoryPreview tp s2) ->
             match drawBalls s3 with
             | None => None
             | Some _ =>
                 Some (if cueBallPlaced s3 && canShoot s3 then drawCue x y s3 else s3)
             end = Some s' ->
             exists tp c,
               s' = set_cue c (set_trajectoryPreview tp s2) /\
               pullBack c = pullBack (cue s2) /\ isAiming c = isAiming (cue s2)).
  { clear E. intros s3 [tp ->] E3.
    destruct (drawBalls (set_trajectoryPreview tp s2)); [|discriminate].
    injection E3 as <-. exists tp.
    destruct (_ && _).
    - destruct (drawCue_cases x y (set_trajectoryPreview tp s2)) as (c & -> & Hp & Ha).
      exists c. split; [reflexivity|]. split; [exact Hp|exact Ha].
    - exists (cue s2). split; [destruct s2; reflexivity|]. split; reflexivity. }
  destruct (cueBallPlaced s2 && canShoot s2 && isSome (cueBall s2)).
  - destruct (calculateTrajectoryPreview_total s2) as [tp E2]. rewrite E2 in E.
    apply Hgen in E; [|exists tp; reflexivity].
    destruct E as (tp' & c & H). exists tp', c. split; [reflexivity|exact H].
  - apply Hgen in E; [|exists (trajectoryPreview s2); destruct s2; reflexivity].
    destruct E as (tp' & c & H). exists tp', c. split; [reflexivity|exact H].
Qed.

(** ** Properties every session keeps *)

Lemma constrain_range n : -1 <= Num.constrain n (-1) 1 <= 1.
Proof.
  unfold Num.constrain. split.
  - apply Rmax_r.
  - apply Rmax_lub; [apply Rmin_r|lra].
Qed.

Lemma setup_sessionInv : sessionInv setup.
Proof.
  unfold sessionInv, flagsAgree, placedAgrees, spinInRange, pullBackInRange,
    replayBounded, colourKeys, setup, maxPullBack, maxFrames.
  cbn. repeat split; try lra; try lia.
Qed.

Ltac open_inv H :=
  unfold sessionInv, flagsAgree, placedAgrees, spinInRange, pullBackInRange,
    replayBounded, colourKeys in *;
  destruct H as ((Hf1 & Hf2) & Hpl & ((Hsx1 & Hsx2) & (Hsy1 & Hsy2))
                 & ((Hp1 & Hp2) & Hp3) & Hrb & Hck).

Ltac close_inv :=
  repeat split; try assumption; try reflexivity; try lra; try lia;
  try (intros; lra); try (intros; discriminate).

Lemma mousePressed_sessionInv x y s s' :
  sessionInv s -> mousePressed x y s = Some s' -> sessionInv s'.
Proof.
  intros H E. apply mousePressed_cases in E. open_inv H.
  destruct E as [-> | [-> | [[Hnp ->] | (ball & Hb & Hpb & Hc & ->)]]].
  - cbn. pose proof (constrain_range ((x - uiX) / uiRadius)).
    pose proof (constrain_range ((y - uiY) / uiRadius)). close_inv.
  - close_inv.
  - cbn. close_inv.
  - cbn. unfold maxPullBack in *. close_inv.
Qed.

Lemma mouseDragged_sessionInv x y shift s :
  sessionInv s -> sessionInv (mouseDragged x y shift s).
Proof.
  intros H. open_inv H.
  destruct (mouseDragged_cases x y shift s) as [-> | [-> | (Ha & p & Hp & ->)]].
  - cbn. pose proof (constrain_range ((x - uiX) / uiRadius)).
    pose proof (constrain_range ((y - uiY) / uiRadius)). close_inv.
  - close_inv.
  - cbn. rewrite Ha. close_inv.
Qed.

Lemma shotReady_cue s : shotReady s = true -> isSome (cueBall s) = true.
Proof.
  unfold shotReady. rewrite !andb_true_iff. tauto.
Qed.

Lemma mouseReleased_sessionInv s s' :
  sessionInv s -> mouseReleased s = Some s' -> sessionInv s'.
Proof.
  intros H E. apply mouseReleased_cases in E. open_inv H.
  destruct E as [[_ ->] | [(_ & _ & ->) | (_ & Hr & ball & ->)]].
  - cbn. close_inv.
  - cbn. unfold maxPullBack. close_inv.
  - apply shotReady_cue in Hr. cbn. unfold maxPullBack, maxFrames.
    rewrite Hpl, Hr. close_inv.
Qed.

Lemma createColouredBalls_keys cb :
  List.map fst (createColouredBalls cb) = List.map fst cb.
Proof.
  unfold createColouredBalls. rewrite map_map. apply map_ext. reflexivity.
Qed.

Lemma keyPressed_sessionInv key rack s :
  sessionInv s -> sessionInv (keyPressed key rack s).
Proof.
  intros H. unfold keyPressed.
  assert (H1 : sessionInv (keyMode key rack s)).
  { assert (Hreset : forall mode, sessionInv (resetAllBalls rack (set_currentMode mode s))).
    { intros mode. open_inv H. unfold resetAllBalls. cbn.
      rewrite createColouredBalls_keys. unfold maxPullBack.
      destruct (cueBall s) eqn:Ec; cbn; rewrite ?Ec; close_inv. }
    unfold keyMode.
    destruct (String.eqb key "1"); [apply Hreset|].
    destruct (String.eqb key "2"); [apply Hreset|].
    destruct (String.eqb key "3"); [apply Hreset|]. exact H. }
  assert (H2 : forall s0, sessionInv s0 -> sessionInv (keyReplace key s0)).
  { intros s0 H0. unfold keyReplace. destruct (_ || _); [|exact H0].
    destruct (_ && _); [|exact H0]. open_inv H0. cbn. unfold maxPullBack. close_inv. }
  assert (H3 : forall s0, sessionInv s0 -> sessionInv (keyReplay key s0)).
  { intros s0 H0. unfold keyReplay, toggleReplay. destruct (String.eqb _ _); [|exact H0].
    destruct (_ && _); [|exact H0]. open_inv H0. cbn. close_inv. }
  assert (H4 : forall s0, sessionInv s0 -> sessionInv (keySpin key s0)).
  { intros s0 H0. unfold keySpin. destruct (_ || _); [|exact H0].
    open_inv H0. cbn. close_inv. }
  assert (H5 : forall s0, sessionInv s0 -> sessionInv (keyTrajectory key s0)).
  { intros s0 H0. unfold keyTrajectory. destruct (_ || _); [|exact H0].
    open_inv H0. cbn. close_inv. }
  auto.
Qed.

Lemma pocketColoured_keys cb : List.map fst (pocketColoured cb) = List.map fst cb.
Proof.
  unfold pocketColoured. rewrite map_map. apply map_ext. intros [c [ball|]]; cbn;
    [destruct (potted ball)|]; reflexivity.
Qed.

Lemma recordReplayFrame_bounded s :
  replayBounded s -> replayBounded (recordReplayFrame s).
Proof.
  unfold replayBounded, recordReplayFrame. intros H.
  cbn [replaySystem set_replaySystem frames].
  rewrite length_app. cbn [List.length].
  destruct (Nat.leb_spec maxFrames (List.length (frames (replaySystem s)))) as [Hle|Hlt].
  - unfold maxFrames in *.
    destruct (frames (replaySystem s)); cbn [tl List.length] in *; lia.
  - lia.
Qed.

Lemma beforeSettle_sessionInv phys s :
  sessionInv s -> sessionInv (beforeSettle phys s).
Proof.
  intros H.
  assert (H0 : sessionInv (Engine_update phys s)).
  { open_inv H. unfold Engine_update. cbn. rewrite map_map. cbn [fst].
    destruct (cueBall s); cbn in *; close_inv. }
  set (s0 := Engine_update phys s) in *.
  assert (H1 : sessionInv (if isShooting s0 && recording (replaySystem s0)
                           then recordReplayFrame s0 else s0)).
  { destruct (_ && _); [|exact H0].
    pose proof (recordReplayFrame_bounded s0) as Hb.
    open_inv H0. specialize (Hb Hrb). unfold replayBounded in Hb.
    cbn [recordReplayFrame set_replaySystem canShoot isShooting replaySystem recording
           cueBallPlaced cueBall spinControl cue colouredBalls] in *.
    close_inv. }
  unfold beforeSettle. fold s0.
  set (s1 := if isShooting s0 && recording (replaySystem s0)
             then recordReplayFrame s0 else s0) in *.
  open_inv H1. unfold checkPocketCollisions. cbn.
  rewrite pocketColoured_keys.
  destruct (cueBall s1) as [ball|] eqn:Ec; [destruct (potted ball)|];
    cbn in *; rewrite ?Ec; close_inv.
Qed.

Lemma draw_sessionInv x y phys s s' :
  sessionInv s -> draw x y phys s = Some s' -> sessionInv s'.
Proof.
  intros H E. apply draw_cases in E.
  destruct E as [[_ ->] | (_ & s2 & tp & c & E2 & -> & Hpc & Hac)].
  - open_inv H. unfold drawReplayFrame.
    destruct (frames (replaySystem s)) eqn:Ef; [|destruct (Num.geb _ _)];
      cbn; rewrite <- ?Ef; close_inv.
  - pose proof (beforeSettle_sessionInv phys s H) as H1.
    apply checkBallsMoving_cases in E2.
    assert (H2 : sessionInv s2).
    { destruct E2 as [-> | [Hs ->]]; [exact H1|].
      open_inv H1. cbn. close_inv. }
    open_inv H2. cbn. rewrite Hpc, Hac. close_inv.
Qed.

Lemma handle_sessionInv e s s' :
  sessionInv s -> handle e s = Some s' -> sessionInv s'.
Proof.
  intros H. destruct e as [x y|x y shift| |key rack|x y phys]; cbn [handle]; intros E.
  - exact (mousePressed_sessionInv x y s s' H E).
  - injection E as <-. apply mouseDragged_sessionInv. exact H.
  - exact (mouseReleased_sessionInv s s' H E).
  - injection E as <-. apply keyPressed_sessionInv. exact H.
  - exact (draw_sessionInv x y phys s s' H E).
Qed.

Lemma run_sessionInv es s :
  run es setup = Some s -> sessionInv s.
Proof.
  apply (run_invariant sessionInv handle_sessionInv es setup s setup_sessionInv).
Qed.

(** *** A session that places the cue ball and locks the aim *)

Lemma opening_session :
  run [MousePressed 550 500; MousePressed 600 400] setup
  = Some (set_cue (mkCue (Num.atan2 (400 - 500) (600 - 550)) 0 true 600 400)
                  (createCueBall 550 500 setup)).
Proof.
  cbn [run handle]. rewrite setup_place, press_to_aim. reflexivity.
Qed.

(** X8.  In every state a session reaches from [setup], shooting is
    allowed exactly when no shot is in flight, and frames are being
    recorded exactly while one is. *)
Theorem session_flags es s :
  run es setup = Some s ->
  canShoot s = negb (isShooting s) /\ recording (replaySystem s) = isShooting s.
Proof.
  intros E. apply run_sessionInv in E. apply E.
Qed.

Lemma session_flags_witness :
  exists s, run [MousePressed 550 500; MousePressed 600 400] setup = Some s /\
            canShoot s = negb (isShooting s) /\
            recording (replaySystem s) = isShooting s.
Proof.
  eexists. split; [exact opening_session|].
  exact (session_flags _ _ opening_session).
Defined.

(** X9.  In every state a session reaches from [setup], the flag
    [cueBallPlaced] is set exactly when there is a cue ball. *)
Theorem session_placed es s :
  run es setup = Some s -> cueBallPlaced s = isSome (cueBall s).
Proof.
  intros E. apply run_sessionInv in E. apply E.
Qed.

Lemma session_placed_witness :
  exists s, run [MousePressed 550 500; MousePressed 600 400] setup = Some s /\
            cueBallPlaced s = isSome (cueBall s).
Proof.
  eexists. split; [exact opening_session|].
  exact (session_placed _ _ opening_session).
Defined.

(** X10.  In every state a session reaches from [setup], both components
    of the spin lie in [-1, 1]. *)
Theorem session_spin_range es s :
  run es setup = Some s ->
  -1 <= spinX (spinControl s) <= 1 /\ -1 <= spinY (spinControl s) <= 1.
Proof.
  intros E. apply run_sessionInv in E. apply E.
Qed.

Lemma session_spin_range_witness :
  exists s, run [MousePressed 550 500; MousePressed 600 400] setup = Some s /\
            -1 <= spinX (spinControl s) <= 1 /\ -1 <= spinY (spinControl s) <= 1.
Proof.
  eexists. split; [exact opening_session|].
  exact (session_spin_range _ _ opening_session).
Defined.

(** X11.  In every state a session reaches from [setup], the pull-back
    lies between 0 and [maxPullBack], and it is 0 whenever the player is
    not aiming. *)
Theorem session_pullBack_range es s :
  run es setup = Some s ->
  0 <= pullBack (cue s) <= maxPullBack /\
  (isAiming (cue s) = false -> pullBack (cue s) = 0).
Proof.
  intros E. apply run_sessionInv in E. apply E.
Qed.

Lemma session_pullBack_range_witness :
  exists s, run [MousePressed 550 500; MousePressed 600 400] setup = Some s /\
            0 <= pullBack (cue s) <= maxPullBack /\
            (isAiming (cue s) = false -> pullBack (cue s) = 0).
Proof.
  eexists. split; [exact opening_session|].
  exact (session_pullBack_range _ _ opening_session).
Defined.

(** X12.  In every state a session reaches from [setup], the replay
    buffer holds at most [maxFrames] frames. *)
Theorem session_replay_bounded es s :
  run es setup = Some s ->
  (List.length (frames (replaySystem s)) <= maxFrames)%nat.
Proof.
  intros E. apply run_sessionInv in E. apply E.
Qed.

Lemma session_replay_bounded_witness :
  exists s, run [MousePressed 550 500; MousePressed 600 400] setup = Some s /\
            (List.length (frames (replaySystem s)) <= maxFrames)%nat.
Proof.
  eexists. split; [exact opening_session|].
  exact (session_replay_bounded _ _ opening_session).
Defined.

(** ** Sessions never raise *)

Lemma anyColouredMoving_present cb :
  Forall (fun e => snd e <> None) cb -> exists b, anyColouredMoving cb = Some b.
Proof.
  induction 1 as [|[c [ball|]] cb Hc _ IH]; cbn [anyColouredMoving].
  - eauto.
  - destruct (moving ball); eauto.
  - cbn in Hc. contradiction.
Qed.

Lemma checkBallsMoving_present s :
  colouredOnTable s -> exists s', checkBallsMoving s = Some s'.
Proof.
  intros H. unfold checkBallsMoving.
  destruct (anyColouredMoving_present _ H) as [b ->].
  destruct (_ || _); destruct (_ && _); eauto.
Qed.

Lemma drawBalls_present s : colouredOnTable s -> drawBalls s = Some tt.
Proof.
  intros H. unfold drawBalls.
  replace (forallb (fun e => isSome (snd e)) (colouredBalls s)) with true; [reflexivity|].
  symmetry. apply forallb_forall. intros e Hin.
  unfold colouredOnTable in H. rewrite Forall_forall in H. specialize (H e Hin).
  destruct (snd e); [reflexivity|contradiction].
Qed.

Lemma handle_total e s :
  colouredOnTable s -> exists s', handle e s = Some s'.
Proof.
  intros H. destruct e as [x y|x y shift| |key rack|x y phys]; cbn [handle].
  - unfold mousePressed. rewrite (isOverlappingBall_present x y s H).
    destruct (isInsideSpinControl x y); [eauto|].
    destruct (negb (cueBallPlaced s)).
    + destruct (isInDZone x y); [|eauto]. destruct (existsb _ _); eauto.
    + destruct (cueBall s); [|eauto]. destruct (_ && _); eauto.
  - eauto.
  - unfold mouseReleased. destruct (isDragging _); [eauto|].
    destruct (shotReady s) eqn:Hr; [|eauto].
    apply shotReady_cue in Hr. unfold shootCueBall, startRecording.
    cbn [cueBall set_replaySystem].
    destruct (cueBall s); [cbn; eauto|discriminate].
  - eauto.
  - unfold draw. destruct (showReplay _); [eauto|].
    fold (beforeSettle phys s).
    assert (H1 : colouredOnTable (beforeSettle phys s)).
    { unfold beforeSettle, colouredOnTable, checkPocketCollisions.
      cbn [colouredBalls set_colouredBalls].
      apply pocketColoured_present.
      assert (Hc : forall s0, colouredBalls
                     (match cueBall s0 with
                      | Some ball => if potted ball
                                     then set_cueBallPlaced false (set_cueBall None s0)
                                     else s0
                      | None => s0 end) = colouredBalls s0).
      { intros s0. destruct (cueBall s0) as [b|]; [destruct (potted b)|]; reflexivity. }
      cbn [set_redBalls colouredBalls]. rewrite Hc.
      pose proof (Engine_update_present phys s H) as H0. unfold colouredOnTable in H0.
      destruct (_ && _); exact H0. }
    destruct (checkBallsMoving_present _ H1) as [s2 E2]. rewrite E2.
    assert (H2 : colouredOnTable s2).
    { unfold colouredOnTable. rewrite (checkBallsMoving_coloured _ _ E2). exact H1. }
    destruct (calculateTrajectoryPreview_total s2) as [tp ->].
    assert (H3 : drawBalls (set_trajectoryPreview tp s2) = Some tt)
      by (apply drawBalls_present; exact H2).
    destruct (_ && _ && _).
    + rewrite H3. eauto.
    + rewrite (drawBalls_present s2 H2). eauto.
Qed.

Lemma run_total es s :
  colouredOnTable s -> exists s', run es s = Some s'.
Proof.
  revert s. induction es as [|e es IH]; intros s H; cbn [run].
  - eauto.
  - destruct (handle_total e s H) as [s1 E1]. rewrite E1.
    apply IH. exact (handle_present e s s1 H E1).
Qed.

(** X13.  Every sequence of events is handled from [setup] without a
    TypeError: no handler ever reads a field of a missing ball. *)
Theorem session_never_raises es :
  exists s, run es setup = Some s.
Proof.
  exact (run_total es setup setup_colouredOnTable).
Qed.

(** ** The reds only leave the table *)

Lemma keyMode_other key rack s :
  isModeKey (KeyPressed key rack) = false -> keyMode key rack s = s.
Proof.
  cbn [isModeKey]. rewrite !orb_false_iff. intros ((H1 & H2) & H3).
  unfold keyMode. rewrite H1, H2, H3. reflexivity.
Qed.

Lemma keyPressed_reds key rack s :
  redBalls (keyPressed key rack s) = redBalls (keyMode key rack s).
Proof.
  unfold keyPressed, keyTrajectory, keySpin, keyReplay, keyReplace, toggleReplay, resetAim.
  set (s0 := keyMode key rack s).
  destruct (String.eqb key "t" || String.eqb key "T");
    destruct (String.eqb key "c" || String.eqb key "C");
    destruct (String.eqb key " ");
    destruct (String.eqb key "r" || String.eqb key "R");
    cbn [redBalls set_trajectoryPreview set_spinControl];
    repeat match goal with
           | |- context [if ?b then _ else _] => destruct b
           end; reflexivity.
Qed.

Lemma beforeSettle_reds phys s :
  redBalls (beforeSettle phys s)
  = filter (fun ball => negb (potted ball))
           (mapi (fun i => phys (RefRed i)) 0 (redBalls s)).
Proof.
  unfold beforeSettle, checkPocketCollisions.
  cbn [redBalls set_colouredBalls set_redBalls]. rewrite pocketReds_filter.
  f_equal.
  set (s0 := Engine_update phys s).
  assert (E0 : redBalls s0 = mapi (fun i => phys (RefRed i)) 0 (redBalls s)) by reflexivity.
  rewrite <- E0.
  set (s1 := if isShooting s0 && recording (replaySystem s0)
             then recordReplayFrame s0 else s0).
  assert (E1 : redBalls s1 = redBalls s0) by (unfold s1; destruct (_ && _); reflexivity).
  rewrite <- E1.
  destruct (cueBall s1) as [b|]; [destruct (potted b)|]; reflexivity.
Qed.

Lemma mapi_length {A B} (f : nat -> A -> B) k l :
  List.length (mapi f k l) = List.length l.
Proof.
  revert k. induction l as [|a l IH]; intros k; cbn [mapi List.length].
  - reflexivity.
  - rewrite IH. reflexivity.
Qed.

Lemma filter_length_le {A} (f : A -> bool) l :
  (List.length (filter f l) <= List.length l)%nat.
Proof.
  induction l as [|a l IH]; cbn [filter List.length]; [lia|].
  destruct (f a); cbn [List.length]; lia.
Qed.

Lemma handle_reds e s s' :
  isModeKey e = false -> handle e s = Some s' ->
  (List.length (redBalls s') <= List.length (redBalls s))%nat.
Proof.
  intros Hk.
  destruct e as [x y|x y shift| |key rack|x y phys]; cbn [handle]; intros E.
  - apply mousePressed_cases in E.
    destruct E as [-> | [-> | [[_ ->] | (ball & _ & _ & _ & ->)]]]; cbn; lia.
  - injection E as <-.
    destruct (mouseDragged_cases x y shift s) as [-> | [-> | (_ & p & _ & ->)]];
      cbn; lia.
  - apply mouseReleased_cases in E.
    destruct E as [[_ ->] | [(_ & _ & ->) | (_ & _ & ball & ->)]]; cbn; lia.
  - injection E as <-. rewrite keyPressed_reds, (keyMode_other key rack s Hk). lia.
  - apply draw_cases in E.
    destruct E as [[_ ->] | (_ & s2 & tp & c & E2 & -> & _ & _)].
    + unfold drawReplayFrame. destruct (frames _); [|destruct (Num.geb _ _)]; cbn; lia.
    + cbn [redBalls set_cue set_trajectoryPreview].
      assert (E3 : redBalls s2 = redBalls (beforeSettle phys s)).
      { apply checkBallsMoving_cases in E2. destruct E2 as [-> | [_ ->]]; reflexivity. }
      rewrite E3, beforeSettle_reds.
      etransitivity; [apply filter_length_le|]. rewrite mapi_length. lia.
Qed.

(** X14.  Over any run of events without a mode key ("1", "2", "3"), the
    number of reds on the table never grows. *)
Theorem reds_never_return es s s' :
  forallb (fun e => negb (isModeKey e)) es = true ->
  run es s = Some s' ->
  (List.length (redBalls s') <= List.length (redBalls s))%nat.
Proof.
  revert s. induction es as [|e es IH]; intros s Hk E; cbn [run forallb] in *.
  - injection E as <-. lia.
  - apply andb_true_iff in Hk. destruct Hk as [Hk Hrest].
    apply negb_true_iff in Hk.
    destruct (handle e s) as [s1|] eqn:E1; [|discriminate].
    pose proof (handle_reds e s s1 Hk E1). pose proof (IH s1 Hrest E). lia.
Qed.

Lemma reds_never_return_witness :
  exists s', run [MousePressed 550 500; MousePressed 600 400] setup = Some s' /\
             (List.length (redBalls s') <= List.length (redBalls setup))%nat.
Proof.
  eexists. split; [exact opening_session|].
  exact (reds_never_return [MousePressed 550 500; MousePressed 600 400] setup _
           eq_refl opening_session).
Defined.

(** ** When a shot settles *)

Lemma anyColouredMoving_existsb cb :
  Forall (fun e => snd e <> None) cb ->
  anyColouredMoving cb = Some (existsb moving (liveColoured cb)).
Proof.
  unfold liveColoured.
  induction 1 as [|[c [ball|]] cb Hc _ IH];
    cbn [anyColouredMoving flat_map snd app existsb].
  - reflexivity.
  - destruct (moving ball); [reflexivity|exact IH].
  - cbn in Hc. contradiction.
Qed.

Lemma checkBallsMoving_existsb s :
  colouredOnTable s ->
  checkBallsMoving s
  = Some (if isShooting s && negb (existsb moving (liveBalls s))
          then stopRecording (set_canShoot true (set_isShooting false s))
          else s).
Proof.
  intros H. unfold checkBallsMoving, liveBalls.
  rewrite (anyColouredMoving_existsb _ H), !existsb_app.
  destruct (cueBall s) as [ball|]; cbn [existsb];
    [destruct (moving ball)|]; cbn [orb];
    destruct (existsb moving (redBalls s)); cbn [orb];
    try destruct (existsb moving _); destruct (isShooting s); reflexivity.
Qed.

Lemma moving_iff ball : moving ball = true <-> threshold < magnitude (velocity ball).
Proof. unfold moving. apply gtb_true. Qed.

Lemma none_moving_iff l :
  existsb moving l = false <->
  forall ball, In ball l -> magnitude (velocity ball) <= threshold.
Proof.
  split.
  - intros H ball Hin. apply Rnot_lt_le. intros Hlt.
    apply moving_iff in Hlt.
    assert (Ht : existsb moving l = true) by (apply existsb_exists; eauto).
    congruence.
  - intros H. destruct (existsb moving l) eqn:E; [|reflexivity].
    apply existsb_exists in E. destruct E as (ball & Hin & Hm).
    apply moving_iff in Hm. specialize (H ball Hin). lra.
Qed.

(** X15.  While a shot is in flight the settle check ends it exactly when
    no live ball is faster than the threshold (a ball at the threshold
    counts as stopped); otherwise it leaves the state as it is. *)
Theorem settle_exactly_when_slow s :
  isShooting s = true -> colouredOnTable s ->
  exists s', checkBallsMoving s = Some s' /\
    (isShooting s' = false <->
     forall ball, In ball (liveBalls s) -> magnitude (velocity ball) <= threshold) /\
    (isShooting s' = true -> s' = s).
Proof.
  intros Hs H. rewrite (checkBallsMoving_existsb s H), Hs. cbn [andb].
  destruct (existsb moving (liveBalls s)) eqn:E; cbn [negb]; eexists; split;
    try reflexivity.
  - split; [|reflexivity]. split.
    + intros Hf. congruence.
    + intros Hall. apply none_moving_iff in Hall. congruence.
  - split; [|cbn; discriminate]. split.
    + intros _. apply none_moving_iff. exact E.
    + reflexivity.
Qed.

Lemma settle_exactly_when_slow_witness :
  exists s', checkBallsMoving inFlightAtRest = Some s' /\
    (isShooting s' = false <->
     forall ball, In ball (liveBalls inFlightAtRest) ->
                  magnitude (velocity ball) <= threshold).
Proof.
  assert (Hcol : colouredOnTable inFlightAtRest)
    by (unfold colouredOnTable; cbn; repeat constructor; discriminate).
  destruct (settle_exactly_when_slow inFlightAtRest eq_refl Hcol) as (s' & E & H & _).
  exists s'. split; assumption.
Defined.

(** ** A second capture pass changes nothing *)

Lemma spot_not_potted c ball : potted (respot c ball) = false.
Proof.
  unfold potted, findPocket, pocketPositions, respot.
  cbn [find position vecX vecY setVelocity setPosition].
  destruct c; unfold spotPositions; cbn [vecX vecY];
    repeat match goal with
           | |- context [Num.ltb (Num.dist ?a ?b ?c ?d) pocketRadius] =>
               replace (Num.ltb (Num.dist a b c d) pocketRadius) with false
                 by (symmetry; apply dist_ltb_false;
                     [ rewrite pocketRadius_val; lra
                     | rewrite ?pocketRadius_val, ?pocketSize_val, ?dRadius_val,
                         ?tableX_val, ?tableY_val;
                       unfold playAreaWidth, cushionThickness, tableWidth, tableLength;
                       lra ])
           end; reflexivity.
Qed.

Lemma pocketColoured_idem cb : pocketColoured (pocketColoured cb) = pocketColoured cb.
Proof.
  unfold pocketColoured. rewrite map_map. apply map_ext.
  intros [c [ball|]]; cbn [fst snd]; [|reflexivity].
  destruct (potted ball) eqn:E; cbn [fst snd].
  - rewrite spot_not_potted. reflexivity.
  - rewrite E. reflexivity.
Qed.

Lemma filter_idem {A} (f : A -> bool) l : filter f (filter f l) = filter f l.
Proof.
  induction l as [|a l IH]; cbn [filter]; [reflexivity|].
  destruct (f a) eqn:E; cbn [filter]; rewrite ?E, IH; reflexivity.
Qed.

(** X16.  The capture pass is idempotent: run on its own result it
    removes and respots nothing further, because no spot is within the
    capture radius of a pocket. *)
Theorem capture_pass_idempotent s :
  checkPocketCollisions (checkPocketCollisions s) = checkPocketCollisions s.
Proof.
  unfold checkPocketCollisions.
  cbn [cueBall redBalls colouredBalls set_colouredBalls set_redBalls].
  destruct (cueBall s) as [ball|] eqn:Ec.
  - destruct (potted ball) eqn:Ep.
    + cbn. rewrite !pocketReds_filter, filter_idem, pocketColoured_idem. reflexivity.
    + cbn. rewrite Ec, Ep. cbn.
      rewrite !pocketReds_filter, filter_idem, pocketColoured_idem. reflexivity.
  - cbn. rewrite Ec. cbn.
    rewrite !pocketReds_filter, filter_idem, pocketColoured_idem. reflexivity.
Qed.

(** ** Re-racking *)

Lemma createColouredBalls_keys_only cb cb' :
  List.map fst cb = List.map fst cb' ->
  createColouredBalls cb = createColouredBalls cb'.
Proof.
  unfold createColouredBalls. revert cb'.
  induction cb as [|e cb IH]; intros [|e' cb'] H; cbn [List.map] in *;
    try discriminate; [reflexivity|].
  injection H as H1 H2. rewrite H1, (IH cb' H2). reflexivity.
Qed.

(** X17.  Key "1" pressed at any point of a session restores the opening
    rack: the fifteen reds in the triangle, the six colours on their
    spots, no cue ball, and the cue at rest.  The flags of a shot in flight
    are left as they are. *)
Theorem key_1_restores_opening_rack es s rack :
  run es setup = Some s ->
  let s' := keyPressed "1" rack s in
  cueBall s' = None /\ cueBallPlaced s' = false /\
  redBalls s' = redBalls setup /\ colouredBalls s' = colouredBalls setup /\
  pullBack (cue s') = 0 /\ isAiming (cue s') = false /\
  isShooting s' = isShooting s /\ canShoot s' = canShoot s.
Proof.
  intros E. apply run_sessionInv in E.
  destruct E as (_ & _ & _ & _ & _ & Hk). unfold colourKeys in Hk.
  cbv zeta.
  assert (Ek : keyPressed "1" rack s = resetAllBalls rack (set_currentMode 1 s))
    by reflexivity.
  rewrite Ek.
  assert (Ecb : createColouredBalls (colouredBalls s) = colouredBalls setup).
  { apply createColouredBalls_keys_only. rewrite Hk. reflexivity. }
  unfold resetAllBalls.
  destruct (cueBall s) eqn:Ec;
    cbn [cueBall redBalls colouredBalls cue cueBallPlaced isShooting canShoot currentMode
         set_redBalls set_colouredBalls set_cue set_cueBallPlaced set_currentMode
         set_cueBall pullBack isAiming];
    rewrite ?Ec;
    cbn [cueBall redBalls colouredBalls cue cueBallPlaced isShooting canShoot currentMode
         set_redBalls set_colouredBalls set_cue set_cueBallPlaced set_currentMode
         set_cueBall pullBack isAiming];
    rewrite ?Ec, Ecb; repeat split; reflexivity.
Qed.

Lemma key_1_restores_opening_rack_witness :
  let s' := keyPressed "1" []
              (set_cue (mkCue (Num.atan2 (400 - 500) (600 - 550)) 0 true 600 400)
                       (createCueBall 550 500 setup)) in
  cueBall s' = None /\ redBalls s' = redBalls setup /\
  colouredBalls s' = colouredBalls setup.
Proof.
  destruct (key_1_restores_opening_rack _ _ [] opening_session)
    as (H1 & _ & H2 & H3 & _).
  cbv zeta. repeat split; assumption.
Defined.

(** ** The aim points at the pointer *)

Lemma atan2_scale k y x : 0 < k -> Num.atan2 (k * y) (k * x) = Num.atan2 y x.
Proof.
  intros Hk. unfold Num.atan2.
  assert (Hq : x <> 0 -> k * y / (k * x) = y / x) by (intros Hx; field; lra).
  assert (Hx1 : 0 < k * x <-> 0 < x) by (split; intros; nra).
  assert (Hx2 : k * x < 0 <-> x < 0) by (split; intros; nra).
  assert (Hy1 : 0 <= k * y <-> 0 <= y) by (split; intros; nra).
  assert (Hy2 : 0 < k * y <-> 0 < y) by (split; intros; nra).
  assert (Hy3 : k * y < 0 <-> y < 0) by (split; intros; nra).
  destruct (Rlt_dec 0 (k * x)), (Rlt_dec 0 x); try tauto.
  - rewrite Hq by lra. reflexivity.
  - destruct (Rlt_dec (k * x) 0), (Rlt_dec x 0); try tauto.
    + rewrite Hq by lra. destruct (Rle_dec 0 (k * y)), (Rle_dec 0 y); tauto.
    + destruct (Rlt_dec 0 (k * y)), (Rlt_dec 0 y); try tauto.
      destruct (Rlt_dec (k * y) 0), (Rlt_dec y 0); tauto.
Qed.

Lemma atan2_points dx dy :
  0 < dx * dx + dy * dy ->
  cos (Num.atan2 dy dx) * sqrt (dx * dx + dy * dy) = dx /\
  sin (Num.atan2 dy dx) * sqrt (dx * dx + dy * dy) = dy.
Proof.
  intros Hpos. set (d := sqrt (dx * dx + dy * dy)).
  assert (Hd : 0 < d) by (apply sqrt_lt_R0; exact Hpos).
  assert (Hdd : d * d = dx * dx + dy * dy) by (apply sqrt_sqrt; lra).
  assert (Hu : dx / d * (dx / d) + dy / d * (dy / d) = 1).
  { replace (dx / d * (dx / d) + dy / d * (dy / d))
      with ((dx * dx + dy * dy) / (d * d)) by (field; lra).
    rewrite Hdd. field. lra. }
  destruct (atan2_unit _ _ Hu) as [Hc Hs].
  replace (Num.atan2 dy dx) with (Num.atan2 (dy / d) (dx / d)).
  - rewrite Hc, Hs. split; field; lra.
  - rewrite <- (atan2_scale d (dy / d) (dx / d) Hd). f_equal; field; lra.
Qed.

(** X18.  A press away from the spin control, with the cue ball placed
    and shooting allowed, starts the aim with no pull-back and locks the
    angle on the pointer: the unit vector of the angle, scaled by the
    distance from the ball to the pointer, is the offset of the pointer
    from the ball. *)
Theorem press_locks_aim_on_pointer s ball x y :
  cueBall s = Some ball -> cueBallPlaced s = true -> canShoot s = true ->
  isInsideSpinControl x y = false ->
  0 < distTo x y ball ->
  exists s', mousePressed x y s = Some s' /\
    isAiming (cue s') = true /\ pullBack (cue s') = 0 /\
    cos (angle (cue s')) * distTo x y ball = x - vecX (position ball) /\
    sin (angle (cue s')) * distTo x y ball = y - vecY (position ball).
Proof.
  intros Hb Hp Hc Hsc Hd. unfold mousePressed. rewrite Hsc, Hp, Hb, Hc. cbn [negb andb].
  eexists. split; [reflexivity|]. cbn [cue set_cue isAiming pullBack angle].
  split; [reflexivity|]. split; [reflexivity|].
  unfold distTo, Num.dist, Num.pow2 in *.
  apply atan2_points.
  destruct (Rle_lt_or_eq_dec 0 _ (dist_sq x y (vecX (position ball)) (vecY (position ball))))
    as [Hlt|Heq]; [exact Hlt|].
  rewrite <- Heq, sqrt_0 in Hd. lra.
Qed.

Lemma press_locks_aim_on_pointer_witness :
  exists s', mousePressed 600 400 (createCueBall 550 500 setup) = Some s' /\
    isAiming (cue s') = true /\ pullBack (cue s') = 0 /\
    cos (angle (cue s')) * Num.dist 600 400 550 500 = 600 - 550 /\
    sin (angle (cue s')) * Num.dist 600 400 550 500 = 400 - 500.
Proof.
  apply (press_locks_aim_on_pointer (createCueBall 550 500 setup)
           (circle 550 500 cueBallLabel) 600 400 eq_refl eq_refl eq_refl).
  - apply spin_control_clear. rewrite cushionBottom_val. lra.
  - apply dist_gt_iff; cbn; lra.
Defined.

(** ** The force of a shot *)

(** X19.  The force of a shot has magnitude
    [pullBack / 240 * sqrt (1 + (0.08 * spinX)^2)]: the pull-back mapped
    from [0, 120] to [0, 0.5], lengthened by the sideways push of the
    side spin; without side spin the force lies along the aim. *)
Theorem shot_force_magnitude s :
  0 <= pullBack (cue s) ->
  magnitude (shotForce s)
  = pullBack (cue s) / 240 * sqrt (1 + (spinX (spinControl s) * 0.08)²) /\
  (spinX (spinControl s) = 0 ->
   shotForce s = mkVec (pullBack (cue s) / 240 * cos (angle (cue s)))
                       (pullBack (cue s) / 240 * sin (angle (cue s)))).
Proof.
  intros Hp. unfold shotForce, magnitude. cbn [vecX vecY].
  set (a := angle (cue s)). set (k := spinX (spinControl s) * 0.08).
  assert (Hpow : Num.map (pullBack (cue s)) 0 maxPullBack 0 0.5 = pullBack (cue s) / 240)
    by (unfold Num.map, maxPullBack; lra).
  rewrite Hpow. set (power := pullBack (cue s) / 240).
  assert (Hpower : 0 <= power) by (unfold power; lra).
  split.
  - replace ((cos a * power + - sin a * (k * power)) * (cos a * power + - sin a * (k * power))
             + (sin a * power + cos a * (k * power)) * (sin a * power + cos a * (k * power)))
      with (power * power * (1 + k²) * (Rsqr (sin a) + Rsqr (cos a)))
      by (unfold Rsqr; ring).
    rewrite sin2_cos2, Rmult_1_r.
    rewrite sqrt_mult_alt by (apply Rmult_le_pos; lra).
    rewrite sqrt_square by exact Hpower. reflexivity.
  - intros Hz. unfold k. rewrite Hz. f_equal; ring.
Qed.

Lemma shot_force_magnitude_witness :
  magnitude (shotForce spunShot) = 80 / 240 * sqrt (1 + (0.5 * 0.08)²).
Proof.
  apply (shot_force_magnitude spunShot). cbn. lra.
Defined.

(** ** A press on the spin control *)

Lemma constrain_id n : -1 <= n <= 1 -> Num.constrain n (-1) 1 = n.
Proof.
  intros [H1 H2]. unfold Num.constrain.
  rewrite Rmin_left by exact H2. apply Rmax_left. exact H1.
Qed.

(** X20.  A press inside the spin control starts a spin drag and sets the
    spin to the offset of the pointer from the control's centre divided by
    its radius, unclamped; the spin then lies in the unit disc, and
    nothing else of the state changes. *)
Theorem press_inside_spin_control s x y :
  isInsideSpinControl x y = true ->
  let sx := (x - uiX) / uiRadius in
  let sy := (y - uiY) / uiRadius in
  mousePressed x y s = Some (set_spinControl (mkSpin sx sy true) s) /\
  sx * sx + sy * sy <= 1.
Proof.
  intros Hin. cbv zeta.
  assert (Hd : (x - uiX) * (x - uiX) + (y - uiY) * (y - uiY) <= uiRadius * uiRadius).
  { unfold isInsideSpinControl in Hin. apply leb_true in Hin.
    apply dist_le_iff in Hin; [exact Hin|unfold uiRadius; lra]. }
  assert (Hr : uiRadius = 35) by reflexivity. rewrite Hr in *.
  pose proof (Rle_0_sqr (x - uiX)) as Hx. pose proof (Rle_0_sqr (y - uiY)) as Hy.
  unfold Rsqr in Hx, Hy.
  set (dx := x - uiX) in *. set (dy := y - uiY) in *.
  assert (Hdx : -35 <= dx <= 35) by (split; nra).
  assert (Hdy : -35 <= dy <= 35) by (split; nra).
  split.
  - unfold mousePressed. rewrite Hin. unfold updateSpinFromMouse.
    cbn [spinControl set_spinControl isDragging]. rewrite Hr. fold dx dy.
    rewrite !constrain_id by lra. reflexivity.
  - replace (dx / 35 * (dx / 35) + dy / 35 * (dy / 35))
      with ((dx * dx + dy * dy) / 1225) by lra.
    lra.
Qed.

Lemma press_inside_spin_control_witness :
  mousePressed (uiX + 21) (uiY - 28) setup
  = Some (set_spinControl
            (mkSpin ((uiX + 21 - uiX) / uiRadius) ((uiY - 28 - uiY) / uiRadius) true)
            setup).
Proof.
  apply (press_inside_spin_control setup (uiX + 21) (uiY - 28)).
  unfold isInsideSpinControl. apply leb_true.
  apply dist_le_iff; unfold uiRadius; lra.
Defined.

(** ** The slow-motion replay *)

Lemma run_app es1 es2 s :
  run (es1 ++ es2) s = match run es1 s with
                       | Some s1 => run es2 s1
                       | None => None
                       end.
Proof.
  revert s. induction es1 as [|e es1 IH]; intros s; cbn [run app].
  - reflexivity.
  - destruct (handle e s); [apply IH|reflexivity].
Qed.

Lemma replay_frames es : forall s i f,
  Forall (fun e => isDraw e = true) es ->
  showReplay (replaySystem s) = true ->
  frames (replaySystem s) = f ->
  playbackIndex (replaySystem s) = i ->
  0 <= i ->
  i + playbackSpeed * INR (List.length es) < INR (List.length f) ->
  run es s
  = Some (set_replaySystem
            (mkReplay (recording (replaySystem s)) f
                      (i + playbackSpeed * INR (List.length es)) true) s).
Proof.
  induction es as [|e es IH]; intros s i f Hes Hshow Hf Hi H0 Hlt.
  - cbn [run List.length INR]. rewrite Rmult_0_r, Rplus_0_r.
    destruct s as [? ? ? ? ? ? ? ? ? ? [r fs idx sh]]. cbn in *. subst. reflexivity.
  - inversion Hes as [|? ? He Hrest]; subst.
    destruct e as [x y|x y shift| |key rack|x y phys]; try discriminate He.
    rewrite length_cons, S_INR in Hlt |- *.
    assert (Hps : playbackSpeed = 0.25) by reflexivity.
    pose proof (pos_INR (List.length es)) as Hn.
    cbn [run handle]. unfold draw. rewrite Hshow. unfold drawReplayFrame.
    destruct (frames (replaySystem s)) as [|fr frs] eqn:Ef.
    + cbn [List.length INR] in Hlt. rewrite Hps in Hlt. lra.
    + rewrite (proj2 (geb_false _ _)) by (rewrite Hps in *; lra).
      rewrite (IH _ (playbackIndex (replaySystem s) + playbackSpeed) (fr :: frs)).
      * cbn [set_replaySystem replaySystem recording]. rewrite Hshow.
        f_equal. unfold set_replaySystem. cbn. f_equal. f_equal. lra.
      * exact Hrest.
      * cbn. exact Hshow.
      * reflexivity.
      * reflexivity.
      * rewrite Hps. lra.
      * rewrite Hps in *. lra.
Qed.

(** X21.  A replay that starts at index 0 over [L] recorded frames stays
    on for the next [4 * L - 1] frames of the draw loop and is switched
    off, with the index back at 0, by frame [4 * L]; all the while the
    physics is not stepped and nothing but the replay index changes. *)
Theorem replay_lasts_four_draws_per_frame s es :
  showReplay (replaySystem s) = true ->
  playbackIndex (replaySystem s) = 0 ->
  Forall (fun e => isDraw e = true) es ->
  let r := replaySystem s in
  let L := List.length (frames r) in
  ((List.length es < 4 * L)%nat ->
   run es s = Some (set_replaySystem
                      (mkReplay (recording r) (frames r)
                                (playbackSpeed * INR (List.length es)) true) s)) /\
  (List.length es = (4 * L)%nat -> (0 < L)%nat ->
   run es s = Some (set_replaySystem (mkReplay (recording r) (frames r) 0 false) s)).
Proof.
  intros Hshow Hi Hes. cbv zeta.
  assert (Hps : playbackSpeed = 0.25) by reflexivity.
  split.
  - intros Hlen.
    rewrite (replay_frames es s 0 (frames (replaySystem s)) Hes Hshow eq_refl Hi).
    + rewrite Rplus_0_l. reflexivity.
    + lra.
    + apply lt_INR in Hlen. rewrite mult_INR in Hlen. cbn [INR] in Hlen.
      rewrite Hps. lra.
  - intros Hlen HL.
    destruct es as [|e0 es0] using rev_ind; [cbn in Hlen; lia|]. clear IHes0.
    apply Forall_app in Hes. destruct Hes as [Hes0 He0].
    inversion He0 as [|? ? He _]; subst.
    destruct e0 as [x y|x y shift| |key rack|x y phys]; try discriminate He.
    rewrite length_app in Hlen. cbn [List.length] in Hlen.
    assert (Hn : INR (List.length es0) = 4 * INR (List.length (frames (replaySystem s))) - 1).
    { assert (Hn : S (List.length es0) = (4 * List.length (frames (replaySystem s)))%nat)
        by lia.
      apply (f_equal INR) in Hn. rewrite S_INR, mult_INR in Hn. cbn [INR] in Hn. lra. }
    rewrite run_app.
    rewrite (replay_frames es0 s 0 (frames (replaySystem s)) Hes0 Hshow eq_refl Hi);
      [|lra|rewrite Hps, Hn; lra].
    cbn [run handle]. unfold draw.
    cbn [set_replaySystem replaySystem showReplay]. unfold drawReplayFrame.
    cbn [set_replaySystem replaySystem frames playbackIndex recording showReplay].
    destruct (frames (replaySystem s)) as [|fr frs] eqn:Ef; [cbn in HL; lia|].
    rewrite (proj2 (geb_true _ _)) by (rewrite Hps, Hn; lra).
    reflexivity.
Qed.

Lemma replay_lasts_four_draws_per_frame_witness :
  let s := set_replaySystem (mkReplay false [mkFrame None [] []] 0 true) setup in
  let frame := Draw 0 0 (fun _ ball => ball) in
  run [frame; frame; frame] s
  = Some (set_replaySystem
            (mkReplay false [mkFrame None [] []] (playbackSpeed * INR 3) true) s) /\
  run [frame; frame; frame; frame] s
  = Some (set_replaySystem (mkReplay false [mkFrame None [] []] 0 false) s).
Proof.
  intros s frame. split.
  - apply (replay_lasts_four_draws_per_frame s [frame; frame; frame] eq_refl eq_refl).
    + repeat constructor.
    + cbn. lia.
  - apply (replay_lasts_four_draws_per_frame s [frame; frame; frame; frame]
             eq_refl eq_refl).
    + repeat constructor.
    + reflexivity.
    + cbn. lia.
Defined.

(** ** The spin indicator *)

Import Indicator.

Lemma label_center_of_small s :
  -0.3 <= spinX (spinControl s) <= 0.3 -> -0.3 <= spinY (spinControl s) <= 0.3 ->
  getSpinTypeLabel s = "CENTER"%string.
Proof.
  intros Hx Hy. unfold getSpinTypeLabel.
  rewrite (proj2 (ltb_false (spinY (spinControl s)) (-0.3))) by lra.
  rewrite (proj2 (gtb_false (spinY (spinControl s)) 0.3)) by lra.
  rewrite (proj2 (ltb_false (spinX (spinControl s)) (-0.3))) by lra.
  rewrite (proj2 (gtb_false (spinX (spinControl s)) 0.3)) by lra.
  reflexivity.
Qed.

(** X22.  The label of the spin indicator is "CENTER" exactly when both
    components of the spin are within 0.3 of zero. *)
Theorem spin_label_center s :
  getSpinTypeLabel s = "CENTER"%string <->
  (-0.3 <= spinX (spinControl s) <= 0.3 /\ -0.3 <= spinY (spinControl s) <= 0.3).
Proof.
  split; [|intros [Hx Hy]; apply label_center_of_small; assumption].
  unfold getSpinTypeLabel.
  destruct (Num.ltb (spinY (spinControl s)) (-0.3)) eqn:E1;
    destruct (Num.gtb (spinY (spinControl s)) 0.3) eqn:E2;
    destruct (Num.ltb (spinX (spinControl s)) (-0.3)) eqn:E3;
    destruct (Num.gtb (spinX (spinControl s)) 0.3) eqn:E4;
    cbn [app String.concat]; intros H; try discriminate H.
  apply ltb_false in E1, E3. apply gtb_false in E2, E4. lra.
Qed.

Lemma sqrt_lt_bound x y r :
  0 <= r -> sqrt (x * x + y * y) < r -> - r < x < r /\ - r < y < r.
Proof.
  intros Hr H.
  assert (H2 : x * x + y * y < r * r).
  { pose proof (dist_lt_iff x y 0 0 r Hr) as Hd. unfold Num.dist, Num.pow2 in Hd.
    rewrite !Rminus_0_r in Hd. apply Hd. exact H. }
  pose proof (Rle_0_sqr x) as Hx. pose proof (Rle_0_sqr y) as Hy. unfold Rsqr in *.
  repeat split; nra.
Qed.

(** X23.  The dot of the spin indicator is grey exactly when the spin is
    shorter than 0.1, and then the label is "CENTER". *)
Theorem spin_color_grey s :
  (getSpinColor s = mkColor 100 100 100 <->
   sqrt (spinX (spinControl s) * spinX (spinControl s)
         + spinY (spinControl s) * spinY (spinControl s)) < 0.1) /\
  (getSpinColor s = mkColor 100 100 100 -> getSpinTypeLabel s = "CENTER"%string).
Proof.
  assert (Hiff : getSpinColor s = mkColor 100 100 100 <->
                 sqrt (spinX (spinControl s) * spinX (spinControl s)
                       + spinY (spinControl s) * spinY (spinControl s)) < 0.1).
  { unfold getSpinColor.
    destruct (Num.ltb _ 0.1) eqn:E.
    - apply ltb_true in E. split; [intros _; exact E|reflexivity].
    - apply ltb_false in E. split; [|intros H; lra].
      intros H. apply (f_equal levelR) in H. exfalso. revert H.
      destruct (Num.ltb _ (-0.2)); [|destruct (Num.gtb _ 0.2)];
        destruct (Num.gtb _ 0.2); cbn [levelR]; unfold Rmax;
        try destruct (Rle_dec _ _); lra. }
  split; [exact Hiff|].
  intros H. apply Hiff in H. apply sqrt_lt_bound in H; [|lra].
  apply label_center_of_small; lra.
Qed.

(** ** Animation effects *)

Import Effects.

Lemma sweep_prefix {A} (upd : A -> A) (drop : A -> bool) visited rest :
  sweep upd drop (List.length visited) (visited ++ rest)
  = filter (fun a => negb (drop a)) (List.map upd visited) ++ rest.
Proof.
  revert rest. induction visited as [|a visited IH] using rev_ind; intros rest.
  - reflexivity.
  - rewrite length_app, Nat.add_comm. cbn [List.length Nat.add sweep].
    rewrite <- app_assoc. cbn [app].
    rewrite nth_error_app2 by lia. rewrite Nat.sub_diag. cbn [nth_error].
    rewrite map_app, filter_app. cbn [List.map filter].
    rewrite firstn_app, Nat.sub_diag, firstn_all2 by lia.
    cbn [firstn]. rewrite app_nil_r.
    rewrite skipn_app, skipn_all2 by lia.
    replace (S (List.length visited) - List.length visited)%nat with 1%nat by lia.
    cbn [skipn app].
    destruct (drop (upd a)); cbn [negb].
    + rewrite IH, app_nil_r. reflexivity.
    + rewrite IH, <- app_assoc. reflexivity.
Qed.

Lemma sweep_filter {A} (upd : A -> A) (drop : A -> bool) l :
  sweep upd drop (List.length l) l = filter (fun a => negb (drop a)) (List.map upd l).
Proof.
  pose proof (sweep_prefix upd drop l []) as H. rewrite !app_nil_r in H. exact H.
Qed.

Lemma limitTrail_firstn fuel : forall trail,
  (List.length trail <= fuel + TRAIL_LENGTH)%nat ->
  limitTrail fuel trail = firstn TRAIL_LENGTH trail.
Proof.
  induction fuel as [|fuel IH]; intros trail Hlen; cbn [limitTrail].
  - rewrite firstn_all2 by lia. reflexivity.
  - destruct (Nat.ltb_spec TRAIL_LENGTH (List.length trail)) as [Hlt|Hge].
    + rewrite IH.
      * rewrite removelast_firstn_len, firstn_firstn.
        rewrite Nat.min_l by lia. reflexivity.
      * rewrite removelast_firstn_len, length_firstn. lia.
    + rewrite firstn_all2 by lia. reflexivity.
Qed.

Lemma updateSingleBallTrail_eq entry position velocity ballColor :
  updateSingleBallTrail entry position velocity ballColor
  = firstn TRAIL_LENGTH
      (filter (fun p => negb (faded p))
         (List.map fade
            (let trail := match entry with Some trail => trail | None => [] end in
             if Num.gtb (magnitude velocity) 0.5
             then mkTrailPoint (vecX position) (vecY position) 0 ballColor
                               (magnitude velocity) :: trail
             else trail))).
Proof.
  unfold updateSingleBallTrail. cbv zeta.
  rewrite sweep_filter. apply limitTrail_firstn. lia.
Qed.

Lemma Forall_firstn {A} (P : A -> Prop) n l : Forall P l -> Forall P (firstn n l).
Proof.
  intros H. rewrite <- (firstn_skipn n l) in H. apply Forall_app in H. apply H.
Qed.

Lemma trail_ages_lt1 entry position velocity ballColor :
  Forall (fun p => age p < 1) (updateSingleBallTrail entry position velocity ballColor).
Proof.
  rewrite updateSingleBallTrail_eq.
  apply Forall_firstn. apply Forall_forall. intros p Hin.
  apply filter_In in Hin. destruct Hin as [_ Hf].
  apply negb_true_iff in Hf. unfold faded in Hf. apply geb_false in Hf. exact Hf.
Qed.

(** X24.  After every update a trail holds at most [TRAIL_LENGTH] points,
    and each of them has an age below 1. *)
Theorem trail_bounded entry position velocity ballColor :
  let trail := updateSingleBallTrail entry position velocity ballColor in
  (List.length trail <= TRAIL_LENGTH)%nat /\ Forall (fun p => age p < 1) trail.
Proof.
  cbv zeta. split.
  - rewrite updateSingleBallTrail_eq, length_firstn. lia.
  - apply trail_ages_lt1.
Qed.

Lemma slow_update_ages a trail position velocity ballColor :
  magnitude velocity <= 0.5 ->
  Forall (fun p => a <= age p) trail ->
  Forall (fun p => a + TRAIL_FADE_RATE <= age p)
         (updateSingleBallTrail (Some trail) position velocity ballColor).
Proof.
  intros Hslow Hages. rewrite updateSingleBallTrail_eq. cbv zeta.
  rewrite (proj2 (gtb_false _ _)) by exact Hslow.
  apply Forall_firstn. apply Forall_forall. intros p Hin.
  apply filter_In in Hin. destruct Hin as [Hin _].
  apply in_map_iff in Hin. destruct Hin as (q & <- & Hq).
  rewrite Forall_forall in Hages. specialize (Hages q Hq).
  unfold fade. cbn [age]. lra.
Qed.

Lemma slow_updates_ages ballColor steps : forall a trail,
  Forall (fun pv => magnitude (snd pv) <= 0.5) steps ->
  Forall (fun p => a <= age p) trail ->
  Forall (fun p => a + TRAIL_FADE_RATE * INR (List.length steps) <= age p)
         (fold_left (fun t pv => updateSingleBallTrail (Some t) (fst pv) (snd pv) ballColor)
                    steps trail).
Proof.
  induction steps as [|pv steps IH]; intros a trail Hslow Hages.
  - cbn [fold_left List.length INR]. rewrite Rmult_0_r, Rplus_0_r. exact Hages.
  - inversion Hslow as [|? ? H1 Hrest]; subst.
    cbn [fold_left]. rewrite length_cons, S_INR.
    pose proof (IH (a + TRAIL_FADE_RATE) _ Hrest
                  (slow_update_ages a trail (fst pv) (snd pv) ballColor H1 Hages)) as H.
    eapply Forall_impl; [|exact H]. cbn beta. intros p Hp. lra.
Qed.

(** X25.  The trail of a ball that stays at or below speed 0.5 is gone
    after thirteen updates, whatever it held before. *)
Theorem slow_ball_trail_fades ballColor steps trail :
  Forall (fun pv => magnitude (snd pv) <= 0.5) steps ->
  Forall (fun p => 0 <= age p) trail ->
  (13 <= List.length steps)%nat ->
  fold_left (fun t pv => updateSingleBallTrail (Some t) (fst pv) (snd pv) ballColor)
            steps trail = [].
Proof.
  intros Hslow Hages Hlen.
  destruct steps as [|pv0 steps0] using rev_ind; [cbn in Hlen; lia|]. clear IHsteps0.
  apply Forall_app in Hslow. destruct Hslow as [Hslow0 Hlast].
  rewrite length_app in Hlen. cbn [List.length] in Hlen.
  rewrite fold_left_app. cbn [fold_left].
  pose proof (slow_updates_ages ballColor steps0 0 trail Hslow0 Hages) as Hold.
  set (t := fold_left _ steps0 trail) in *.
  inversion Hlast as [|? ? H1 _]; subst.
  pose proof (slow_update_ages _ t (fst pv0) (snd pv0) ballColor H1 Hold) as Hnew.
  pose proof (trail_ages_lt1 (Some t) (fst pv0) (snd pv0) ballColor) as Hlt.
  destruct (updateSingleBallTrail (Some t) (fst pv0) (snd pv0) ballColor) as [|p rest];
    [reflexivity|].
  inversion Hnew as [|? ? Hp _]; subst. inversion Hlt as [|? ? Hp1 _]; subst.
  assert (Hn : 12 <= INR (List.length steps0)).
  { replace 12 with (INR 12) by (cbn; lra). apply le_INR. lia. }
  unfold TRAIL_FADE_RATE in Hp. lra.
Qed.

Lemma slow_ball_trail_fades_witness :
  fold_left (fun t pv => updateSingleBallTrail (Some t) (fst pv) (snd pv) "#D32F2F")
            (repeat (mkVec 0 0, mkVec 0 0) 13)
            [mkTrailPoint 300 200 0 "#D32F2F" 2]
  = [].
Proof.
  apply slow_ball_trail_fades.
  - apply Forall_forall. intros pv Hin. apply repeat_spec in Hin. subst pv.
    unfold magnitude. cbn [snd vecX vecY].
    replace (0 * 0 + 0 * 0) with 0 by ring. rewrite sqrt_0. lra.
  - constructor; [cbn; lra|constructor].
  - cbn. lia.
Defined.

(** *** Pocket animations *)

Lemma updatePocketAnimations_filter l :
  updatePocketAnimations l
  = filter (fun a => negb (finished a)) (List.map updateAnimation l).
Proof. apply sweep_filter. Qed.

Lemma iter_S {A} (f : A -> A) n a : Nat.iter (S n) f a = f (Nat.iter n f a).
Proof. reflexivity. Qed.

(** X26.  After [n] updates a particle has moved [n] times its
    horizontal velocity sideways and fallen along the parabola
    [n * vy + 0.05 * n * (n - 1)], while its size and opacity have decayed
    geometrically. *)
Theorem particle_after_updates n p :
  Nat.iter n updateParticle p
  = mkParticle (particleX p + INR n * vx p)
               (particleY p + INR n * vy p + 0.05 * INR n * (INR n - 1))
               (vx p) (vy p + 0.1 * INR n)
               (particleSize p * 0.97 ^ n) (alpha p * 0.92 ^ n) (particleColor p).
Proof.
  induction n as [|n IH].
  - destruct p. cbn. f_equal; lra.
  - rewrite iter_S, IH. unfold updateParticle.
    cbn [particleX particleY vx vy particleSize alpha particleColor].
    rewrite S_INR. f_equal; cbn [pow]; lra.
Qed.

Lemma iter_updateAnimation n anim :
  Nat.iter n updateAnimation anim
  = mkPocketAnimation (animX anim) (animY anim) (animColor anim) (n + time anim)
                      (maxTime anim) (size anim * 0.85 ^ n)
                      (List.map (Nat.iter n updateParticle) (particles anim)).
Proof.
  induction n as [|n IH].
  - destruct anim. cbn. f_equal; [lra|]. rewrite map_id. reflexivity.
  - rewrite iter_S, IH. unfold updateAnimation.
    cbn [animX animY animColor time maxTime size particles Nat.add].
    f_equal; [cbn [pow]; lra|]. rewrite map_map. reflexivity.
Qed.

Lemma iter_updatePocketAnimations n anim :
  Nat.iter n updatePocketAnimations [anim]
  = if Nat.ltb (n + time anim) (maxTime anim) || Nat.eqb n 0
    then [Nat.iter n updateAnimation anim] else [].
Proof.
  induction n as [|n IH].
  - rewrite orb_true_r. reflexivity.
  - rewrite iter_S, IH, orb_false_r.
    destruct (Nat.ltb_spec (S n + time anim) (maxTime anim)) as [Hlt|Hge].
    + replace (Nat.ltb (n + time anim) (maxTime anim)) with true
        by (symmetry; apply Nat.ltb_lt; lia).
      cbn [orb]. rewrite updatePocketAnimations_filter. cbn [List.map filter].
      unfold finished. rewrite iter_updateAnimation. cbn [time maxTime updateAnimation].
      replace (Nat.leb (maxTime anim) (S (n + time anim))) with false
        by (symmetry; apply Nat.leb_gt; lia).
      cbn [negb]. rewrite <- iter_updateAnimation. reflexivity.
    + destruct (Nat.ltb (n + time anim) (maxTime anim) || Nat.eqb n 0).
      * rewrite updatePocketAnimations_filter. cbn [List.map filter].
        unfold finished. rewrite iter_updateAnimation. cbn [time maxTime updateAnimation].
        replace (Nat.leb (maxTime anim) (S (n + time anim))) with true
          by (symmetry; apply Nat.leb_le; lia).
        reflexivity.
      * reflexivity.
Qed.

(** X27.  A pocket animation lasts thirty updates: for [n < 30] it is
    still there after [n] updates, its time at [n] and its size shrunk to
    [ballDiameter * 0.85 ^ n], and the thirtieth update removes it. *)
Theorem pocket_animation_lifetime rnd x y ballColor n :
  Nat.iter n updatePocketAnimations (triggerPocketAnimation rnd x y ballColor [])
  = if Nat.ltb n 30
    then [mkPocketAnimation x y ballColor n 30 (ballDiameter * 0.85 ^ n)
            (List.map (Nat.iter n updateParticle)
                      (createPocketParticles rnd x y ballColor))]
    else [].
Proof.
  unfold triggerPocketAnimation. cbn [app].
  rewrite iter_updatePocketAnimations. cbn [time maxTime]. rewrite Nat.add_0_r.
  destruct (Nat.ltb_spec n 30) as [Hlt|Hge]; cbn [orb].
  - rewrite iter_updateAnimation.
    cbn [animX animY animColor time maxTime size particles]. rewrite Nat.add_0_r.
    reflexivity.
  - replace (Nat.eqb n 0) with false by (symmetry; apply Nat.eqb_neq; lia).
    reflexivity.
Qed.

(** ** The racks of modes 2 and 3 *)

Import Racks.

Lemma constrain_between n lo hi : lo <= hi -> lo <= Num.constrain n lo hi <= hi.
Proof.
  intros H. unfold Num.constrain. split.
  - apply Rmax_r.
  - apply Rmax_lub; [apply Rmin_r|exact H].
Qed.

Lemma far_in_y x y px py r :
  0 <= r -> r <= y - py \/ r <= py - y ->
  r * r <= (x - px) * (x - px) + (y - py) * (y - py).
Proof.
  intros Hr H. pose proof (Rle_0_sqr (x - px)) as Hx. unfold Rsqr in Hx.
  destruct H as [H|H]; nra.
Qed.

Lemma far_in_x x y px py r :
  0 <= r -> r <= x - px \/ r <= px - x ->
  r * r <= (x - px) * (x - px) + (y - py) * (y - py).
Proof.
  intros Hr H. pose proof (Rle_0_sqr (y - py)) as Hy. unfold Rsqr in Hy.
  destruct H as [H|H]; nra.
Qed.

(** A ball a pocket's width inside the cushions is out of every pocket's
    capture range. *)
Lemma inner_not_potted x y l :
  tableY + cushionThickness + pocketSize <= y
  <= tableY + tableWidth - cushionThickness - pocketSize ->
  potted (circle x y l) = false.
Proof.
  rewrite tableY_val, pocketSize_val. unfold cushionThickness, tableWidth, tableLength.
  intros Hy.
  unfold potted, findPocket, pocketPositions. cbn [find position vecX vecY circle].
  repeat match goal with
         | |- context [Num.ltb (Num.dist ?a ?b ?c ?d) pocketRadius] =>
             replace (Num.ltb (Num.dist a b c d) pocketRadius) with false
               by (symmetry; apply dist_ltb_false;
                   [ rewrite pocketRadius_val; lra
                   | apply far_in_y;
                     rewrite ?pocketRadius_val, ?pocketSize_val, ?tableX_val, ?tableY_val;
                     unfold tableWidth, tableLength; lra ])
         end.
  reflexivity.
Qed.

(** X28.  Whatever the random samples, the rack of mode 2 has fifteen
    reds at rest, each with its centre at least a pocket's width inside
    the cushions, and none of them within the capture range of a pocket. *)
Theorem cluster_rack_on_table rnd :
  List.length (createRedClusters rnd) = 15%nat /\
  Forall (fun ball =>
            label ball = redLabel /\ velocity ball = mkVec 0 0 /\
            tableX + cushionThickness + pocketSize <= vecX (position ball)
            <= tableX + tableLength - cushionThickness - pocketSize /\
            tableY + cushionThickness + pocketSize <= vecY (position ball)
            <= tableY + tableWidth - cushionThickness - pocketSize /\
            potted ball = false)
         (createRedClusters rnd).
Proof.
  split; [reflexivity|].
  apply Forall_forall. intros ball Hin. unfold createRedClusters in Hin.
  apply in_flat_map in Hin. destruct Hin as (cluster & _ & Hin).
  apply in_map_iff in Hin. destruct Hin as (b & <- & _).
  assert (Hx : tableX + cushionThickness + pocketSize
               <= tableX + tableLength - cushionThickness - pocketSize)
    by (rewrite pocketSize_val; unfold cushionThickness, tableLength; lra).
  assert (Hy : tableY + cushionThickness + pocketSize
               <= tableY + tableWidth - cushionThickness - pocketSize)
    by (rewrite pocketSize_val; unfold cushionThickness, tableWidth, tableLength; lra).
  split; [reflexivity|]. split; [reflexivity|].
  cbn [position circle vecX vecY].
  split; [apply constrain_between; exact Hx|].
  split; [apply constrain_between; exact Hy|].
  apply inner_not_potted. apply constrain_between. exact Hy.
Qed.

(** *** Practice racks *)

Lemma practiceCell_inv rnd acc cell :
  Forall clearOfSpots (fst acc) -> (List.length (fst acc) <= 15)%nat ->
  Forall clearOfSpots (fst (practiceCell rnd acc cell)) /\
  (List.length (fst (practiceCell rnd acc cell)) <= 15)%nat.
Proof.
  destruct acc as [reds k], cell as [row col]. cbn [fst]. intros Hc Hlen.
  unfold practiceCell.
  destruct (Nat.leb_spec 15 (List.length reds)) as [Hfull|Hroom]; [cbn [fst]; auto|].
  match goal with
  | |- context [negb (isTooCloseToSpot ?x ?y)] =>
      destruct (isTooCloseToSpot x y) eqn:E
  end; cbn [negb fst].
  - auto.
  - split.
    + apply Forall_app. split; [exact Hc|]. constructor; [exact E|constructor].
    + rewrite length_app. cbn [List.length]. lia.
Qed.

Lemma grid_inv rnd cells : forall acc,
  Forall clearOfSpots (fst acc) -> (List.length (fst acc) <= 15)%nat ->
  Forall clearOfSpots (fst (fold_left (practiceCell rnd) cells acc)) /\
  (List.length (fst (fold_left (practiceCell rnd) cells acc)) <= 15)%nat.
Proof.
  induction cells as [|cell cells IH]; intros acc Hc Hlen; cbn [fold_left].
  - auto.
  - destruct (practiceCell_inv rnd acc cell Hc Hlen) as [Hc' Hlen'].
    apply IH; assumption.
Qed.

Lemma fillPractice_inv rnd fuel : forall acc reds,
  Forall clearOfSpots (fst acc) -> (List.length (fst acc) <= 15)%nat ->
  fillPractice rnd fuel acc = Some reds ->
  List.length reds = 15%nat /\ Forall clearOfSpots reds.
Proof.
  induction fuel as [|fuel IH]; intros [reds0 k] reds Hc Hlen; cbn [fst] in *;
    cbn [fillPractice];
    destruct (Nat.ltb_spec (List.length reds0) 15) as [Hlt|Hge];
    intros E; try discriminate E;
    try (injection E as <-; split; [lia|exact Hc]).
  match type of E with
  | context [negb (isTooCloseToSpot ?x ?y)] =>
      destruct (isTooCloseToSpot x y) eqn:Et
  end; cbn [negb] in E.
  - apply (IH (reds0, (k + 2)%nat) reds Hc Hlen E).
  - refine (IH _ reds _ _ E); cbn [fst].
    + apply Forall_app. split; [exact Hc|]. constructor; [exact Et|constructor].
    + rewrite length_app. cbn [List.length]. lia.
Qed.

(** X29.  A practice rack, once built, has exactly fifteen reds, and none
    of them has its centre within two ball diameters of a colour's spot. *)
Theorem practice_rack_clear_of_spots rnd fuel reds :
  createPracticeReds rnd fuel = Some reds ->
  List.length reds = 15%nat /\
  Forall (fun ball =>
            isTooCloseToSpot (vecX (position ball)) (vecY (position ball)) = false)
         reds.
Proof.
  unfold createPracticeReds. intros E.
  destruct (grid_inv rnd gridCells ([], 0%nat)) as [Hc Hlen];
    [constructor|cbn; lia|].
  exact (fillPractice_inv rnd fuel _ reds Hc Hlen E).
Qed.

Lemma fillPractice_total rnd :
  (forall k, isTooCloseToSpot (random (rnd k) practiceLeft practiceRight)
                              (random (rnd (k + 1)%nat) practiceTop practiceBottom)
             = false) ->
  forall fuel acc,
    (15 <= List.length (fst acc) + fuel)%nat ->
    exists reds, fillPractice rnd fuel acc = Some reds.
Proof.
  intros Hclear. induction fuel as [|fuel IH]; intros [reds0 k] Hlen; cbn [fst] in *;
    cbn [fillPractice];
    destruct (Nat.ltb_spec (List.length reds0) 15) as [Hlt|Hge]; eauto; [lia|].
  rewrite Hclear. cbn [negb]. apply IH. cbn [fst]. rewrite length_app. cbn [List.length]. lia.
Qed.

(** X30.  When every sample pair of the filling loop falls clear of the
    spots, the loop ends after at most fifteen turns, and the practice rack
    is built. *)
Theorem practice_rack_built rnd :
  (forall k, isTooCloseToSpot (random (rnd k) practiceLeft practiceRight)
                              (random (rnd (k + 1)%nat) practiceTop practiceBottom)
             = false) ->
  exists reds, createPracticeReds rnd 15 = Some reds.
Proof.
  intros Hclear. unfold createPracticeReds.
  apply (fillPractice_total rnd Hclear). lia.
Qed.

Lemma corner_clear_of_spots : isTooCloseToSpot practiceLeft practiceTop = false.
Proof.
  unfold isTooCloseToSpot, colours. cbn [existsb].
  repeat match goal with
         | |- context [Num.ltb (sqrt (Num.pow2 (?a - ?c) + Num.pow2 (?b - ?d))) ?r] =>
             change (sqrt (Num.pow2 (a - c) + Num.pow2 (b - d))) with (Num.dist a b c d);
             replace (Num.ltb (Num.dist a b c d) r) with false
               by (symmetry; apply dist_ltb_false;
                   [ rewrite ballDiameter_val; lra
                   | apply far_in_x; unfold spotPositions, practiceLeft; cbn [vecX vecY];
                     rewrite ?ballDiameter_val, ?dRadius_val, ?tableX_val;
                     unfold cushionThickness, tableLength; lra ])
         end.
  reflexivity.
Qed.

Lemma zero_samples_clear (k : nat) :
  isTooCloseToSpot (random 0 practiceLeft practiceRight)
                   (random 0 practiceTop practiceBottom) = false.
Proof.
  unfold random, Effects.random. rewrite !Rmult_0_l, !Rplus_0_l.
  exact corner_clear_of_spots.
Qed.

Lemma practice_rack_built_witness :
  exists reds, createPracticeReds (fun _ => 0) 15 = Some reds.
Proof.
  apply (practice_rack_built (fun _ => 0)). exact zero_samples_clear.
Defined.

Lemma practice_rack_clear_of_spots_witness :
  exists reds, createPracticeReds (fun _ => 0) 15 = Some reds /\
               List.length reds = 15%nat.
Proof.
  destruct (fillPractice_total (fun _ => 0) zero_samples_clear 15
              (fold_left (practiceCell (fun _ => 0)) gridCells ([], 0%nat)))
    as [reds E]; [lia|].
  exists reds. split; [exact E|].
  exact (proj1 (practice_rack_clear_of_spots (fun _ => 0) 15 reds E)).
Defined.

(** * The run of the predictor, and the spin from shot to shot *)

(** ** The run of the marching loop, iteration by iteration *)

(** How a run ends: the loop records the position of every iteration it
    starts, and stops only when its condition fails or, by [break], at
    the first ball contact. *)
Lemma trace_run fuel allBalls sy m tp tp' :
  trace fuel allBalls sy m tp = Some tp' -> ghostBall tp = None ->
  exists k,
    points tp' = points tp ++ pathOf m k /\
    (forall i, (i < k)%nat -> continues (marchAfter i m) = true) /\
    ((ghostBall tp' = None /\ continues (marchAfter k m) = false) \/
     (exists j hit,
         k = S j /\
         advBounces (advance (marchAfter j m)) = 0%nat /\
         checkTrajectoryBallCollision allBalls
           (currentX (marchAfter j m)) (currentY (marchAfter j m))
           (nextX (advance (marchAfter j m))) (nextY (advance (marchAfter j m)))
         = Some hit /\
         ghostBall tp'
         = Some (mkGhost (hitX hit) (hitY hit) (hitBall hit) (hitColor hit)))).
Proof.
  revert m tp tp'. induction fuel as [|fuel IH]; intros m tp tp' E Hg; [discriminate|].
  rewrite trace_S in E. destruct (continues m) eqn:Hc.
  - destruct (ballTest allBalls m (advance m) (pushPoint m tp)) as [hit|] eqn:Eb.
    + injection E as <-. exists 1%nat. split; [reflexivity|]. split.
      * intros i Hi. assert (i = 0)%nat by lia. subst i. exact Hc.
      * right. exists 0%nat, hit. split; [reflexivity|].
        split; [exact (ballTest_bounces _ _ _ _ _ Eb)|].
        split; [exact (ballTest_search _ _ _ _ _ Eb)|reflexivity].
    + destruct (IH _ _ _ E Hg) as (k & Hp & Hk & Hend). exists (S k). split; [|split].
      * rewrite Hp, pathOf_S. cbn [pushPoint points]. rewrite <- app_assoc. reflexivity.
      * intros [|i] Hi; [exact Hc|]. rewrite marchAfter_S. apply Hk. lia.
      * destruct Hend as [[Hn Hstop]|(j & hit & -> & Hb & Hs & Hgh)].
        -- left. split; [exact Hn|]. rewrite marchAfter_S. exact Hstop.
        -- right. exists (S j), hit. rewrite !marchAfter_S. auto.
  - injection E as <-. exists 0%nat. split; [|split].
    + unfold pathOf. cbn. rewrite app_nil_r. reflexivity.
    + intros i Hi. lia.
    + left. split; [exact Hg|exact Hc].
Qed.

Lemma forecast_run s ball :
  cueBall s = Some ball ->
  exists tp' k,
    calculateTrajectoryPreview s = Some (set_trajectoryPreview tp' s) /\
    points tp' = pathOf (startMarch ball s) k /\
    (0 < k)%nat /\
    (forall i, (i < k)%nat -> continues (marchAfter i (startMarch ball s)) = true) /\
    ((ghostBall tp' = None /\ continues (marchAfter k (startMarch ball s)) = false) \/
     (exists j hit,
         k = S j /\
         advBounces (advance (marchAfter j (startMarch ball s))) = 0%nat /\
         checkTrajectoryBallCollision (getAllBallsExceptCue s)
           (currentX (marchAfter j (startMarch ball s)))
           (currentY (marchAfter j (startMarch ball s)))
           (nextX (advance (marchAfter j (startMarch ball s))))
           (nextY (advance (marchAfter j (startMarch ball s))))
         = Some hit /\
         ghostBall tp'
         = Some (mkGhost (hitX hit) (hitY hit) (hitBall hit) (hitColor hit)))).
Proof.
  intros Hb. unfold calculateTrajectoryPreview. rewrite Hb.
  destruct (trace_terminates 160 (getAllBallsExceptCue s) (spinY (spinControl s))
              (startMarch ball s) (mkPreview (enabled (trajectoryPreview s)) [] None []))
    as [tp' E].
  - unfold maxDistance, stepSize, startMarch; cbn [totalDist].
    replace (INR 160) with 160 by (rewrite INR_IZR_INZ; reflexivity). lra.
  - destruct (trace_run _ _ _ _ _ _ E eq_refl) as (k & Hp & Hk & Hend).
    exists tp', k. unfold traceFuel. rewrite E.
    split; [reflexivity|]. split; [exact Hp|]. split; [|split; assumption].
    destruct Hend as [[_ Hstop]|(j & hit & -> & _)]; [|lia].
    destruct k; [|lia]. change (marchAfter 0 (startMarch ball s)) with (startMarch ball s) in Hstop.
    rewrite startMarch_continues in Hstop. discriminate.
Qed.

(** Without side spin the direction keeps its two magnitudes: a
    reflection only changes a sign. *)
Lemma march_direction_magnitudes m n :
  unitDir m -> curveAmount m = 0 ->
  Rabs (currentDirX (marchAfter n m)) = Rabs (currentDirX m) /\
  Rabs (currentDirY (marchAfter n m)) = Rabs (currentDirY m).
Proof.
  intros Hu Hc. induction n as [|n [IHx IHy]]; [split; reflexivity|].
  rewrite marchAfter_succ.
  destruct (marchStep_dir (marchAfter n m) (marchAfter_unit n m Hu)) as (Hx & Hy & _).
  rewrite Hx, Hy, advance_dirX, advance_dirY. split.
  - destruct (_ || _); rewrite ?Rabs_Ropp; exact IHx.
  - destruct (_ || _); rewrite ?Rabs_Ropp; exact IHy.
Qed.

(** C2.  In a prediction run with no side spin the forecast holds one
    point per iteration of the loop, which stops only when its condition
    fails or at a ball contact.  Whenever an iteration is followed by
    another, the point it marches to is clamped to the interior boundary
    it crosses, the direction component perpendicular to that cushion is
    negated and the other one is left alone, and the bounce count grows by
    one per boundary crossed; the direction never changes but in sign, and
    no forecast point carries a bounce count above 3. *)
Theorem trajectory_bounce_reflection s ball :
  cueBall s = Some ball -> spinX (spinControl s) = 0 ->
  exists s' k,
    calculateTrajectoryPreview s = Some s' /\
    let m0 := startMarch ball s in
    let pts := points (trajectoryPreview s') in
    List.length pts = k /\ (0 < k)%nat /\
    (forall i, (i < k)%nat -> nth_error pts i = Some (pointOf (marchAfter i m0))) /\
    (ghostBall (trajectoryPreview s') = None -> continues (marchAfter k m0) = false) /\
    (forall g, ghostBall (trajectoryPreview s') = Some g ->
       exists hit,
         advBounces (advance (marchAfter (k - 1) m0)) = 0%nat /\
         checkTrajectoryBallCollision (getAllBallsExceptCue s)
           (currentX (marchAfter (k - 1) m0)) (currentY (marchAfter (k - 1) m0))
           (nextX (advance (marchAfter (k - 1) m0)))
           (nextY (advance (marchAfter (k - 1) m0)))
         = Some hit /\
         g = mkGhost (hitX hit) (hitY hit) (hitBall hit) (hitColor hit)) /\
    (forall i p q,
        nth_error pts i = Some p -> nth_error pts (S i) = Some q ->
        let m := marchAfter i m0 in
        let m' := marchAfter (S i) m0 in
        let x := pointX p + currentDirX m * stepSize in
        let y := pointY p + currentDirY m * stepSize in
        Rabs (currentDirX m) = Rabs (cos (angle (cue s))) /\
        Rabs (currentDirY m) = Rabs (sin (angle (cue s))) /\
        (x < innerLeft ->
         pointX q = innerLeft /\ currentDirX m' = - currentDirX m) /\
        (innerRight < x ->
         pointX q = innerRight /\ currentDirX m' = - currentDirX m) /\
        (innerLeft <= x <= innerRight ->
         pointX q = x /\ currentDirX m' = currentDirX m) /\
        (y < innerTop ->
         pointY q = innerTop /\ currentDirY m' = - currentDirY m) /\
        (innerBottom < y ->
         pointY q = innerBottom /\ currentDirY m' = - currentDirY m) /\
        (innerTop <= y <= innerBottom ->
         pointY q = y /\ currentDirY m' = currentDirY m) /\
        bounce q =
          (bounce p
           + (if Rlt_dec x innerLeft then 1
              else if Rlt_dec innerRight x then 1 else 0)
           + (if Rlt_dec y innerTop then 1
              else if Rlt_dec innerBottom y then 1 else 0))%nat) /\
    Forall (fun p => (bounce p <= 3)%nat) pts.
Proof.
  intros Hb Hspin.
  destruct (forecast_run s ball Hb) as (tp' & k & E & Hp & Hpos & Hk & Hend).
  exists (set_trajectoryPreview tp' s), k.
  split; [exact E|]. cbv zeta. cbn [set_trajectoryPreview trajectoryPreview].
  assert (Hu : unitDir (startMarch ball s)) by apply startMarch_unit.
  assert (Hc : curveAmount (startMarch ball s) = 0)
    by (unfold startMarch; cbn [curveAmount]; rewrite Hspin; lra).
  split; [rewrite Hp; apply pathOf_length|]. split; [exact Hpos|].
  split; [intros i Hi; rewrite Hp; apply pathOf_nth; exact Hi|].
  split; [|split; [|split]].
  - intros Hn. destruct Hend as [[_ Hstop]|(j & hit & _ & _ & _ & Hg)];
      [exact Hstop|congruence].
  - intros g Hg. destruct Hend as [[Hn _]|(j & hit & -> & Hb0 & Hs & Hg')];
      [congruence|].
    exists hit. replace (S j - 1)%nat with j by lia.
    split; [exact Hb0|]. split; [exact Hs|congruence].
  - intros i p q Hi Hsi. rewrite Hp in Hi, Hsi.
    apply pathOf_nth_inv in Hi. apply pathOf_nth_inv in Hsi.
    destruct Hi as [_ ->]. destruct Hsi as [_ ->].
    cbn [pointOf pointX pointY bounce].
    destruct (march_direction_magnitudes (startMarch ball s) i Hu Hc) as [Hmx Hmy].
    split; [exact Hmx|]. split; [exact Hmy|].
    rewrite marchAfter_succ. apply marchStep_reflects.
    + apply marchAfter_unit, Hu.
    + apply marchAfter_curve_zero, Hc.
  - rewrite Hp. apply (pathOf_bounces (startMarch ball s) k Hk).
Qed.

(** *** A run along the x axis into the right cushion *)

Lemma innerRight_val : innerRight = 968.75.
Proof.
  unfold innerRight. rewrite tableX_val, ballRadius_val.
  unfold tableLength, cushionThickness. lra.
Qed.

Lemma innerLeft_val : innerLeft = 131.25.
Proof.
  unfold innerLeft. rewrite tableX_val, ballRadius_val. unfold cushionThickness. lra.
Qed.

Lemma innerTop_val : innerTop = 156.25.
Proof.
  unfold innerTop. rewrite tableY_val, ballRadius_val. unfold cushionThickness. lra.
Qed.

Lemma innerBottom_val : innerBottom = 543.75.
Proof.
  unfold innerBottom. rewrite tableY_val, ballRadius_val.
  unfold tableWidth, tableLength, cushionThickness. lra.
Qed.

Lemma aimedShot_start :
  let m0 := startMarch (circle 550 500 cueBallLabel) aimedShot in
  unitDir m0 /\ curveAmount m0 = 0 /\ totalDist m0 = 0 /\
  currentX m0 = 550 /\ currentY m0 = 500 /\
  currentDirX m0 = 1 /\ currentDirY m0 = 0 /\ bounces m0 = 0%nat.
Proof.
  cbv zeta. split; [apply startMarch_unit|].
  unfold startMarch. cbn. rewrite cos_0, sin_0. repeat split; lra.
Qed.

(** The first 83 steps run straight along y = 500. *)
Lemma aimedShot_march j :
  (j <= 83)%nat ->
  let m := marchAfter j (startMarch (circle 550 500 cueBallLabel) aimedShot) in
  currentX m = 550 + 5 * INR j /\ currentY m = 500 /\
  currentDirX m = 1 /\ currentDirY m = 0 /\ bounces m = 0%nat.
Proof.
  destruct aimedShot_start as (Hu & Hc & _ & Hx0 & Hy0 & Hdx0 & Hdy0 & Hb0).
  set (m0 := startMarch (circle 550 500 cueBallLabel) aimedShot) in *.
  induction j as [|j IH]; intros Hj; cbv zeta.
  - change (marchAfter 0 m0) with m0. cbn [INR]. repeat split; try assumption. lra.
  - destruct (IH ltac:(lia)) as (Hx & Hy & Hdx & Hdy & Hb).
    rewrite marchAfter_succ, S_INR.
    assert (Hle : INR j <= 82).
    { replace 82 with (INR 82) by (rewrite INR_IZR_INZ; reflexivity). apply le_INR. lia. }
    pose proof (pos_INR j) as Hpos.
    destruct (marchStep_reflects (marchAfter j m0) (marchAfter_unit j m0 Hu)
                (marchAfter_curve_zero j m0 Hc))
      as (_ & _ & Hmid & _ & _ & Hmidy & Hbn).
    rewrite Hx, Hy, Hdx, Hdy, Hb in *. unfold stepSize in *.
    rewrite innerLeft_val, innerRight_val, innerTop_val, innerBottom_val in *.
    destruct Hmid as [Hx' Hdx']; [lra|]. destruct Hmidy as [Hy' Hdy']; [lra|].
    split; [rewrite Hx'; lra|]. split; [rewrite Hy'; lra|].
    split; [exact Hdx'|]. split; [exact Hdy'|].
    rewrite Hbn.
    destruct (Rlt_dec _ _); [lra|]. destruct (Rlt_dec _ _); [lra|].
    destruct (Rlt_dec _ _); [lra|]. destruct (Rlt_dec _ _); [lra|]. reflexivity.
Qed.

(** Step 84 meets the right cushion; step 85 runs back. *)
Lemma aimedShot_bounce :
  let m0 := startMarch (circle 550 500 cueBallLabel) aimedShot in
  pointOf (marchAfter 83 m0) = mkPathPoint 965 500 0 /\
  pointOf (marchAfter 84 m0) = mkPathPoint innerRight 500 1 /\
  currentDirX (marchAfter 84 m0) = -1 /\
  pointOf (marchAfter 85 m0) = mkPathPoint (innerRight - 5) 500 1.
Proof.
  cbv zeta.
  destruct aimedShot_start as (Hu & Hc & _).
  set (m0 := startMarch (circle 550 500 cueBallLabel) aimedShot) in *.
  destruct (aimedShot_march 83 (le_n _)) as (Hx & Hy & Hdx & Hdy & Hb). fold m0 in Hx, Hy, Hdx, Hdy, Hb.
  replace (INR 83) with 83 in Hx by (rewrite INR_IZR_INZ; reflexivity).
  assert (H84 : currentX (marchAfter 84 m0) = innerRight /\
                currentY (marchAfter 84 m0) = 500 /\
                currentDirX (marchAfter 84 m0) = -1 /\
                currentDirY (marchAfter 84 m0) = 0 /\
                bounces (marchAfter 84 m0) = 1%nat).
  { rewrite marchAfter_succ.
    destruct (marchStep_reflects (marchAfter 83 m0) (marchAfter_unit 83 m0 Hu)
                (marchAfter_curve_zero 83 m0 Hc))
      as (_ & Hright & _ & _ & _ & Hmidy & Hbn).
    rewrite Hx, Hy, Hdx, Hdy, Hb in *. unfold stepSize in *.
    rewrite innerLeft_val, innerRight_val, innerTop_val, innerBottom_val in *.
    destruct Hright as [Hx' Hdx']; [lra|]. destruct Hmidy as [Hy' Hdy']; [lra|].
    split; [exact Hx'|]. split; [rewrite Hy'; lra|].
    split; [rewrite Hdx'; lra|]. split; [exact Hdy'|].
    rewrite Hbn.
    destruct (Rlt_dec _ _); [lra|]. destruct (Rlt_dec _ _); [|lra].
    destruct (Rlt_dec _ _); [lra|]. destruct (Rlt_dec _ _); [lra|]. reflexivity. }
  destruct H84 as (Hx4 & Hy4 & Hdx4 & Hdy4 & Hb4).
  assert (H85 : currentX (marchAfter 85 m0) = innerRight - 5 /\
                currentY (marchAfter 85 m0) = 500 /\
                bounces (marchAfter 85 m0) = 1%nat).
  { rewrite (marchAfter_succ 84).
    destruct (marchStep_reflects (marchAfter 84 m0) (marchAfter_unit 84 m0 Hu)
                (marchAfter_curve_zero 84 m0 Hc))
      as (_ & _ & Hmid & _ & _ & Hmidy & Hbn).
    rewrite Hx4, Hy4, Hdx4, Hdy4, Hb4 in *. unfold stepSize in *.
    rewrite innerLeft_val, innerRight_val, innerTop_val, innerBottom_val in *.
    destruct Hmid as [Hx' Hdx']; [lra|]. destruct Hmidy as [Hy' Hdy']; [lra|].
    split; [rewrite Hx'; lra|]. split; [rewrite Hy'; lra|].
    rewrite Hbn.
    destruct (Rlt_dec _ _); [lra|]. destruct (Rlt_dec _ _); [lra|].
    destruct (Rlt_dec _ _); [lra|]. destruct (Rlt_dec _ _); [lra|]. reflexivity. }
  destruct H85 as (Hx5 & Hy5 & Hb5).
  unfold pointOf. rewrite Hx, Hy, Hb, Hx4, Hy4, Hb4, Hx5, Hy5, Hb5.
  repeat split; try reflexivity; try assumption. f_equal. lra.
Qed.

(** No step of the straight part meets a ball: they all lie on or above
    the baulk line. *)
Lemma aimedShot_step_misses j :
  (j <= 82)%nat ->
  let m := marchAfter j (startMarch (circle 550 500 cueBallLabel) aimedShot) in
  checkTrajectoryBallCollision (getAllBallsExceptCue aimedShot)
    (currentX m) (currentY m) (nextX (advance m)) (nextY (advance m)) = None.
Proof.
  intros Hj. cbv zeta.
  destruct aimedShot_start as (Hu & Hc & _).
  set (m0 := startMarch (circle 550 500 cueBallLabel) aimedShot) in *.
  destruct (aimedShot_march j ltac:(lia)) as (Hx & Hy & Hdx & Hdy & Hb).
  destruct (aimedShot_march (S j) ltac:(lia)) as (_ & _ & _ & _ & Hb').
  fold m0 in Hx, Hy, Hdx, Hdy, Hb, Hb'.
  assert (Hadv : advBounces (advance (marchAfter j m0)) = bounces (marchAfter j m0)).
  { rewrite Hb. rewrite marchAfter_succ in Hb'. exact Hb'. }
  destruct (straight_step (marchAfter j m0) (marchAfter_unit j m0 Hu)
              (marchAfter_curve_zero j m0 Hc) Hadv) as (_ & _ & _ & _ & Hnx & Hny).
  rewrite Hnx, Hny, Hdx, Hdy, Hy. unfold stepSize.
  apply search_none. intros target Hin. apply horizontal_step_misses.
  - apply targets_are_object_balls in Hin.
    apply setup_balls_above_baulk. unfold objectBalls.
    apply in_app_or in Hin. apply in_or_app. tauto.
  - rewrite baulkY_val, ballDiameter_val. lra.
Qed.

Lemma aimedShot_continues i :
  (i <= 85)%nat ->
  continues (marchAfter i (startMarch (circle 550 500 cueBallLabel) aimedShot)) = true.
Proof.
  intros Hi.
  destruct aimedShot_start as (_ & _ & Ht & _).
  pose proof aimedShot_bounce as HB. cbv zeta in HB. destruct HB as (_ & _ & _ & H85).
  set (m0 := startMarch (circle 550 500 cueBallLabel) aimedShot) in *.
  unfold continues. apply andb_true_intro. split.
  - apply Nat.leb_le.
    pose proof (marchAfter_bounces_mono m0 i 85 Hi) as Hm.
    apply (f_equal bounce) in H85. cbn [pointOf bounce] in H85.
    unfold maxBounces. lia.
  - apply ltb_true. rewrite totalDist_marchAfter, Ht. unfold stepSize, maxDistance.
    assert (Hle : INR i <= 85).
    { replace 85 with (INR 85) by (rewrite INR_IZR_INZ; reflexivity). apply le_INR. lia. }
    lra.
Qed.

Lemma trajectory_bounce_reflection_witness :
  exists s',
    calculateTrajectoryPreview aimedShot = Some s' /\
    nth_error (points (trajectoryPreview s')) 83 = Some (mkPathPoint 965 500 0) /\
    nth_error (points (trajectoryPreview s')) 84 = Some (mkPathPoint innerRight 500 1) /\
    nth_error (points (trajectoryPreview s')) 85
    = Some (mkPathPoint (innerRight - 5) 500 1) /\
    currentDirX (marchAfter 84 (startMarch (circle 550 500 cueBallLabel) aimedShot))
    = - currentDirX (marchAfter 83 (startMarch (circle 550 500 cueBallLabel) aimedShot)).
Proof.
  destruct (trajectory_bounce_reflection aimedShot (circle 550 500 cueBallLabel)
              eq_refl eq_refl)
    as (s' & k & E & _ & _ & Hnth & Hstop & Hhit & Hstep & _).
  set (m0 := startMarch (circle 550 500 cueBallLabel) aimedShot) in *.
  assert (Hk : (85 < k)%nat).
  { destruct (Nat.lt_ge_cases 85 k) as [Hlt|Hge]; [exact Hlt|]. exfalso.
    destruct (ghostBall (trajectoryPreview s')) as [g|] eqn:Eg.
    - destruct (Hhit g eq_refl) as (hit & Hb0 & Hs & _).
      destruct (Nat.le_gt_cases (k - 1) 82) as [Hj|Hj].
      + pose proof (aimedShot_step_misses (k - 1) Hj) as Hmiss. cbv zeta in Hmiss.
        fold m0 in Hmiss. rewrite Hmiss in Hs. discriminate.
      + pose proof (advance_bounces_ge (marchAfter (k - 1) m0)) as Hge1.
        pose proof (marchAfter_bounces_mono m0 84 (S (k - 1)) ltac:(lia)) as Hm.
        pose proof aimedShot_bounce as HB. cbv zeta in HB. fold m0 in HB.
        destruct HB as (_ & H84 & _).
        apply (f_equal bounce) in H84. cbn [pointOf bounce] in H84.
        rewrite (marchAfter_succ (k - 1)) in Hm.
        change (bounces (marchStep (marchAfter (k - 1) m0)))
          with (advBounces (advance (marchAfter (k - 1) m0))) in Hm.
        lia.
    - pose proof (aimedShot_continues k Hge) as Hc. fold m0 in Hc.
      rewrite Hc in Hstop. specialize (Hstop eq_refl). discriminate. }
  pose proof aimedShot_bounce as HB. cbv zeta in HB. fold m0 in HB.
  destruct HB as (H83 & H84 & _ & H85).
  exists s'. split; [exact E|].
  assert (N83 : nth_error (points (trajectoryPreview s')) 83 = Some (mkPathPoint 965 500 0))
    by (rewrite (Hnth 83%nat) by lia; rewrite H83; reflexivity).
  assert (N84 : nth_error (points (trajectoryPreview s')) 84
                = Some (mkPathPoint innerRight 500 1))
    by (rewrite (Hnth 84%nat) by lia; rewrite H84; reflexivity).
  assert (N85 : nth_error (points (trajectoryPreview s')) 85
                = Some (mkPathPoint (innerRight - 5) 500 1))
    by (rewrite (Hnth 85%nat) by lia; rewrite H85; reflexivity).
  split; [exact N83|]. split; [exact N84|]. split; [exact N85|].
  destruct (Hstep 83%nat _ _ N83 N84) as (_ & _ & _ & Hright & _).
  apply Hright. cbn [pointX].
  destruct (aimedShot_march 83 (le_n _)) as (_ & _ & Hdx & _). fold m0 in Hdx.
  rewrite Hdx, innerRight_val. unfold stepSize. lra.
Defined.

(** ** The length of a marching step *)

(** An iteration that counts no bounce crosses no boundary. *)
Lemma no_bounce_no_crossing m :
  advBounces (advance m) = bounces m ->
  nextX (advance m) = aheadX m /\ nextY (advance m) = aheadY m.
Proof.
  rewrite advance_bounces, advance_nextX, advance_nextY. unfold crossingsX, crossingsY.
  destruct (crossesLeft (aheadX m)), (crossesRight (aheadX m)),
    (crossesTop (aheadY m)), (crossesBottom (aheadY m)); cbn [orb]; intros H;
    try lia; split; reflexivity.
Qed.

(** The point one step ahead is [stepSize] along the direction and, with
    side spin, [0.3 * curveAmount] across it. *)
Lemma ahead_sq m :
  unitDir m ->
  (aheadX m - currentX m) * (aheadX m - currentX m)
  + (aheadY m - currentY m) * (aheadY m - currentY m)
  = stepSize * stepSize
    + (if Num.gtb (Rabs (curveAmount m)) 0.01
       then (curveAmount m * 0.3) * (curveAmount m * 0.3) else 0).
Proof.
  unfold unitDir, aheadX, aheadY. intros Hu.
  set (u := currentDirX m) in *. set (v := currentDirY m) in *.
  set (c := curveAmount m). set (t := stepSize).
  destruct (Num.gtb (Rabs c) 0.01).
  - replace ((currentX m + u * t + - v * c * 0.3 - currentX m)
             * (currentX m + u * t + - v * c * 0.3 - currentX m)
             + (currentY m + v * t + u * c * 0.3 - currentY m)
               * (currentY m + v * t + u * c * 0.3 - currentY m))
      with ((u * u + v * v) * (t * t + c * 0.3 * (c * 0.3))) by lra.
    rewrite Hu. lra.
  - replace ((currentX m + u * t - currentX m) * (currentX m + u * t - currentX m)
             + (currentY m + v * t - currentY m) * (currentY m + v * t - currentY m))
      with ((u * u + v * v) * (t * t)) by lra.
    rewrite Hu. lra.
Qed.

Lemma curve_shrinks m n :
  Rabs (curveAmount (marchAfter n m)) <= Rabs (curveAmount m).
Proof.
  induction n as [|n IH]; [apply Rle_refl|].
  rewrite marchAfter_succ. unfold marchStep, commit. cbn [curveAmount].
  rewrite advance_curve. destruct (Num.gtb _ _); [|exact IH].
  rewrite Rabs_mult, (Rabs_right 0.995) by lra.
  pose proof (Rabs_pos (curveAmount (marchAfter n m))). lra.
Qed.

Lemma side_sq_bound c c0 :
  Rabs c <= Rabs c0 -> c * 0.3 * (c * 0.3) <= 0.3 * c0 * (0.3 * c0).
Proof.
  intros H. pose proof (Rabs_pos c) as Hp.
  assert (Hsq : Rabs c * Rabs c <= Rabs c0 * Rabs c0)
    by (apply Rmult_le_compat; assumption).
  rewrite <- !Rabs_mult in Hsq.
  rewrite !Rabs_right in Hsq
    by (apply Rle_ge; apply Rle_0_sqr || (pose proof (Rle_0_sqr c); pose proof (Rle_0_sqr c0);
        unfold Rsqr in *; lra)).
  lra.
Qed.

(** From a point inside the inner rectangle, clamping shortens a step. *)
Lemma clamped_step_shorter m :
  innerLeft <= currentX m <= innerRight -> innerTop <= currentY m <= innerBottom ->
  (nextX (advance m) - currentX m) * (nextX (advance m) - currentX m)
  + (nextY (advance m) - currentY m) * (nextY (advance m) - currentY m)
  <= (aheadX m - currentX m) * (aheadX m - currentX m)
     + (aheadY m - currentY m) * (aheadY m - currentY m).
Proof.
  intros Hx Hy. rewrite advance_nextX, advance_nextY.
  unfold crossesLeft, crossesRight, crossesTop, crossesBottom.
  assert (HX : (if Num.ltb (aheadX m) innerLeft then innerLeft
                else if Num.gtb (aheadX m) innerRight then innerRight else aheadX m)
               - currentX m = aheadX m - currentX m \/
               Rabs ((if Num.ltb (aheadX m) innerLeft then innerLeft
                      else if Num.gtb (aheadX m) innerRight then innerRight else aheadX m)
                     - currentX m) <= Rabs (aheadX m - currentX m)).
  { destruct (Num.ltb (aheadX m) innerLeft) eqn:E1.
    - apply ltb_true in E1. right. rewrite !Rabs_left1 by lra. lra.
    - destruct (Num.gtb (aheadX m) innerRight) eqn:E2; [|left; reflexivity].
      apply gtb_true in E2. right. rewrite !Rabs_right by lra. lra. }
  assert (HY : (if Num.ltb (aheadY m) innerTop then innerTop
                else if Num.gtb (aheadY m) innerBottom then innerBottom else aheadY m)
               - currentY m = aheadY m - currentY m \/
               Rabs ((if Num.ltb (aheadY m) innerTop then innerTop
                      else if Num.gtb (aheadY m) innerBottom then innerBottom
                           else aheadY m)
                     - currentY m) <= Rabs (aheadY m - currentY m)).
  { destruct (Num.ltb (aheadY m) innerTop) eqn:E1.
    - apply ltb_true in E1. right. rewrite !Rabs_left1 by lra. lra.
    - destruct (Num.gtb (aheadY m) innerBottom) eqn:E2; [|left; reflexivity].
      apply gtb_true in E2. right. rewrite !Rabs_right by lra. lra. }
  assert (Hsq : forall a b, a = b \/ Rabs a <= Rabs b -> a * a <= b * b).
  { intros a b [->|H]; [apply Rle_refl|].
    pose proof (Rabs_pos a).
    assert (Rabs a * Rabs a <= Rabs b * Rabs b) by (apply Rmult_le_compat; assumption).
    rewrite <- !Rabs_mult in H1.
    pose proof (Rle_0_sqr a) as Ha. pose proof (Rle_0_sqr b) as Hb. unfold Rsqr in *.
    rewrite !Rabs_right in H1 by lra. exact H1. }
  apply Rplus_le_compat; apply Hsq; assumption.
Qed.

Lemma dist_sq_eq x1 y1 x2 y2 :
  Num.dist x1 y1 x2 y2 * Num.dist x1 y1 x2 y2
  = (x1 - x2) * (x1 - x2) + (y1 - y2) * (y1 - y2).
Proof.
  unfold Num.dist, Num.pow2. apply sqrt_sqrt. apply dist_sq.
Qed.

(** C10, amended.  The predictor marches in steps of [stepSize] = 5, which
    is 40% of the ball diameter and 80% of the ball radius.  Of two
    consecutive forecast points with the same bounce count the second is
    exactly 5 from the first without side spin, and with side spin between
    5 and [sqrt (25 + (0.045 * spinX)^2)]; a step clamped at a cushion is
    no longer than that.  The loop stops only when its condition fails or
    at a ball contact, after at most 160 points, so the counted distance
    stays within 800, and no point's bounce count exceeds 3. *)
Theorem predictor_step_and_limits s ball :
  cueBall s = Some ball ->
  exists s' k,
    calculateTrajectoryPreview s = Some s' /\
    let m0 := startMarch ball s in
    let pts := points (trajectoryPreview s') in
    let side := 0.045 * spinX (spinControl s) in
    List.length pts = k /\ (0 < k)%nat /\ INR k * stepSize <= maxDistance /\
    (ghostBall (trajectoryPreview s') = None -> continues (marchAfter k m0) = false) /\
    (forall i p q,
        nth_error pts i = Some p -> nth_error pts (S i) = Some q ->
        bounce q = bounce p ->
        let d := Num.dist (pointX q) (pointY q) (pointX p) (pointY p) in
        stepSize <= d /\ d * d <= stepSize * stepSize + side * side /\
        (spinX (spinControl s) = 0 -> d = stepSize)) /\
    (forall i p q,
        nth_error pts (S i) = Some p -> nth_error pts (S (S i)) = Some q ->
        let d := Num.dist (pointX q) (pointY q) (pointX p) (pointY p) in
        d * d <= stepSize * stepSize + side * side) /\
    stepSize = 0.4 * ballDiameter /\ stepSize = 0.8 * ballRadius /\
    Forall (fun p => (bounce p <= maxBounces)%nat) pts.
Proof.
  intros Hb.
  destruct (forecast_run s ball Hb) as (tp' & k & E & Hp & Hpos & Hk & Hend).
  exists (set_trajectoryPreview tp' s), k.
  split; [exact E|]. cbv zeta. cbn [set_trajectoryPreview trajectoryPreview].
  set (m0 := startMarch ball s) in *.
  assert (Hu : unitDir m0) by apply startMarch_unit.
  assert (Hside : forall i,
             (if Num.gtb (Rabs (curveAmount (marchAfter i m0))) 0.01
              then curveAmount (marchAfter i m0) * 0.3 * (curveAmount (marchAfter i m0) * 0.3)
              else 0)
             <= 0.045 * spinX (spinControl s) * (0.045 * spinX (spinControl s))).
  { intros i. pose proof (curve_shrinks m0 i) as Hc.
    pose proof (side_sq_bound _ _ Hc) as Hb1.
    replace (0.3 * curveAmount m0 * (0.3 * curveAmount m0))
      with (0.045 * spinX (spinControl s) * (0.045 * spinX (spinControl s))) in Hb1
      by (unfold m0, startMarch; cbn [curveAmount]; lra).
    destruct (Num.gtb _ _); [exact Hb1|].
    pose proof (Rle_0_sqr (0.045 * spinX (spinControl s))) as H0. unfold Rsqr in H0. lra. }
  split; [rewrite Hp; apply pathOf_length|]. split; [exact Hpos|].
  split; [apply (pathOf_within m0); [reflexivity|exact Hk]|].
  split; [|split; [|split; [|split; [|split]]]].
  - intros Hn. destruct Hend as [[_ Hstop]|(j & hit & _ & _ & _ & Hg)];
      [exact Hstop|congruence].
  - intros i p q Hi Hsi Hbq. rewrite Hp in Hi, Hsi.
    apply pathOf_nth_inv in Hi. apply pathOf_nth_inv in Hsi.
    destruct Hi as [_ ->]. destruct Hsi as [_ ->].
    cbn [pointOf pointX pointY bounce] in *. rewrite marchAfter_succ in *.
    set (m := marchAfter i m0) in *.
    assert (Hum : unitDir m) by (apply marchAfter_unit, Hu).
    change (bounces (marchStep m)) with (advBounces (advance m)) in Hbq.
    destruct (no_bounce_no_crossing m Hbq) as [Hnx Hny].
    change (currentX (marchStep m)) with (nextX (advance m)).
    change (currentY (marchStep m)) with (nextY (advance m)).
    rewrite Hnx, Hny.
    pose proof (ahead_sq m Hum) as Hsq. pose proof (Hside i) as Hs. fold m in Hs.
    split; [|split].
    + apply dist_le_iff_ge; [unfold stepSize; lra|]. rewrite Hsq.
      destruct (Num.gtb _ _); [|lra].
      pose proof (Rle_0_sqr (curveAmount m * 0.3)) as H0. unfold Rsqr in H0. lra.
    + rewrite dist_sq_eq, Hsq. lra.
    + intros Hspin.
      assert (Hc0 : curveAmount m = 0).
      { apply marchAfter_curve_zero. unfold m0, startMarch. cbn [curveAmount].
        rewrite Hspin. lra. }
      rewrite (straight_not_curved m Hc0) in Hsq.
      unfold Num.dist, Num.pow2. apply sqrt_eq_sq; [unfold stepSize; lra|]. lra.
  - intros i p q Hi Hsi. rewrite Hp in Hi, Hsi.
    apply pathOf_nth_inv in Hi. apply pathOf_nth_inv in Hsi.
    destruct Hi as [_ ->]. destruct Hsi as [_ ->].
    cbn [pointOf pointX pointY]. rewrite (marchAfter_succ (S i)).
    set (m := marchAfter (S i) m0) in *.
    assert (Hum : unitDir m) by (apply marchAfter_unit, Hu).
    assert (Hin : innerLeft <= currentX m <= innerRight /\
                  innerTop <= currentY m <= innerBottom)
      by (unfold m; rewrite marchAfter_succ; apply marchStep_inside).
    change (currentX (marchStep m)) with (nextX (advance m)).
    change (currentY (marchStep m)) with (nextY (advance m)).
    rewrite dist_sq_eq.
    pose proof (clamped_step_shorter m (proj1 Hin) (proj2 Hin)) as Hcl.
    pose proof (ahead_sq m Hum) as Hsq. pose proof (Hside (S i)) as Hs. fold m in Hs.
    lra.
  - rewrite ballDiameter_val. unfold stepSize. lra.
  - rewrite ballRadius_val. unfold stepSize. lra.
  - rewrite Hp. apply (pathOf_bounces m0 k Hk).
Qed.

(** *** The forecast of [aimedShot] *)

Lemma aimedShot_forecast :
  exists s',
    calculateTrajectoryPreview aimedShot = Some s' /\
    forall i, (i <= 85)%nat ->
      nth_error (points (trajectoryPreview s')) i
      = Some (pointOf (marchAfter i (startMarch (circle 550 500 cueBallLabel) aimedShot))).
Proof.
  destruct (forecast_run aimedShot (circle 550 500 cueBallLabel) eq_refl)
    as (tp' & k & E & Hp & _ & _ & Hend).
  set (m0 := startMarch (circle 550 500 cueBallLabel) aimedShot) in *.
  assert (Hk : (85 < k)%nat).
  { destruct (Nat.lt_ge_cases 85 k) as [Hlt|Hge]; [exact Hlt|]. exfalso.
    destruct Hend as [[_ Hstop]|(j & hit & -> & Hb0 & Hs & _)].
    - pose proof (aimedShot_continues k Hge) as Hc. fold m0 in Hc. congruence.
    - destruct (Nat.le_gt_cases j 82) as [Hj|Hj].
      + pose proof (aimedShot_step_misses j Hj) as Hmiss. cbv zeta in Hmiss.
        fold m0 in Hmiss. congruence.
      + pose proof (marchAfter_bounces_mono m0 84 (S j) ltac:(lia)) as Hm.
        pose proof aimedShot_bounce as HB. cbv zeta in HB. fold m0 in HB.
        destruct HB as (_ & H84 & _).
        apply (f_equal bounce) in H84. cbn [pointOf bounce] in H84.
        rewrite (marchAfter_succ j) in Hm.
        change (bounces (marchStep (marchAfter j m0)))
          with (advBounces (advance (marchAfter j m0))) in Hm.
        lia. }
  exists (set_trajectoryPreview tp' aimedShot). split; [exact E|].
  intros i Hi. cbn [set_trajectoryPreview trajectoryPreview].
  rewrite Hp. apply pathOf_nth. lia.
Qed.

Lemma aimedShot_first_points :
  exists s',
    calculateTrajectoryPreview aimedShot = Some s' /\
    nth_error (points (trajectoryPreview s')) 0 = Some (mkPathPoint 550 500 0) /\
    nth_error (points (trajectoryPreview s')) 1 = Some (mkPathPoint 555 500 0).
Proof.
  destruct aimedShot_forecast as (s' & E & Hn).
  exists s'. split; [exact E|].
  rewrite (Hn 0%nat), (Hn 1%nat) by lia.
  destruct (aimedShot_march 0 ltac:(lia)) as (Hx0 & Hy0 & _ & _ & Hb0).
  destruct (aimedShot_march 1 ltac:(lia)) as (Hx1 & Hy1 & _ & _ & Hb1).
  unfold pointOf. rewrite Hx0, Hy0, Hb0, Hx1, Hy1, Hb1. cbn [INR].
  split; f_equal; f_equal; lra.
Qed.

Lemma predictor_step_and_limits_witness :
  exists s',
    calculateTrajectoryPreview aimedShot = Some s' /\
    nth_error (points (trajectoryPreview s')) 0 = Some (mkPathPoint 550 500 0) /\
    nth_error (points (trajectoryPreview s')) 1 = Some (mkPathPoint 555 500 0) /\
    Num.dist 555 500 550 500 = stepSize.
Proof.
  destruct (predictor_step_and_limits aimedShot (circle 550 500 cueBallLabel) eq_refl)
    as (s' & k & E & _ & _ & _ & _ & Hstep & _).
  destruct aimedShot_first_points as (s1 & E1 & N0 & N1).
  assert (s1 = s') by congruence. subst s1.
  exists s'. split; [exact E|]. split; [exact N0|]. split; [exact N1|].
  apply (Hstep 0%nat _ _ N0 N1 eq_refl). reflexivity.
Defined.

(** C10 as stated fails: the first step of the forecast of [aimedShot]
    moves the point by 5, which is neither 1-2% of the ball diameter
    (12.5) nor much smaller than the ball radius (6.25). *)
Lemma step_not_small_fraction :
  exists s',
    calculateTrajectoryPreview aimedShot = Some s' /\
    nth_error (points (trajectoryPreview s')) 0 = Some (mkPathPoint 550 500 0) /\
    nth_error (points (trajectoryPreview s')) 1 = Some (mkPathPoint 555 500 0) /\
    Num.dist 555 500 550 500 = 5 /\
    ~ (5 <= 0.02 * ballDiameter) /\ ~ (5 <= ballRadius / 2).
Proof.
  destruct aimedShot_first_points as (s' & E & N0 & N1).
  exists s'. split; [exact E|]. split; [exact N0|]. split; [exact N1|].
  split; [|rewrite ballDiameter_val, ballRadius_val; split; lra].
  unfold Num.dist, Num.pow2. apply sqrt_eq_sq; lra.
Qed.

(** ** What writes the spin *)

Lemma keyPressed_spin key rack s :
  (String.eqb key "c" || String.eqb key "C") = false ->
  spinControl (keyPressed key rack s) = spinControl s.
Proof.
  intros Hk. unfold keyPressed, keySpin. rewrite Hk. clear Hk.
  assert (H1 : spinControl (keyMode key rack s) = spinControl s).
  { unfold keyMode, resetAllBalls.
    destruct (String.eqb key "1"); [cbn; destruct (cueBall s); reflexivity|].
    destruct (String.eqb key "2"); [cbn; destruct (cueBall s); reflexivity|].
    destruct (String.eqb key "3"); [cbn; destruct (cueBall s); reflexivity|].
    reflexivity. }
  assert (H2 : forall s0, spinControl (keyReplace key s0) = spinControl s0).
  { intros s0. unfold keyReplace. destruct (_ || _); [|reflexivity].
    destruct (_ && _); reflexivity. }
  assert (H3 : forall s0, spinControl (keyReplay key s0) = spinControl s0).
  { intros s0. unfold keyReplay, toggleReplay. destruct (String.eqb _ _); [|reflexivity].
    destruct (_ && _); reflexivity. }
  assert (H4 : forall s0, spinControl (keyTrajectory key s0) = spinControl s0).
  { intros s0. unfold keyTrajectory. destruct (_ || _); reflexivity. }
  rewrite H4, H3, H2, H1. reflexivity.
Qed.

Lemma checkPocketCollisions_spin s :
  spinControl (checkPocketCollisions s) = spinControl s.
Proof.
  unfold checkPocketCollisions. cbn [spinControl set_colouredBalls set_redBalls].
  destruct (cueBall s) as [b|]; [destruct (potted b)|]; reflexivity.
Qed.

Lemma beforeSettle_spin phys s : spinControl (beforeSettle phys s) = spinControl s.
Proof.
  unfold beforeSettle. rewrite checkPocketCollisions_spin.
  destruct (_ && _); reflexivity.
Qed.

Lemma draw_spin x y phys s s' :
  draw x y phys s = Some s' -> spinControl s' = spinControl s.
Proof.
  intros E. apply draw_cases in E.
  destruct E as [[_ ->] | (_ & s2 & tp & c & E2 & -> & _)].
  - unfold drawReplayFrame. destruct (frames _); [|destruct (Num.geb _ _)]; reflexivity.
  - cbn [spinControl set_cue set_trajectoryPreview].
    apply checkBallsMoving_cases in E2. destruct E2 as [-> | [_ ->]];
      cbn [spinControl stopRecording set_replaySystem set_canShoot set_isShooting];
      apply beforeSettle_spin.
Qed.

(** Only a press on the spin control, a drag while it is held and the C
    key write the spin. *)
Lemma handle_keeps_spin e s s' :
  touchesSpin e s = false -> handle e s = Some s' ->
  spinX (spinControl s') = spinX (spinControl s) /\
  spinY (spinControl s') = spinY (spinControl s).
Proof.
  destruct e as [x y|x y shift| |key rack|x y phys]; cbn [touchesSpin handle]; intros Ht E.
  - unfold mousePressed in E. rewrite Ht in E.
    destruct (negb (cueBallPlaced s)).
    + destruct (isInDZone x y); [|injection E as <-; split; reflexivity].
      destruct (isOverlappingBall x y s) as [[|]|]; [| |discriminate];
        injection E as <-; split; reflexivity.
    + destruct (cueBall s); [|injection E as <-; split; reflexivity].
      destruct (_ && _); injection E as <-; split; reflexivity.
  - injection E as <-. unfold mouseDragged. rewrite Ht.
    destruct (_ && _); split; reflexivity.
  - destruct (mouseReleased_keeps_spin s s' E) as (Hx & Hy & _). split; assumption.
  - injection E as <-. rewrite (keyPressed_spin key rack s Ht). split; reflexivity.
  - rewrite (draw_spin x y phys s s' E). split; reflexivity.
Qed.

Lemma run_keeps_spin es : forall s s',
  noSpinInput es s -> run es s = Some s' ->
  spinX (spinControl s') = spinX (spinControl s) /\
  spinY (spinControl s') = spinY (spinControl s).
Proof.
  induction es as [|e es IH]; intros s s' Hno E; cbn [run noSpinInput] in *.
  - injection E as <-. split; reflexivity.
  - destruct Hno as [Ht Hrest]. destruct (handle e s) as [s1|] eqn:E1; [|discriminate].
    destruct (handle_keeps_spin e s s1 Ht E1) as [Hx Hy].
    destruct (IH s1 s' Hrest E) as [Hx' Hy']. split; congruence.
Qed.

Lemma center_inside : isInsideSpinControl uiX uiY = true.
Proof.
  unfold isInsideSpinControl. apply leb_true.
  apply dist_le_iff; unfold uiRadius; lra.
Qed.

(** ** After the shot *)

(** C9, amended.  After every shot fires the pull-back is 0 and aiming is
    cleared, while the spin vector and the aim angle keep the values they
    had.  The spin is written only by a press on the spin control, a drag
    while the control is held, and the C key: whatever other events follow
    the shot, the next aim included, the spin stays as it was when the
    shot fired.  The C key, and a press on the centre of the control, set
    it to zero. *)
Theorem shot_resets_aim_not_spin s s' :
  isDragging (spinControl s) = false -> shotReady s = true ->
  mouseReleased s = Some s' ->
  isShooting s' = true /\
  pullBack (cue s') = 0 /\ isAiming (cue s') = false /\
  spinX (spinControl s') = spinX (spinControl s) /\
  spinY (spinControl s') = spinY (spinControl s) /\
  angle (cue s') = angle (cue s) /\
  (forall es s'',
      noSpinInput es s' -> run es s' = Some s'' ->
      spinX (spinControl s'') = spinX (spinControl s) /\
      spinY (spinControl s'') = spinY (spinControl s)) /\
  (forall key rack,
      key = "c"%string \/ key = "C"%string ->
      spinX (spinControl (keyPressed key rack s')) = 0 /\
      spinY (spinControl (keyPressed key rack s')) = 0) /\
  (exists s'', mousePressed uiX uiY s' = Some s'' /\
               spinX (spinControl s'') = 0 /\ spinY (spinControl s'') = 0).
Proof.
  intros Hdrag Hready E.
  destruct (mouseReleased_keeps_spin s s' E) as (Hx & Hy & Ha).
  assert (Hrun : forall es s'',
             noSpinInput es s' -> run es s' = Some s'' ->
             spinX (spinControl s'') = spinX (spinControl s) /\
             spinY (spinControl s'') = spinY (spinControl s)).
  { intros es s'' Hno Er. destruct (run_keeps_spin es s' s'' Hno Er) as [H1 H2].
    split; congruence. }
  assert (Hcentre : exists s'', mousePressed uiX uiY s' = Some s'' /\
                      spinX (spinControl s'') = 0 /\ spinY (spinControl s'') = 0).
  { unfold mousePressed. rewrite center_inside. eexists. split; [reflexivity|].
    unfold updateSpinFromMouse. cbn [spinControl set_spinControl spinX spinY].
    replace ((uiX - uiX) / uiRadius) with 0 by (unfold uiRadius; lra).
    replace ((uiY - uiY) / uiRadius) with 0 by (unfold uiRadius; lra).
    rewrite (constrain_id 0) by lra. split; reflexivity. }
  unfold mouseReleased in E. rewrite Hdrag, Hready in E.
  unfold shootCueBall in E. cbn [startRecording set_replaySystem cueBall] in E.
  destruct (cueBall s); [|discriminate]. cbn [option_map] in E. injection E as <-.
  split; [reflexivity|]. split; [reflexivity|]. split; [reflexivity|].
  split; [exact Hx|]. split; [exact Hy|]. split; [exact Ha|].
  split; [exact Hrun|]. split; [|exact Hcentre].
  intros key rack [-> | ->]; split; reflexivity.
Qed.

(** ** A frame of the draw loop, field by field *)

Lemma beforeSettle_present phys s :
  colouredOnTable s -> colouredOnTable (beforeSettle phys s).
Proof.
  intros H. unfold beforeSettle, colouredOnTable.
  rewrite checkPocketCollisions_coloured. apply pocketColoured_present.
  pose proof (Engine_update_present phys s H) as H0. unfold colouredOnTable in H0.
  destruct (_ && _); exact H0.
Qed.

Lemma beforeSettle_fields phys s :
  let bs := beforeSettle phys s in
  isShooting bs = isShooting s /\ canShoot bs = canShoot s /\ cue bs = cue s /\
  showReplay (replaySystem bs) = showReplay (replaySystem s) /\
  cueBall bs = match option_map (phys RefCue) (cueBall s) with
               | Some ball => if potted ball then None else Some ball
               | None => None
               end /\
  cueBallPlaced bs = match option_map (phys RefCue) (cueBall s) with
                     | Some ball => if potted ball then false else cueBallPlaced s
                     | None => cueBallPlaced s
                     end.
Proof.
  cbv zeta. unfold beforeSettle.
  set (s0 := Engine_update phys s).
  set (s1 := if isShooting s0 && recording (replaySystem s0)
             then recordReplayFrame s0 else s0).
  assert (H1 : isShooting s1 = isShooting s /\ canShoot s1 = canShoot s /\
               cue s1 = cue s /\
               showReplay (replaySystem s1) = showReplay (replaySystem s) /\
               cueBall s1 = option_map (phys RefCue) (cueBall s) /\
               cueBallPlaced s1 = cueBallPlaced s)
    by (unfold s1; destruct (_ && _); repeat split).
  destruct H1 as (Hs & Hc & Hq & Hr & Hb & Hp).
  assert (H2 : isShooting (checkPocketCollisions s1) = isShooting s1 /\
               canShoot (checkPocketCollisions s1) = canShoot s1 /\
               cue (checkPocketCollisions s1) = cue s1 /\
               showReplay (replaySystem (checkPocketCollisions s1))
               = showReplay (replaySystem s1) /\
               cueBall (checkPocketCollisions s1)
               = match cueBall s1 with
                 | Some ball => if potted ball then None else Some ball
                 | None => None
                 end /\
               cueBallPlaced (checkPocketCollisions s1)
               = match cueBall s1 with
                 | Some ball => if potted ball then false else cueBallPlaced s1
                 | None => cueBallPlaced s1
                 end).
  { unfold checkPocketCollisions.
    cbn [isShooting canShoot cue replaySystem cueBall cueBallPlaced
         set_colouredBalls set_redBalls].
    destruct (cueBall s1) as [b|] eqn:Eb; [destruct (potted b)|];
      cbn [isShooting canShoot cue replaySystem cueBall cueBallPlaced
           set_cueBallPlaced set_cueBall]; rewrite ?Eb; repeat split. }
  destruct H2 as (Hs2 & Hc2 & Hq2 & Hr2 & Hb2 & Hp2).
  rewrite Hs2, Hc2, Hq2, Hr2, Hb2, Hp2, Hs, Hc, Hq, Hr, Hb, Hp. repeat split.
Qed.

Lemma draw_frame x y phys s s' :
  showReplay (replaySystem s) = false -> colouredOnTable s ->
  draw x y phys s = Some s' ->
  let bs := beforeSettle phys s in
  let settles := isShooting bs && negb (existsb moving (liveBalls bs)) in
  cueBall s' = cueBall bs /\ cueBallPlaced s' = cueBallPlaced bs /\
  isShooting s' = (if settles then false else isShooting bs) /\
  canShoot s' = (if settles then true else canShoot bs) /\
  isAiming (cue s') = isAiming (cue bs) /\ pullBack (cue s') = pullBack (cue bs) /\
  showReplay (replaySystem s') = showReplay (replaySystem bs).
Proof.
  intros Hshow Hcol E. cbv zeta. apply draw_cases in E.
  destruct E as [[Hsr _] | (_ & s2 & tp & c & E2 & -> & Hp & Ha)]; [congruence|].
  pose proof (beforeSettle_present phys s Hcol) as Hbs.
  remember (beforeSettle phys s) as bs eqn:Ebs. clear Ebs.
  rewrite (checkBallsMoving_existsb bs Hbs) in E2. injection E2 as <-.
  cbn [cueBall cueBallPlaced isShooting canShoot cue replaySystem
       set_cue set_trajectoryPreview].
  rewrite Hp, Ha.
  destruct (isShooting bs && negb (existsb moving (liveBalls bs)));
    repeat split.
Qed.

Lemma potted_position ball ball' :
  position ball = position ball' -> potted ball = potted ball'.
Proof. unfold potted, findPocket. intros ->. reflexivity. Qed.

Lemma In_mapi {A B} (f : nat -> A -> B) l : forall k b,
  In b (mapi f k l) -> exists i a, In a l /\ b = f i a.
Proof.
  induction l as [|a l IH]; intros k b Hin; cbn [mapi In] in Hin; [contradiction|].
  destruct Hin as [<-|Hin].
  - exists k, a. split; [left; reflexivity|reflexivity].
  - destruct (IH _ _ Hin) as (i & a' & Ha & ->). exists i, a'. split; [right; exact Ha|reflexivity].
Qed.

Lemma recorded_coloured s :
  colouredBalls (if isShooting s && recording (replaySystem s)
                 then recordReplayFrame s else s) = colouredBalls s.
Proof. destruct (_ && _); reflexivity. Qed.

(** After a step of the engine that stops every ball, no live ball moves. *)
Lemma comeToRest_still s ball :
  In ball (liveBalls (beforeSettle comeToRest s)) -> velocity ball = mkVec 0 0.
Proof.
  unfold liveBalls. intros Hin.
  destruct (beforeSettle_fields comeToRest s) as (_ & _ & _ & _ & Hcue & _).
  apply in_app_or in Hin. destruct Hin as [Hin|Hin].
  - rewrite Hcue in Hin. destruct (cueBall s) as [b|]; cbn [option_map] in Hin;
      [|contradiction].
    destruct (potted (comeToRest RefCue b)); [contradiction|].
    destruct Hin as [<-|[]]. reflexivity.
  - apply in_app_or in Hin. destruct Hin as [Hin|Hin].
    + rewrite beforeSettle_reds in Hin. apply filter_In in Hin. destruct Hin as [Hin _].
      apply In_mapi in Hin. destruct Hin as (i & b & _ & ->). reflexivity.
    + unfold beforeSettle in Hin. rewrite checkPocketCollisions_coloured in Hin.
      rewrite recorded_coloured in Hin. unfold Engine_update in Hin.
      cbn [colouredBalls set_colouredBalls] in Hin.
      unfold liveColoured, pocketColoured in Hin.
      apply in_flat_map in Hin. destruct Hin as (e & He & Hin).
      apply in_map_iff in He. destruct He as (e1 & <- & He1).
      apply in_map_iff in He1. destruct He1 as (e0 & <- & _).
      cbn [fst snd] in Hin. destruct (snd e0) as [b|]; cbn [option_map] in Hin.
      * destruct (potted (comeToRest (RefColoured (fst e0)) b)); cbn [snd] in Hin;
          destruct Hin as [<-|[]]; reflexivity.
      * cbn [snd] in Hin. contradiction.
Qed.

Lemma comeToRest_settled s :
  existsb moving (liveBalls (beforeSettle comeToRest s)) = false.
Proof.
  apply none_moving_iff. intros ball Hin.
  rewrite (comeToRest_still s ball Hin). unfold magnitude. cbn [vecX vecY].
  replace (0 * 0 + 0 * 0) with 0 by ring. rewrite sqrt_0. unfold threshold. lra.
Qed.

(** ** The next shot after a spun one *)

Lemma shot_resets_aim_not_spin_witness :
  exists s', mouseReleased spunShot = Some s' /\
             pullBack (cue s') = 0 /\ isAiming (cue s') = false /\
             spinX (spinControl s') = 0.5.
Proof.
  assert (Hready : shotReady spunShot = true).
  { apply shotReady_iff. cbn. repeat split; [discriminate|lra]. }
  destruct (mouseReleased spunShot) as [s'|] eqn:E.
  - destruct (shot_resets_aim_not_spin spunShot s' eq_refl Hready E)
      as (_ & Hp & Ha & Hx & _).
    exists s'. repeat split; assumption.
  - unfold mouseReleased in E. cbn [spunShot set_spinControl spinControl isDragging] in E.
    rewrite Hready in E. discriminate.
Defined.

Lemma spunShot_fires :
  exists ball,
    position ball = mkVec 550 500 /\
    mouseReleased spunShot
    = Some (resetAim (set_canShoot false (set_isShooting true
              (set_cueBall (Some ball) (startRecording spunShot))))).
Proof.
  assert (Hready : shotReady spunShot = true).
  { apply shotReady_iff. cbn. repeat split; [discriminate|lra]. }
  unfold mouseReleased. cbn [spunShot set_spinControl spinControl isDragging].
  fold spunShot. rewrite Hready.
  destruct (shootCueBall_effect (startRecording spunShot) (circle 550 500 cueBallLabel)
              eq_refl) as (ball & E & Hpos & _).
  rewrite E. exists ball. split; [exact Hpos|reflexivity].
Qed.

Lemma rolling_ball_moves ball :
  moving (setVelocity (setPosition ball (mkVec 555 500)) (mkVec 5 0)) = true.
Proof.
  apply moving_iff. unfold magnitude. cbn [velocity setVelocity vecX vecY].
  replace (5 * 5 + 0 * 0) with (5 * 5) by ring.
  rewrite sqrt_square by lra. unfold threshold. lra.
Qed.

Lemma mid_table_not_potted ball :
  position ball = mkVec 555 500 -> potted ball = false.
Proof.
  intros Hpos.
  rewrite (potted_position ball (circle 555 500 cueBallLabel)) by exact Hpos.
  apply inner_not_potted.
  rewrite tableY_val, pocketSize_val. unfold cushionThickness, tableWidth, tableLength. lra.
Qed.

(** A frame in which the engine has the cue ball rolling keeps the shot
    in flight. *)
Lemma frame_rolling s ball s' :
  showReplay (replaySystem s) = false -> colouredOnTable s ->
  cueBall s = Some ball -> draw 0 0 rollOn s = Some s' ->
  cueBall s' = Some (rollOn RefCue ball) /\ cueBallPlaced s' = cueBallPlaced s /\
  isShooting s' = isShooting s /\ canShoot s' = canShoot s /\
  isAiming (cue s') = isAiming (cue s) /\ pullBack (cue s') = pullBack (cue s) /\
  showReplay (replaySystem s') = false.
Proof.
  intros Hshow Hcol Hb E.
  destruct (draw_frame 0 0 rollOn s s' Hshow Hcol E)
    as (Hb2 & Hp2 & Hs2 & Hc2 & Ha2 & Hq2 & Hr2).
  destruct (beforeSettle_fields rollOn s) as (Fs & Fc & Fq & Fr & Fb & Fp).
  assert (Hnp : potted (rollOn RefCue ball) = false)
    by (apply mid_table_not_potted; reflexivity).
  rewrite Hb in Fb, Fp. cbn [option_map] in Fb, Fp. rewrite Hnp in Fb, Fp.
  assert (Hmov : existsb moving (liveBalls (beforeSettle rollOn s)) = true).
  { unfold liveBalls. rewrite Fb. cbn [app existsb].
    unfold rollOn. rewrite rolling_ball_moves. reflexivity. }
  rewrite Hmov, andb_false_r in Hs2, Hc2.
  rewrite Hb2, Hp2, Hs2, Hc2, Ha2, Hq2, Hr2, Fs, Fc, Fq, Fr, Fb, Fp, Hshow.
  repeat split.
Qed.

(** A frame in which the engine brings every ball to rest ends the
    flight. *)
Lemma frame_resting s ball s' :
  showReplay (replaySystem s) = false -> colouredOnTable s ->
  cueBall s = Some ball -> position ball = mkVec 555 500 -> isShooting s = true ->
  draw 0 0 comeToRest s = Some s' ->
  cueBall s' = Some (comeToRest RefCue ball) /\ cueBallPlaced s' = cueBallPlaced s /\
  isShooting s' = false /\ canShoot s' = true /\
  isAiming (cue s') = isAiming (cue s) /\ pullBack (cue s') = pullBack (cue s).
Proof.
  intros Hshow Hcol Hb Hpos Hsh E.
  destruct (draw_frame 0 0 comeToRest s s' Hshow Hcol E)
    as (Hb2 & Hp2 & Hs2 & Hc2 & Ha2 & Hq2 & _).
  destruct (beforeSettle_fields comeToRest s) as (Fs & Fc & Fq & Fr & Fb & Fp).
  assert (Hnp : potted (comeToRest RefCue ball) = false)
    by (apply mid_table_not_potted; exact Hpos).
  rewrite Hb in Fb, Fp. cbn [option_map] in Fb, Fp. rewrite Hnp in Fb, Fp.
  rewrite (comeToRest_settled s), Fs, Hsh in Hs2, Hc2. cbn [andb negb] in Hs2, Hc2.
  rewrite Hb2, Hp2, Hs2, Hc2, Ha2, Hq2, Fq, Fb, Fp.
  repeat split.
Qed.

(** A shot in flight the first frame of which has the cue ball rolling
    and the second every ball at rest: the flight has ended, and a press
    starts the aim of the next shot with the spin as it was. *)
Lemma aim_after_flight s1 ball :
  showReplay (replaySystem s1) = false -> colouredOnTable s1 ->
  cueBall s1 = Some ball -> cueBallPlaced s1 = true -> isShooting s1 = true ->
  exists s4,
    run [Draw 0 0 rollOn; Draw 0 0 comeToRest; MousePressed 600 400] s1 = Some s4 /\
    isShooting s4 = false /\ canShoot s4 = true /\
    isAiming (cue s4) = true /\ pullBack (cue s4) = 0 /\
    spinControl s4 = spinControl s1.
Proof.
  intros Hr1 Hcol1 Hb1 Hp1 Hs1.
  destruct (handle_total (Draw 0 0 rollOn) s1 Hcol1) as [s2 E2]. cbn [handle] in E2.
  assert (Hcol2 : colouredOnTable s2) by exact (draw_present _ _ _ _ _ Hcol1 E2).
  destruct (frame_rolling s1 ball s2 Hr1 Hcol1 Hb1 E2)
    as (Hb2 & Hp2 & Hs2 & _ & _ & _ & Hr2).
  assert (Hs2' : isShooting s2 = true) by (rewrite Hs2; exact Hs1).
  destruct (handle_total (Draw 0 0 comeToRest) s2 Hcol2) as [s3 E3]. cbn [handle] in E3.
  destruct (frame_resting s2 (rollOn RefCue ball) s3 Hr2 Hcol2 Hb2 eq_refl Hs2' E3)
    as (Hb3 & Hp3 & Hs3 & Hc3 & _ & _).
  pose proof (draw_spin _ _ _ _ _ E2) as Sp2. pose proof (draw_spin _ _ _ _ _ E3) as Sp3.
  assert (E4 : exists c, mousePressed 600 400 s3 = Some (set_cue c s3) /\
                         isAiming c = true /\ pullBack c = 0).
  { unfold mousePressed.
    rewrite spin_control_clear by (rewrite cushionBottom_val; lra).
    rewrite Hp3, Hp2, Hp1, Hb3, Hc3. cbn [negb andb].
    eexists. split; [reflexivity|]. split; reflexivity. }
  destruct E4 as (c & E4 & Hca & Hcp).
  exists (set_cue c s3).
  split; [cbn [run handle]; rewrite E2, E3, E4; reflexivity|].
  cbn [isShooting canShoot cue spinControl set_cue].
  rewrite Sp3, Sp2.
  split; [exact Hs3|]. split; [exact Hc3|]. split; [exact Hca|]. split; [exact Hcp|].
  reflexivity.
Qed.

(** C9 as stated fails: a shot is fired with spin (0.5, -0.5); the cue
    ball rolls for a frame and comes to rest in the next, which ends the
    flight; a press then starts the aim of the next shot, and the spin is
    still (0.5, -0.5). *)
Lemma spin_survives_shot :
  exists s1 s4,
    handle MouseReleased spunShot = Some s1 /\ isShooting s1 = true /\
    run [Draw 0 0 rollOn; Draw 0 0 comeToRest; MousePressed 600 400] s1 = Some s4 /\
    isShooting s4 = false /\ canShoot s4 = true /\
    isAiming (cue s4) = true /\ pullBack (cue s4) = 0 /\
    spinX (spinControl s4) = 0.5 /\ spinY (spinControl s4) = -0.5 /\
    spinX (spinControl s4) <> 0.
Proof.
  destruct spunShot_fires as (ball & Hpos & E1).
  remember (resetAim (set_canShoot false (set_isShooting true
              (set_cueBall (Some ball) (startRecording spunShot))))) as s1 eqn:Es1.
  assert (Hcol1 : colouredOnTable s1)
    by (subst s1; unfold colouredOnTable; cbn; repeat constructor; discriminate).
  assert (F1 : showReplay (replaySystem s1) = false /\ cueBall s1 = Some ball /\
               cueBallPlaced s1 = true /\ isShooting s1 = true /\
               spinControl s1 = mkSpin 0.5 (-0.5) false)
    by (subst s1; repeat split).
  destruct F1 as (Hr1 & Hb1 & Hp1 & Hs1 & Hspin1). clear Es1.
  destruct (aim_after_flight s1 ball Hr1 Hcol1 Hb1 Hp1 Hs1)
    as (s4 & E & Hs4 & Hc4 & Ha4 & Hp4 & Hspin4).
  exists s1, s4.
  split; [exact E1|]. split; [exact Hs1|]. split; [exact E|].
  split; [exact Hs4|]. split; [exact Hc4|]. split; [exact Ha4|]. split; [exact Hp4|].
  rewrite Hspin4, Hspin1. cbn [spinX spinY]. repeat split; lra.
Qed.
